(** * firestore-copy-json: the document parser of [scripts/content.js]

    A shallow embedding of the parsing core of the extension (leaf coercion,
    array reconstruction, the two tree walkers and [getFirestoreJSON]), of
    the text it copies, of the copy button and its injection into the page
    and of the message listener, with the properties of them that the
    specification states and further ones that the code shows.

    Modelling conventions.
    - A JavaScript string is a [string]: a sequence of code units in the range
      U+0000..U+00FF.  White space and case mapping are the ECMAScript ones
      restricted to that range.
    - parseInt yields an exact integer ([Z]) and Number::toString of an
      integer its decimal digits.  That is the code for integers of magnitude
      at most 2^53 ([JSNumber.exact]); beyond, ECMAScript rounds to the
      nearest double and spells with an exponent from 10^21 on, which is not
      modelled.  A statement that reads a key back from its integer is made
      for keys in that range ([JSNumber.exactKeys]).
    - Number yields the decimal the text denotes (sign, mantissa, power of
      ten), [Infinity] or [NaN]; the rounding of that decimal to a double is
      not modelled, so the value stands for the double only up to that
      rounding.  Which texts are numeric is stated apart from it, by the
      grammar of numeric literals ([Spec.isNumericLiteral]).
    - A plain object is the list of its own properties in creation order,
      keys pairwise distinct.  An assignment to the key __proto__ goes to the
      accessor of Object.prototype and stores no property, which
      [JSObject.set] does not model: a statement about the keys that a parse
      stores is made for entries that do not declare the key __proto__.
    - The DOM is a finite tree; an element is referred to by its position
      (the child indices from the document node).  The tree walkers recurse
      through DOM queries, so they take a recursion budget which
      [getFirestoreJSON] sets from the height of the document. *)

From Stdlib Require Import ZArith Lia Ascii String.
From stdpp Require Import base tactics option list strings sorting numbers.

Local Open Scope string_scope.
Local Open Scope Z_scope.
Local Open Scope list_scope.

(** ** Strings *)

Module JSString.

Definition codeUnit (c : ascii) : Z := Z.of_N (N_of_ascii c).

(** WhiteSpace and LineTerminator code units: TAB, LF, VT, FF, CR, SP, NBSP. *)
Definition isWhiteSpace (c : ascii) : bool :=
  let n := codeUnit c in
  ((9 <=? n) && (n <=? 13)) || (n =? 32) || (n =? 160).

Fixpoint trimStart (s : string) : string :=
  match s with
  | String c s' => if isWhiteSpace c then trimStart s' else s
  | EmptyString => EmptyString
  end.

Definition trimEnd (s : string) : string :=
  String.rev (trimStart (String.rev s)).

Definition trim (s : string) : string := trimEnd (trimStart s).

Definition startsWith (s searchString : string) : bool :=
  String.prefix searchString s.

Definition endsWith (s searchString : string) : bool :=
  String.prefix (String.rev searchString) (String.rev s).

(** [s.slice(start, end)], negative positions counting from the end. *)
Definition slice (s : string) (start fin : Z) : string :=
  let len := Z.of_nat (String.length s) in
  let from := if start <? 0 then Z.max (len + start) 0 else Z.min start len in
  let to := if fin <? 0 then Z.max (len + fin) 0 else Z.min fin len in
  String.substring (Z.to_nat from) (Z.to_nat (Z.max (to - from) 0)) s.

Definition toLowerUnit (c : ascii) : ascii :=
  let n := codeUnit c in
  if ((65 <=? n) && (n <=? 90))
     || ((192 <=? n) && (n <=? 222) && negb (n =? 215))
  then ascii_of_N (Z.to_N (n + 32)) else c.

Fixpoint toLowerCase (s : string) : string :=
  match s with
  | String c s' => String (toLowerUnit c) (toLowerCase s')
  | EmptyString => EmptyString
  end.

(** [s.split(sep)] for a separator of one code unit. *)
Fixpoint split (sep : ascii) (s : string) : list string :=
  match s with
  | EmptyString => [EmptyString]
  | String c s' =>
      if bool_decide (c = sep) then EmptyString :: split sep s'
      else match split sep s' with
           | seg :: segs => String c seg :: segs
           | [] => [String c EmptyString]
           end
  end.

End JSString.

(** ** Numbers *)

Module JSNumber.
Import JSString.

(** The value of a code unit as a digit of the given radix. *)
Definition digitValue (radix : Z) (c : ascii) : option Z :=
  let n := codeUnit c in
  let d := if (48 <=? n) && (n <=? 57) then n - 48
           else if (97 <=? n) && (n <=? 122) then n - 87
           else if (65 <=? n) && (n <=? 90) then n - 55
           else radix in
  if d <? radix then Some d else None.

(** The longest prefix of digits: its value on top of [acc], its length and
    the rest of the text. *)
Fixpoint spanDigits (radix : Z) (s : string) (acc : Z) (count : nat)
  : Z * nat * string :=
  match s with
  | String c s' =>
      match digitValue radix c with
      | Some d => spanDigits radix s' (radix * acc + d) (S count)
      | None => (acc, count, s)
      end
  | EmptyString => (acc, count, s)
  end.

(** [parseInt(s, 10)]; [None] is NaN. *)
Definition parseInt (s : string) : option Z :=
  let text := trimStart s in
  let '(negative, text) :=
    match text with
    | String "-" rest => (true, rest)
    | String "+" rest => (false, rest)
    | _ => (false, text)
    end in
  let '(mathInt, count, _) := spanDigits 10 text 0 0 in
  if bool_decide (count = 0%nat) then None
  else Some (if negative then - mathInt else mathInt).

Definition digitUnit (d : Z) : ascii := ascii_of_N (Z.to_N (48 + d)).

Fixpoint digitsOf (fuel : nat) (n : Z) (acc : string) : string :=
  match fuel with
  | O => acc
  | S fuel' =>
      let acc' := String (digitUnit (n mod 10)) acc in
      if n / 10 =? 0 then acc' else digitsOf fuel' (n / 10) acc'
  end.

(** Number::toString of an integer: decimal digits, a minus sign if negative. *)
Definition ToString (n : Z) : string :=
  if n <? 0 then String "-" (digitsOf (S (Z.to_nat (Z.log2 (- n)))) (- n) EmptyString)
  else digitsOf (S (Z.to_nat (Z.log2 n))) n EmptyString.

(** The integers on which this model is the code: an integer of magnitude
    at most 2^53 is a double, which parseInt reads from its digits without
    rounding and Number::toString spells by its digits.  Beyond, the code
    rounds to the nearest double and, from 10^21 on, spells with an exponent,
    which [parseInt] and [ToString] do not model. *)
Definition exact (n : Z) : Prop := Z.abs n <= 2 ^ 53.

(** Keys whose integers, for those that parseInt accepts, are exact. *)
Definition exactKeys (keys : list string) : Prop :=
  Forall (λ key, ∀ n, parseInt key = Some n → exact n) keys.

(** A Number value: the decimal [(-1)^negative * mantissa * 10^exponent]
    that the double is rounded from, an infinity, or NaN. *)
Inductive t : Type :=
| NaN
| Infinity (negative : bool)
| Finite (negative : bool) (mantissa : Z) (exponent : Z).

Definition isNaN (x : t) : bool :=
  match x with NaN => true | _ => false end.

(** ExponentPart(opt) up to the end of the text. *)
Definition parseExponent (s : string) : option Z :=
  match s with
  | EmptyString => Some 0
  | String c rest =>
      if bool_decide (c = "e"%char) || bool_decide (c = "E"%char) then
        let '(negative, rest) :=
          match rest with
          | String "-" r => (true, r)
          | String "+" r => (false, r)
          | _ => (false, rest)
          end in
        let '(e, count, tail) := spanDigits 10 rest 0 0 in
        if bool_decide (count ≠ 0%nat) && bool_decide (tail = EmptyString)
        then Some (if negative then - e else e) else None
      else None
  end.

(** StrUnsignedDecimalLiteral. *)
Definition StrUnsignedDecimalLiteral (negative : bool) (s : string) : t :=
  if bool_decide (s = "Infinity") then Infinity negative else
  let '(ip, ni, rest) := spanDigits 10 s 0 0 in
  match rest with
  | String "." rest1 =>
      let '(m, nf, rest2) := spanDigits 10 rest1 ip 0 in
      if bool_decide ((ni + nf)%nat ≠ 0%nat) then
        match parseExponent rest2 with
        | Some e => Finite negative m (e - Z.of_nat nf)
        | None => NaN
        end
      else NaN
  | _ =>
      if bool_decide (ni ≠ 0%nat) then
        match parseExponent rest with
        | Some e => Finite negative ip e
        | None => NaN
        end
      else NaN
  end.

Definition StrDecimalLiteral (s : string) : t :=
  match s with
  | String "-" rest => StrUnsignedDecimalLiteral true rest
  | String "+" rest => StrUnsignedDecimalLiteral false rest
  | _ => StrUnsignedDecimalLiteral false s
  end.

(** NonDecimalIntegerLiteral, after its two-unit prefix. *)
Definition NonDecimalIntegerLiteral (radix : Z) (s : string) : t :=
  let '(v, count, tail) := spanDigits radix s 0 0 in
  if bool_decide (count ≠ 0%nat) && bool_decide (tail = EmptyString)
  then Finite false v 0 else NaN.

(** [Number(s)] on a string: StringToNumber. *)
Definition Number (s : string) : t :=
  let text := trim s in
  match text with
  | EmptyString => Finite false 0 0
  | String "0" (String c rest) =>
      if bool_decide (c = "x"%char) || bool_decide (c = "X"%char)
      then NonDecimalIntegerLiteral 16 rest
      else if bool_decide (c = "o"%char) || bool_decide (c = "O"%char)
      then NonDecimalIntegerLiteral 8 rest
      else if bool_decide (c = "b"%char) || bool_decide (c = "B"%char)
      then NonDecimalIntegerLiteral 2 rest
      else StrDecimalLiteral text
  | _ => StrDecimalLiteral text
  end.

End JSNumber.

(** ** Values *)

#[warnings="-register-all"]
Inductive Value : Type :=
| VUndefined
| VNull
| VBool (b : bool)
| VNumber (x : JSNumber.t)
| VString (s : string)
| VObject (props : list (string * Value))
| VArray (elements : list (option Value)) (props : list (string * Value)).

(** An array is its elements, a hole being [None], and the properties whose
    key is no array index. *)

Module JSObject.
Import JSString JSNumber.

Definition Props : Type := list (string * Value).

Fixpoint lookup (key : string) (props : Props) : option Value :=
  match props with
  | [] => None
  | (k, v) :: props' => if bool_decide (k = key) then Some v else lookup key props'
  end.

(** [obj[key] = v]: an existing property keeps its place, a new one is added
    last. *)
Fixpoint set (key : string) (v : Value) (props : Props) : Props :=
  match props with
  | [] => [(key, v)]
  | (k, w) :: props' =>
      if bool_decide (k = key) then (k, v) :: props'
      else (k, w) :: set key v props'
  end.

(** The integer a key denotes when the key is an array index: the canonical
    spelling of an integer in [0, 2^32 - 2]. *)
Definition arrayIndex (key : string) : option Z :=
  match parseInt key with
  | Some n =>
      if bool_decide (ToString n = key) && (0 <=? n) && (n <? 2 ^ 32 - 1)
      then Some n else None
  | None => None
  end.

(** OrdinaryOwnPropertyKeys: the array indices in ascending order, then the
    other keys in creation order. *)
Definition OwnPropertyKeys (props : Props) : list string :=
  let keys := props.*1 in
  (ToString <$> merge_sort Z.le (omap arrayIndex keys))
    ++ filter (λ k, arrayIndex k = None) keys.

Definition keys (obj : Value) : list string :=
  match obj with
  | VObject props => OwnPropertyKeys props
  | _ => []
  end.

Definition entries (obj : Value) : list (string * Value) :=
  match obj with
  | VObject props =>
      (λ k, (k, default VUndefined (lookup k props))) <$> OwnPropertyKeys props
  | _ => []
  end.

(** [Object.assign(target, source)] on plain objects. *)
Definition assign (target : Props) (source : Value) : Props :=
  fold_left (λ t kv, set kv.1 kv.2 t) (entries source) target.

(** [obj[k]] for a number [k] holding an integer. *)
Definition get (obj : Value) (k : Z) : Value :=
  match obj with
  | VObject props => default VUndefined (lookup (ToString k) props)
  | _ => VUndefined
  end.

End JSObject.

Module JSArray.
Import JSNumber.

Fixpoint setElement (index : nat) (v : Value) (elements : list (option Value))
  : list (option Value) :=
  match index, elements with
  | O, [] => [Some v]
  | O, _ :: rest => Some v :: rest
  | S i, [] => None :: setElement i v []
  | S i, e :: rest => e :: setElement i v rest
  end.

(** [array[index] = v] for a number [index] holding an integer: an array
    index sets the element, growing the array with holes; any other number
    sets the property named by its spelling. *)
Definition set (index : Z) (v : Value) (array : Value) : Value :=
  match array with
  | VArray elements props =>
      if (0 <=? index) && (index <? 2 ^ 32 - 1)
      then VArray (setElement (Z.to_nat index) v elements) props
      else VArray elements (JSObject.set (ToString index) v props)
  | _ => array
  end.

End JSArray.

(** ** Leaf coercion *)

Import JSString JSNumber.

Definition DQUOTE : string := String "034"%char EmptyString.

(** PRODUCTION: parse leaf values from text content. *)
Definition parseLeafValue (rawText : string) : Value :=
  let value := trim rawText in
  let value :=
    if startsWith value DQUOTE && endsWith value DQUOTE
    then slice value 1 (-1) else value in
  let lowerVal := toLowerCase value in
  if bool_decide (lowerVal = "true") then VBool true
  else if bool_decide (lowerVal = "false") then VBool false
  else if bool_decide (lowerVal = "null") then VNull
  else
    let asNumber := Number value in
    if negb (isNaN asNumber) && negb (bool_decide (value = EmptyString))
    then VNumber asNumber
    else VString value.

(** EMULATOR: parse leaf values based on the (type) label and the raw value;
    [None] is an undefined or null argument. *)
Definition parseEmulatorLeafValue (raw type : option string) : Value :=
  let t := toLowerCase (default EmptyString type) in
  let val := match raw with None => EmptyString | Some r => trim r end in
  if bool_decide (t = "(null)") then VNull
  else if bool_decide (t = "(boolean)") then VBool (bool_decide (val = "true"))
  else if bool_decide (t = "(number)") then VNumber (Number val)
  else if bool_decide (t = "(string)") then
    if startsWith val DQUOTE && endsWith val DQUOTE
    then VString (slice val 1 (-1))
    else VString val
  else VString val.

(** The constant [keys] of [convertMapToArray]: the keys mapped through
    parseInt, those that are NaN filtered out, sorted by [a - b]. *)
Definition sortedKeys (mapObj : Value) : list Z :=
  merge_sort Z.le (omap (λ k, parseInt k) (JSObject.keys mapObj)).

(** EMULATOR: convert a map object (with numeric keys) to an array. *)
Definition convertMapToArray (mapObj : Value) : Value :=
  let keys := sortedKeys mapObj in
  if bool_decide (length keys = 0%nat) then VArray [] []
  else VArray ((λ k, Some (JSObject.get mapObj k)) <$> keys) [].

(** ** The rendered tree *)

Module DOM.

#[warnings="-register-all"]
Inductive Node : Type :=
| Text (data : string)
| Element (localName : string) (classList : list string)
    (attributes : list (string * string)) (childNodes : list Node).

(** The place of a node: the child indices on the way down from the document
    node, which is the root of the tree and is no element. *)
Definition Handle : Type := list nat.

Fixpoint resolve (n : Node) (h : Handle) : option Node :=
  match h with
  | [] => Some n
  | i :: h' =>
      match n with
      | Element _ _ _ kids =>
          match kids !! i with
          | Some k => resolve k h'
          | None => None
          end
      | Text _ => None
      end
  end.

Fixpoint textContent (n : Node) : string :=
  match n with
  | Text data => data
  | Element _ _ _ kids =>
      (fix concat (l : list Node) : string :=
         match l with
         | [] => EmptyString
         | k :: l' => textContent k +:+ concat l'
         end) kids
  end.

Fixpoint height (n : Node) : nat :=
  match n with
  | Text _ => O
  | Element _ _ _ kids => S (max_list (height <$> kids))
  end.

(** The places below the children [l], the first of which is child [i]:
    each child, then the places [below] gives for it. *)
Fixpoint childPlaces (below : Node → list Handle) (i : nat) (l : list Node)
  : list Handle :=
  match l with
  | [] => []
  | k :: l' => ([i] :: (cons i <$> below k)) ++ childPlaces below (S i) l'
  end.

(** The places of the proper descendants of a node, relative to it, in
    document order. *)
Fixpoint descendants (n : Node) : list Handle :=
  match n with
  | Text _ => []
  | Element _ _ _ kids => childPlaces descendants O kids
  end.

Definition parent (h : Handle) : Handle := removelast h.

(** The proper ancestors of a place, the document node included. *)
Fixpoint ancestors (h : Handle) : list Handle :=
  match h with
  | [] => []
  | i :: h' => [] :: (cons i <$> ancestors h')
  end.

(** *** Selectors: compounds of a type and classes, joined by the descendant
    and child combinators. *)

Record Compound : Type := {
  isScope : bool;
  typeName : option string;
  classNames : list string
}.

Inductive Combinator : Type := Descendant | Child.

(** A complex selector: its rightmost compound, then the compounds to its
    left, nearest first, each with the combinator on its right. *)
Record Selector : Type := {
  subject : Compound;
  context : list (Combinator * Compound)
}.

(** Reads one compound: [:scope], or an optional type followed by classes. *)
Definition compound (token : string) : Compound :=
  if bool_decide (token = ":scope")
  then {| isScope := true; typeName := None; classNames := [] |}
  else match JSString.split "." token with
       | type :: classes =>
           {| isScope := false;
              typeName := if bool_decide (type = EmptyString) then None else Some type;
              classNames := classes |}
       | [] => {| isScope := false; typeName := None; classNames := [] |}
       end.

Fixpoint complex (tokens : list string) (pending : Combinator)
  (ctx : list (Combinator * Compound)) : list (Combinator * Compound) :=
  match tokens with
  | [] => ctx
  | token :: tokens' =>
      if bool_decide (token = ">") then complex tokens' Child ctx
      else complex tokens' Descendant ((pending, compound token) :: ctx)
  end.

(** The compounds to the left of the subject, each with the combinator on its
    right; [complex] pairs a compound with the combinator on its left. *)
Fixpoint leftward (comb : Combinator) (l : list (Combinator * Compound))
  : list (Combinator * Compound) :=
  match l with
  | [] => []
  | (comb', c) :: l' => (comb, c) :: leftward comb' l'
  end.

(** Reads a selector written with single spaces between its tokens. *)
Definition selector (text : string) : Selector :=
  match complex (JSString.split " " text) Descendant [] with
  | (comb, c) :: ctx => {| subject := c; context := leftward comb ctx |}
  | [] => {| subject := compound EmptyString; context := [] |}
  end.

Section Queries.
Variable doc : Node.

Definition matchesCompound (scope : Handle) (c : Compound) (h : Handle) : bool :=
  match h, resolve doc h with
  | _ :: _, Some (Element tag classes _ _) =>
      (if isScope c then bool_decide (h = scope) else true)
      && match typeName c with
         | Some type => bool_decide (type = tag)
         | None => true
         end
      && forallb (λ name, bool_decide (name ∈ classes)) (classNames c)
  | _, _ => false
  end.

Fixpoint matchesContext (scope : Handle) (ctx : list (Combinator * Compound))
  (h : Handle) : bool :=
  match ctx with
  | [] => true
  | (Child, c) :: ctx' =>
      matchesCompound scope c (parent h) && matchesContext scope ctx' (parent h)
  | (Descendant, c) :: ctx' =>
      existsb (λ a, matchesCompound scope c a && matchesContext scope ctx' a)
        (ancestors h)
  end.

Definition matches (scope : Handle) (sel : Selector) (h : Handle) : bool :=
  matchesCompound scope (subject sel) h && matchesContext scope (context sel) h.

(** [scope.querySelectorAll(sel)]; the document node is the scope [[]]. *)
Definition querySelectorAll (scope : Handle) (sel : Selector) : list Handle :=
  match resolve doc scope with
  | Some n => filter (λ h, matches scope sel h = true) ((scope ++.) <$> descendants n)
  | None => []
  end.

Definition querySelector (scope : Handle) (sel : Selector) : option Handle :=
  head (querySelectorAll scope sel).

Definition textContentOf (h : Handle) : string :=
  match resolve doc h with
  | Some n => textContent n
  | None => EmptyString
  end.

Definition classListContains (h : Handle) (name : string) : bool :=
  match resolve doc h with
  | Some (Element _ classes _ _) => bool_decide (name ∈ classes)
  | _ => false
  end.

Definition getAttribute (h : Handle) (name : string) : option string :=
  match resolve doc h with
  | Some (Element _ _ attrs _) => snd <$> List.find (λ a, bool_decide (a.1 = name)) attrs
  | _ => None
  end.

Fixpoint firstElement (i : nat) (l : list Node) : option nat :=
  match l with
  | [] => None
  | Element _ _ _ _ :: _ => Some i
  | Text _ :: l' => firstElement (S i) l'
  end.

Definition nextElementSibling (h : Handle) : option Handle :=
  match list.last h, resolve doc (parent h) with
  | Some i, Some (Element _ _ _ kids) =>
      (λ j, parent h ++ [j]) <$> firstElement (S i) (drop (S i) kids)
  | _, _ => None
  end.

(** The height of the subtree at a place; 0 where there is no node. *)
Definition heightAt (h : Handle) : nat :=
  match resolve doc h with
  | Some n => height n
  | None => O
  end.

Definition isElement (h : Handle) : Prop :=
  h ≠ [] ∧ ∃ tag classes attrs kids, resolve doc h = Some (Element tag classes attrs kids).

Definition isElementb (h : Handle) : bool :=
  match h, resolve doc h with
  | _ :: _, Some (Element _ _ _ _) => true
  | _, _ => false
  end.

(** A scope argument is null or an element of the document. *)
Definition validScope (contextRoot : option Handle) : Prop :=
  match contextRoot with
  | Some scope => isElement scope
  | None => True
  end.

(** [h'] is an element properly below the place [h]. *)
Definition below (h h' : Handle) : Prop :=
  ∃ s, s ≠ [] ∧ h' = h ++ s ∧ isElement h'.

End Queries.

End DOM.

(** ** Outcomes: a value is returned, an Error is thrown, or the recursion
    budget of the model ran out. *)

Inductive Outcome (A : Type) : Type :=
| Return (a : A)
| Throw (message : string)
| OutOfFuel.
Arguments Return {A} a.
Arguments Throw {A} message.
Arguments OutOfFuel {A}.

#[global] Instance Outcome_ret : MRet Outcome := @Return.
#[global] Instance Outcome_bind : MBind Outcome := λ A B f m,
  match m with
  | Return a => f a
  | Throw message => Throw message
  | OutOfFuel => OutOfFuel
  end.

(** [list.forEach] with a callback that updates [acc]. *)
Fixpoint forEach {A B : Type} (f : A → B → Outcome A) (l : list B) (acc : A)
  : Outcome A :=
  match l with
  | [] => Return acc
  | x :: l' => acc' ← f acc x; forEach f l' acc'
  end.

(** ** The tree walkers *)

Import DOM.

Module Sel.
Definition database_key := Eval vm_compute in selector ".database-key".
Definition database_type :=
  Eval vm_compute in selector ".database-buttons .database-type".
Definition scope_database_children :=
  Eval vm_compute in selector ":scope > .database-children".
Definition database_leaf_value := Eval vm_compute in selector ".database-leaf-value".
Definition scope_data_tree := Eval vm_compute in selector ":scope > f7e-data-tree".
Definition scope_database_node := Eval vm_compute in selector ":scope > .database-node".
Definition scope_li_FieldPreview := Eval vm_compute in selector ":scope > li.FieldPreview".
Definition FieldPreview_key := Eval vm_compute in selector ".FieldPreview-key".
Definition FieldPreview_type := Eval vm_compute in selector ".FieldPreview-type".
Definition FieldPreview_summary := Eval vm_compute in selector ".FieldPreview-summary".
Definition Firestore_Field_List := Eval vm_compute in selector ".Firestore-Field-List".
Definition panels_container := Eval vm_compute in selector ".panels-container".
Definition panel_container := Eval vm_compute in selector ".panel-container".
Definition panel_header_label :=
  Eval vm_compute in selector ":scope f7e-panel-header .label".
Definition fs_animate_change_classes :=
  Eval vm_compute in selector "fs-animate-change-classes".
Definition database_children := Eval vm_compute in selector ".database-children".
End Sel.

Definition emptyObject : Value := VObject [].
Definition emptyArray : Value := VArray [] [].

Section Production.
Variable doc : Node.
(** The recursive call of [parseNode]. *)
Variable parseNode : Handle → Outcome Value.

(** PRODUCTION: parse a Map container. *)
Definition parseMapWith (databaseChildren : option Handle) : Outcome Value :=
  match databaseChildren with
  | None => Return emptyObject
  | Some databaseChildren =>
      let dataTrees := querySelectorAll doc databaseChildren Sel.scope_data_tree in
      mapResult ←
        forEach (λ mapResult dataTree,
          let nodeElements := querySelectorAll doc dataTree Sel.scope_database_node in
          forEach (λ mapResult nodeElement,
            parsedObj ← parseNode nodeElement;
            Return (JSObject.assign mapResult parsedObj))
            nodeElements mapResult)
          dataTrees [];
      Return (VObject mapResult)
  end.

(** The loop over [Object.entries(parsedObj)] in [parseArray]. *)
Definition assignEntries (resultArray : Value) (parsedObj : Value) : Value :=
  fold_left (λ resultArray entry,
    match parseInt entry.1 with
    | Some index => JSArray.set index entry.2 resultArray
    | None => resultArray
    end) (JSObject.entries parsedObj) resultArray.

(** PRODUCTION: parse an Array container. *)
Definition parseArrayWith (databaseChildren : option Handle) : Outcome Value :=
  match databaseChildren with
  | None => Return emptyArray
  | Some databaseChildren =>
      let dataTrees := querySelectorAll doc databaseChildren Sel.scope_data_tree in
      forEach (λ resultArray dataTree,
        let nodeElements := querySelectorAll doc dataTree Sel.scope_database_node in
        forEach (λ resultArray nodeElement,
          parsedObj ← parseNode nodeElement;
          Return (assignEntries resultArray parsedObj))
          nodeElements resultArray)
        dataTrees emptyArray
  end.

(** The type label of a production node or field. *)
Definition typeTextOf (element : Handle) : string :=
  match querySelector doc element Sel.database_type with
  | Some typeDiv => trim (textContentOf doc typeDiv)
  | None => "(unknown)"
  end.

(** The leaf branch shared by [parseNode] and the field loop. *)
Definition leafValueOf (element : Handle) : Value :=
  match querySelector doc element Sel.database_leaf_value with
  | Some leafSpan => parseLeafValue (textContentOf doc leafSpan)
  | None => VNull
  end.

(** PRODUCTION: parse a single node; the body of [parseNode]. *)
Definition parseNodeBody (nodeElement : Handle) : Outcome Value :=
  match querySelector doc nodeElement Sel.database_key with
  | None => Return emptyObject
  | Some keySpan =>
      let fieldKey := trim (textContentOf doc keySpan) in
      let typeText := typeTextOf nodeElement in
      value ←
        (if bool_decide (typeText = "(map)") then
           parseMapWith (querySelector doc nodeElement Sel.scope_database_children)
         else if bool_decide (typeText = "(array)") then
           parseArrayWith (querySelector doc nodeElement Sel.scope_database_children)
         else Return (leafValueOf nodeElement));
      Return (VObject [(fieldKey, value)])
  end.

(** The callback of [animateElements.forEach] in [getFirestoreJSON]. *)
Definition productionField (dataObject : JSObject.Props) (element : Handle)
  : Outcome JSObject.Props :=
  match querySelector doc element Sel.database_key with
  | None => Return dataObject
  | Some keySpan =>
      let fieldKey := trim (textContentOf doc keySpan) in
      let typeText := typeTextOf element in
      value ←
        (if bool_decide (typeText = "(map)") then
           parseMapWith (querySelector doc element Sel.database_children)
         else if bool_decide (typeText = "(array)") then
           parseArrayWith (querySelector doc element Sel.database_children)
         else Return (leafValueOf element));
      Return (JSObject.set fieldKey value dataObject)
  end.

End Production.

(** [parseNode] with a budget for the depth of its recursion. *)
Fixpoint parseNode (fuel : nat) (doc : Node) (nodeElement : Handle)
  : Outcome Value :=
  match fuel with
  | O => OutOfFuel
  | S fuel' => parseNodeBody doc (parseNode fuel' doc) nodeElement
  end.

Definition parseMap (fuel : nat) (doc : Node) (databaseChildren : option Handle)
  : Outcome Value :=
  parseMapWith doc (parseNode fuel doc) databaseChildren.

Definition parseArray (fuel : nat) (doc : Node) (databaseChildren : option Handle)
  : Outcome Value :=
  parseArrayWith doc (parseNode fuel doc) databaseChildren.

Section Emulator.
Variable doc : Node.
(** The recursive call of [parseEmulatorContainer]. *)
Variable parseEmulatorContainer : option Handle → Outcome Value.

(** The key and the value that one item of a container declares; [None] when
    the item has no key element. *)
Definition emulatorField (item : Handle) : Outcome (option (string * Value)) :=
  match querySelector doc item Sel.FieldPreview_key with
  | None => Return None
  | Some keyElem =>
      let key := trim (textContentOf doc keyElem) in
      let type :=
        match querySelector doc item Sel.FieldPreview_type with
        | Some typeElem => trim (textContentOf doc typeElem)
        | None => EmptyString
        end in
      let isArray := bool_decide (type = "(array)") in
      val ←
        (if bool_decide (type = "(map)") || isArray then
           match nextElementSibling doc item with
           | Some nextSibling =>
               if classListContains doc nextSibling "FieldPreview-children" then
                 children ← parseEmulatorContainer (Some nextSibling);
                 Return (if isArray then convertMapToArray children else children)
               else Return (if isArray then emptyArray else emptyObject)
           | None => Return (if isArray then emptyArray else emptyObject)
           end
         else
           let raw :=
             match querySelector doc item Sel.FieldPreview_summary with
             | Some summaryElem =>
                 match getAttribute doc summaryElem "title" with
                 | Some title => title
                 | None => textContentOf doc summaryElem
                 end
             | None => EmptyString
             end in
           Return (parseEmulatorLeafValue (Some raw) (Some type)));
      Return (Some (key, val))
  end.

(** The callback of [items.forEach]: [data[key] = val], or nothing. *)
Definition emulatorItem (data : JSObject.Props) (item : Handle)
  : Outcome JSObject.Props :=
  field ← emulatorField item;
  Return match field with
         | Some (key, val) => JSObject.set key val data
         | None => data
         end.

(** EMULATOR: the body of [parseEmulatorContainer]. *)
Definition parseEmulatorContainerBody (container : option Handle) : Outcome Value :=
  match container with
  | None => Return emptyObject
  | Some container =>
      let items := querySelectorAll doc container Sel.scope_li_FieldPreview in
      data ← forEach emulatorItem items [];
      Return (VObject data)
  end.

End Emulator.

(** [parseEmulatorContainer] with a budget for the depth of its recursion. *)
Fixpoint parseEmulatorContainer (fuel : nat) (doc : Node)
  (container : option Handle) : Outcome Value :=
  match fuel with
  | O => OutOfFuel
  | S fuel' =>
      parseEmulatorContainerBody doc (parseEmulatorContainer fuel' doc) container
  end.

(** ** Core logic *)

(** The object [getFirestoreJSON] returns.  Its jsonString, the rendering of
    [data] by JSON.stringify, is [jsonString] below. *)
Record FirestoreJSON : Type := {
  status : string;
  docId : string;
  data : Value
}.

(** Step 1 of [getFirestoreJSON]: the emulator root and the production panel. *)
Definition determineRoot (doc : Node) (contextRoot : option Handle)
  : option Handle * option Handle :=
  match contextRoot with
  | Some contextRoot =>
      if classListContains doc contextRoot "Firestore-Field-List"
      then (Some contextRoot, None)
      else if classListContains doc contextRoot "panel-container"
      then (None, Some contextRoot)
      else match querySelector doc contextRoot Sel.Firestore_Field_List with
           | Some found => (Some found, None)
           | None => (None, Some contextRoot)
           end
  | None =>
      match querySelector doc [] Sel.Firestore_Field_List with
      | Some foundEmulator => (Some foundEmulator, None)
      | None =>
          match querySelector doc [] Sel.panels_container with
          | Some panelsContainer =>
              let panelContainers :=
                querySelectorAll doc panelsContainer Sel.panel_container in
              (None, list.last panelContainers)
          | None => (None, None)
          end
      end
  end.

Definition NO_DATA : string := "No Firestore data found (Production or Emulator).".

(** The body of [getFirestoreJSON(contextRoot)] in the document [doc] shown at
    the location [pathname], with a budget for the walkers. *)
Definition getFirestoreJSONWith (fuel : nat) (doc : Node) (pathname : string)
  (contextRoot : option Handle) : Outcome FirestoreJSON :=
  match determineRoot doc contextRoot with
  | (Some emulatorRoot, _) =>
      data ← parseEmulatorContainer fuel doc (Some emulatorRoot);
      let parts := split "/" pathname in
      (* parts[parts.length - 1] when parts.length > 0 *)
      let docId := default "unknown_doc" (list.last parts) in
      let finalJson := VObject [(docId, data)] in
      Return {| status := "ok"; docId := docId; data := finalJson |}
  | (None, Some productionPanel) =>
      let docId :=
        match querySelector doc productionPanel Sel.panel_header_label with
        | Some docIdElement => trim (textContentOf doc docIdElement)
        | None => "UNKNOWN_DOCUMENT_ID"
        end in
      let animateElements :=
        querySelectorAll doc productionPanel Sel.fs_animate_change_classes in
      dataObject ←
        forEach (productionField doc (parseNode fuel doc)) animateElements [];
      let finalJson := VObject [(docId, VObject dataObject)] in
      Return {| status := "ok"; docId := docId; data := finalJson |}
  | (None, None) => Throw NO_DATA
  end.

(** [getFirestoreJSON(contextRoot)]: the budget is above the height of the
    document, which no recursion of the walkers exceeds. *)
Definition getFirestoreJSON (doc : Node) (pathname : string)
  (contextRoot : option Handle) : Outcome FirestoreJSON :=
  getFirestoreJSONWith (S (height doc)) doc pathname contextRoot.

(** ** JSON.stringify

    The text that [getFirestoreJSON] returns as jsonString.  The rendering of
    a finite number, Number::toString, depends on the rounding of the decimal
    to a double, which is not modelled: it is a parameter of the section. *)

Module JSON.
Import JSString.

Definition BACKSLASH : string := String "092"%char EmptyString.
Definition LF : string := String "010"%char EmptyString.

(** A hexadecimal digit, in lower case. *)
Definition hexDigit (d : Z) : ascii :=
  ascii_of_N (Z.to_N (if d <? 10 then 48 + d else 87 + d)).

(** UnicodeEscape: the code unit as four hexadecimal digits. *)
Definition UnicodeEscape (n : Z) : string :=
  BACKSLASH +:+ "u"
  +:+ String (hexDigit (n / 4096 mod 16))
        (String (hexDigit (n / 256 mod 16))
           (String (hexDigit (n / 16 mod 16))
              (String (hexDigit (n mod 16)) EmptyString))).

(** One code unit inside a JSON string literal. *)
Definition escapeUnit (c : ascii) : string :=
  let n := codeUnit c in
  if n =? 8 then BACKSLASH +:+ "b"
  else if n =? 9 then BACKSLASH +:+ "t"
  else if n =? 10 then BACKSLASH +:+ "n"
  else if n =? 12 then BACKSLASH +:+ "f"
  else if n =? 13 then BACKSLASH +:+ "r"
  else if n =? 34 then BACKSLASH +:+ DQUOTE
  else if n =? 92 then BACKSLASH +:+ BACKSLASH
  else if n <? 32 then UnicodeEscape n
  else String c EmptyString.

Fixpoint escape (s : string) : string :=
  match s with
  | String c s' => escapeUnit c +:+ escape s'
  | EmptyString => EmptyString
  end.

Definition QuoteJSONString (value : string) : string :=
  DQUOTE +:+ escape value +:+ DQUOTE.

Fixpoint join (separator : string) (partial : list string) : string :=
  match partial with
  | [] => EmptyString
  | [member] => member
  | member :: rest => member +:+ separator +:+ join separator rest
  end.

(** The last step of SerializeJSONObject and SerializeJSONArray: the members
    between the brackets, one on a line when there is a gap. *)
Definition bracket (opening closing gap stepback : string) (partial : list string)
  : string :=
  match partial with
  | [] => opening +:+ closing
  | _ :: _ =>
      if bool_decide (gap = EmptyString)
      then opening +:+ join "," partial +:+ closing
      else
        let indent := stepback +:+ gap in
        opening +:+ LF +:+ indent
        +:+ join ("," +:+ LF +:+ indent) partial
        +:+ LF +:+ stepback +:+ closing
  end.

(** The member of an object for the key [P], when its value has a text. *)
Definition member (gap : string) (serialized : list (string * option string))
  (P : string) : option string :=
  match List.find (λ kv, bool_decide (kv.1 = P)) serialized with
  | Some (_, Some strP) =>
      Some (QuoteJSONString P +:+ ":"
            +:+ (if bool_decide (gap = EmptyString) then EmptyString else " ")
            +:+ strP)
  | _ => None
  end.

Section Stringify.
Variable numberToString : JSNumber.t → string.
Variable gap : string.

(** SerializeJSONProperty on the value of the property; [None] is undefined.
    [stepback] is the indentation of the holder.  The own properties of an
    object are serialized, then taken in the order of its own keys. *)
Fixpoint SerializeJSONProperty (stepback : string) (value : Value) : option string :=
  match value with
  | VUndefined => None
  | VNull => Some "null"
  | VBool true => Some "true"
  | VBool false => Some "false"
  | VString s => Some (QuoteJSONString s)
  | VNumber (JSNumber.Finite negative mantissa exponent) =>
      Some (numberToString (JSNumber.Finite negative mantissa exponent))
  | VNumber _ => Some "null"
  | VObject props =>
      let serialized :=
        (λ kv, (kv.1, SerializeJSONProperty (stepback +:+ gap) kv.2)) <$> props in
      Some (bracket "{" "}" gap stepback
              (omap (member gap serialized) (JSObject.OwnPropertyKeys props)))
  | VArray elements _ =>
      let partial :=
        (λ e, default "null"
                (match e with
                 | Some v => SerializeJSONProperty (stepback +:+ gap) v
                 | None => None
                 end)) <$> elements in
      Some (bracket "[" "]" gap stepback partial)
  end.

End Stringify.

(** [JSON.stringify(value, null, space)] for a number [space] holding an
    integer: the gap is that many spaces, ten at most. *)
Definition stringify (numberToString : JSNumber.t → string) (value : Value)
  (space : Z) : option string :=
  let gap := string_of_list_ascii (replicate (Z.to_nat (Z.min 10 space)) " "%char) in
  SerializeJSONProperty numberToString gap EmptyString value.

End JSON.

(** The jsonString of the object that [getFirestoreJSON] returns:
    [JSON.stringify(finalJson, null, 2)], where finalJson is its data. *)
Definition jsonString (numberToString : JSNumber.t → string) (r : FirestoreJSON)
  : option string :=
  JSON.stringify numberToString (data r) 2.

(** ** The copy button

    The click listener that [createCopyButton] installs, as transitions of
    the button between the events it reacts to: a click, the settling of a
    clipboard write that a click started, and the timeout that a completed
    write set.  The timeouts all wait 2000 ms, so they fire oldest first. *)

Module CopyButton.

Record Button : Type := {
  innerText : string;
  color : string;
  borderColor : string
}.

Record State : Type := {
  button : Button;
  (** the arguments of the calls of navigator.clipboard.writeText, in order *)
  copied : list (option string);
  (** the writes that have not settled: listeners suspended at the await *)
  pending : nat;
  (** the originalText of each timeout that has not fired, oldest first *)
  timers : list string;
  (** the calls of console.error *)
  errors : nat
}.

Inductive Event : Type :=
| Click (result : option (option string))
| Fulfilled
| Rejected
| Timeout.

(** The button as [createCopyButton] returns it. *)
Definition created : State :=
  {| button := {| innerText := "Copy JSON"; color := "#ffa500";
                  borderColor := "#ffa500" |};
     copied := []; pending := 0; timers := []; errors := 0 |}.

(** The catch block. *)
Definition failed (s : State) : State :=
  {| button := {| innerText := "Error"; color := "#d93025";
                  borderColor := "#d93025" |};
     copied := copied s; pending := pending s; timers := timers s;
     errors := S (errors s) |}.

(** The listener up to its await: [onClick()] threw, which the catch block
    handles, or returned an object whose jsonString is passed to writeText. *)
Definition click (result : option (option string)) (s : State) : State :=
  match result with
  | Some jsonString =>
      {| button := button s; copied := copied s ++ [jsonString];
         pending := S (pending s); timers := timers s; errors := errors s |}
  | None => failed s
  end.

(** The listener after its await, the write fulfilled. *)
Definition fulfilled (s : State) : State :=
  match pending s with
  | S waiting =>
      let originalText := innerText (button s) in
      {| button := {| innerText := "Copied!"; color := "#188038";
                      borderColor := "#188038" |};
         copied := copied s; pending := waiting;
         timers := timers s ++ [originalText]; errors := errors s |}
  | O => s
  end.

(** The listener after its await, the write rejected. *)
Definition rejected (s : State) : State :=
  match pending s with
  | S waiting =>
      failed {| button := button s; copied := copied s; pending := waiting;
                timers := timers s; errors := errors s |}
  | O => s
  end.

(** The callback of setTimeout. *)
Definition timeout (s : State) : State :=
  match timers s with
  | originalText :: later =>
      {| button := {| innerText := originalText; color := "#ffa500";
                      borderColor := "#ffa500" |};
         copied := copied s; pending := pending s; timers := later;
         errors := errors s |}
  | [] => s
  end.

Definition step (s : State) (e : Event) : State :=
  match e with
  | Click result => click result s
  | Fulfilled => fulfilled s
  | Rejected => rejected s
  | Timeout => timeout s
  end.

Definition run (s : State) (events : list Event) : State := fold_left step events s.

(** The click on the button of a scope: [onClick] is
    [() => getFirestoreJSON(scope)]. *)
Definition clickOn (numberToString : JSNumber.t → string) (doc : Node)
  (pathname : string) (scope : Handle) : Outcome Event :=
  match getFirestoreJSON doc pathname (Some scope) with
  | Return result => Return (Click (Some (jsonString numberToString result)))
  | Throw _ => Return (Click None)
  | OutOfFuel => OutOfFuel
  end.

End CopyButton.

(** ** The message listener *)

Module Listener.

(** The object passed to sendResponse: status ok with the data, or status
    error with the message. *)
Inductive Response : Type :=
| Ok (data : option string)
| Error (message : string).

(** What one call of the listener does: the responses it sends, the errors it
    logs and the value it returns. *)
Record Effects : Type := {
  sent : list Response;
  logged : list string;
  returned : bool
}.

(** [request.action !== name]. *)
Definition differs (action : Value) (name : string) : bool :=
  match action with
  | VString s => negb (bool_decide (s = name))
  | _ => true
  end.

(** The listener of chrome.runtime.onMessage, called with a request whose
    action property is [action]. *)
Definition onMessage (numberToString : JSNumber.t → string) (doc : Node)
  (pathname : string) (action : Value) : Outcome Effects :=
  if differs action "fetchFirestore"
  then Return {| sent := []; logged := []; returned := false |}
  else
    match getFirestoreJSON doc pathname None with
    | Return result =>
        Return {| sent := [Ok (jsonString numberToString result)]; logged := [];
                  returned := true |}
    | Throw message =>
        Return {| sent := [Error message]; logged := [message]; returned := true |}
    | OutOfFuel => OutOfFuel
    end.

End Listener.

(** ** The injection of the copy button

    The functions that put the button into the page, as edits of the tree.
    The places of a static NodeList are taken before the edits, so each edit
    comes with the function that moves the places it shifts.  The style of
    the button and its click listener, which is [CopyButton] above, are not
    part of the tree. *)

Module Edit.

(** [l] with [x] before its element [i]. *)
Definition insertAt {A : Type} (i : nat) (x : A) (l : list A) : list A :=
  take i l ++ x :: drop i l.

(** The tree with [new] as child [i] of the node at [parent]. *)
Fixpoint insertChild (n : Node) (parent : Handle) (i : nat) (new : Node) : Node :=
  match n with
  | Element tag classes attrs kids =>
      match parent with
      | [] => Element tag classes attrs (insertAt i new kids)
      | j :: parent' =>
          Element tag classes attrs
            (alter (λ k, insertChild k parent' i new) j kids)
      end
  | Text _ => n
  end.

(** Where the node at [h] is after [insertChild n parent i new]: the
    children of [parent] from [i] on have moved by one. *)
Fixpoint relocate (parent : Handle) (i : nat) (h : Handle) : Handle :=
  match parent, h with
  | [], j :: rest => (if decide (i ≤ j)%nat then S j else j) :: rest
  | p :: parent', j :: rest =>
      if decide (p = j) then j :: relocate parent' i rest else h
  | _, [] => []
  end.

(** The attributes with [name] set to [value]: in its place when it is
    there, else last. *)
Fixpoint setAttr (name value : string) (attrs : list (string * string))
  : list (string * string) :=
  match attrs with
  | [] => [(name, value)]
  | (a, v) :: attrs' =>
      if bool_decide (a = name) then (a, value) :: attrs'
      else (a, v) :: setAttr name value attrs'
  end.

(** [element.setAttribute(name, value)] for the element at [h]. *)
Fixpoint setAttribute (n : Node) (h : Handle) (name value : string) : Node :=
  match n with
  | Element tag classes attrs kids =>
      match h with
      | [] => Element tag classes (setAttr name value attrs) kids
      | j :: h' =>
          Element tag classes attrs
            (alter (λ k, setAttribute k h' name value) j kids)
      end
  | Text _ => n
  end.

(** [node.parentElement]: the document node is no element. *)
Definition parentElement (h : Handle) : option Handle :=
  match h with
  | [] | [_] => None
  | _ :: _ :: _ => Some (parent h)
  end.

(** The index of a node among the children of its parent. *)
Definition index (h : Handle) : nat := default O (list.last h).

(** [h.contains(b)]: [b] is the node at [h] or a node below it. *)
Definition contains (h b : Handle) : bool := bool_decide (take (length h) b = h).

(** [element.closest(type)] for a type selector: the element or its nearest
    ancestor of that type. *)
Definition closest (doc : Node) (h : Handle) (type : string) : option Handle :=
  List.find (matchesCompound doc [] (compound type)) (h :: reverse (ancestors h)).

(** [s.includes(searchString)]. *)
Fixpoint includes (s searchString : string) : bool :=
  String.prefix searchString s
  || match s with
     | String _ s' => includes s' searchString
     | EmptyString => false
     end.

(** One call of a callback that edits the tree: the tree it leaves and the
    move of the places, or the exception it throws before it edits. *)
Inductive Step : Type :=
| Done (doc : Node) (moved : Handle → Handle)
| Thrown (message : string).

(** [nodes.forEach(callback)] on a static NodeList, the places of which
    [moved] brings up to date: the tree it leaves, and the exception that
    ended it early. *)
Fixpoint forEachNode (callback : Node → Handle → Step) (nodes : list Handle)
  (moved : Handle → Handle) (doc : Node) : Node * option string :=
  match nodes with
  | [] => (doc, None)
  | node :: rest =>
      match callback doc (moved node) with
      | Done doc' moved' => forEachNode callback rest (moved' ∘ moved) doc'
      | Thrown message => (doc, Some message)
      end
  end.

(** [h.after(new)]: [new] becomes the next sibling of the element at [h].  A
    document node takes no second element. *)
Definition after (doc : Node) (h : Handle) (new : Node) : Step :=
  match parentElement h with
  | Some p => Done (insertChild doc p (S (index h)) new) (relocate p (S (index h)))
  | None => Thrown "HierarchyRequestError"
  end.

(** [parent.insertBefore(new, child)] for a child of the element at
    [parent]. *)
Definition insertBefore (doc : Node) (parent : Handle) (new : Node) (child : Handle)
  : Step :=
  Done (insertChild doc parent (index child) new) (relocate parent (index child)).

End Edit.

Import Edit.

Definition COPY_BTN_CLASS : string := "firestore-json-downloader-copy-btn".

(** The element that [createCopyButton] returns. *)
Definition createCopyButton : Node :=
  Element "button" [COPY_BTN_CLASS] [("title", "Copy Document JSON")]
    [Text "Copy JSON"].

Module Tag.
Definition button := Eval vm_compute in selector "button".
Definition span := Eval vm_compute in selector "span".
Definition copy_button :=
  Eval vm_compute in selector ".firestore-json-downloader-copy-btn".
End Tag.

(** [element.dataset.hasJsonBtn]. *)
Definition HAS_JSON_BTN : string := "data-has-json-btn".

(** The button the emulator injection looks for: the first button below the
    parent of the list that reads Add field, or is labelled so, and is not
    in the list. *)
Definition emulatorTarget (doc : Node) (list : Handle) : option Handle :=
  match parentElement list with
  | Some parent =>
      List.find
        (λ b, (includes (textContentOf doc b) "Add field"
               || bool_decide (getAttribute doc b "aria-label" = Some "Add field"))
              && negb (contains list b))
        (querySelectorAll doc parent Tag.button)
  | None => None
  end.

(** The callback of [emulatorLists.forEach]. *)
Definition injectEmulatorList (doc : Node) (list : Handle) : Step :=
  if bool_decide (getAttribute doc list HAS_JSON_BTN = Some "true")
  then Done doc id
  else
    let btn := createCopyButton in
    let inserted :=
      match emulatorTarget doc list with
      | Some targetBtn => after doc targetBtn btn
      | None =>
          match parentElement list with
          | Some parent => insertBefore doc parent btn list
          | None => Thrown "TypeError"
          end
      end in
    match inserted with
    | Done doc' moved =>
        Done (setAttribute doc' (moved list) HAS_JSON_BTN "true") moved
    | Thrown message => Thrown message
    end.

Definition injectEmulatorButton (doc : Node) : Node * option string :=
  let emulatorLists := querySelectorAll doc [] Sel.Firestore_Field_List in
  forEachNode injectEmulatorList emulatorLists id doc.

(** The element the production injection looks for: for the first span of
    the panel that reads Add field and is in an add-data button or a button,
    that button. *)
Definition productionTarget (doc : Node) (panel : Handle) : option Handle :=
  head
    (omap
       (λ span,
          if bool_decide (trim (textContentOf doc span) = "Add field")
          then match closest doc span "f7e-panel-add-data-button" with
               | Some target => Some target
               | None => closest doc span "button"
               end
          else None)
       (querySelectorAll doc panel Tag.span)).

(** The callback of [panelContainers.forEach]. *)
Definition injectProductionPanel (doc : Node) (panel : Handle) : Step :=
  match productionTarget doc panel with
  | Some target =>
      match querySelector doc panel Tag.copy_button with
      | Some _ => Done doc id
      | None =>
          match after doc target createCopyButton with
          | Done doc' moved =>
              Done (setAttribute doc' (moved panel) HAS_JSON_BTN "true") moved
          | Thrown message => Thrown message
          end
      end
  | None => Done doc id
  end.

Definition injectProductionButton (doc : Node) : Node * option string :=
  let panelContainers := querySelectorAll doc [] Sel.panel_container in
  forEachNode injectProductionPanel panelContainers id doc.

(** [injectButton()] on the page shown at the host [host]. *)
Definition injectButton (host : string) (doc : Node) : Node * option string :=
  if bool_decide (host = "localhost") || bool_decide (host = "127.0.0.1")
  then injectEmulatorButton doc
  else if bool_decide (host = "console.firebase.google.com")
  then injectProductionButton doc
  else (doc, None).

(** ** The specification's words

    Definitions that follow the wording of the specification, to be compared
    with the functions above. *)

Module Spec.

Definition isQuote (c : ascii) : bool := bool_decide (c = "034"%char).

(** [Some mid] when the text is [mid] followed by one closing double-quote. *)
Fixpoint beforeClosingQuote (s : string) : option string :=
  match s with
  | EmptyString => None
  | String c EmptyString => if isQuote c then Some EmptyString else None
  | String c s' => String c <$> beforeClosingQuote s'
  end.

(** One layer of surrounding matching double-quotes stripped, if present. *)
Definition unquote (s : string) : string :=
  match s with
  | String c rest => if isQuote c then default s (beforeClosingQuote rest) else s
  | EmptyString => s
  end.

(** As [unquote]; the text that is a single double-quote, which both starts
    and ends with one, becomes empty. *)
Definition unquoteAmended (s : string) : string :=
  if bool_decide (s = DQUOTE) then EmptyString else unquote s.

(** [c] is the lower-case letter [k] or its capital. *)
Definition sameLetter (c k : ascii) : bool :=
  bool_decide (c = k) || (codeUnit c =? codeUnit k - 32).

(** Equality with a lower-case keyword, ignoring letter case. *)
Fixpoint equalsIgnoringCase (s keyword : string) : bool :=
  match s, keyword with
  | EmptyString, EmptyString => true
  | String c s', String k keyword' => sameLetter c k && equalsIgnoringCase s' keyword'
  | _, _ => false
  end.

Definition keywordValue (s : string) : option Value :=
  if equalsIgnoringCase s "true" then Some (VBool true)
  else if equalsIgnoringCase s "false" then Some (VBool false)
  else if equalsIgnoringCase s "null" then Some VNull
  else None.

(** *** Numeric texts

    What a full-string numeric parse accepts, as a grammar of texts: a
    decimal literal with an optional sign (digits with an optional fraction,
    or a fraction alone, then an optional exponent; or Infinity), or an
    unsigned integer literal in base 16, 8 or 2 after its prefix. *)

Definition isDecimalDigit (c : ascii) : bool :=
  (48 <=? codeUnit c) && (codeUnit c <=? 57).
Definition isHexDigit (c : ascii) : bool :=
  isDecimalDigit c
  || ((97 <=? codeUnit c) && (codeUnit c <=? 102))
  || ((65 <=? codeUnit c) && (codeUnit c <=? 70)).
Definition isOctalDigit (c : ascii) : bool :=
  (48 <=? codeUnit c) && (codeUnit c <=? 55).
Definition isBinaryDigit (c : ascii) : bool :=
  (48 <=? codeUnit c) && (codeUnit c <=? 49).

(** One code unit or more, all of one class. *)
Fixpoint allOf (class : ascii → bool) (s : string) : bool :=
  match s with
  | String c s' => class c && allOf class s'
  | EmptyString => true
  end.
Definition someOf (class : ascii → bool) (s : string) : bool :=
  negb (bool_decide (s = EmptyString)) && allOf class s.

Definition startsWithDigit (s : string) : bool :=
  match s with
  | String c _ => isDecimalDigit c
  | EmptyString => false
  end.

(** The text after its leading decimal digits. *)
Fixpoint afterDigits (s : string) : string :=
  match s with
  | String c s' => if isDecimalDigit c then afterDigits s' else s
  | EmptyString => EmptyString
  end.

(** The text after its sign, if it has one. *)
Definition afterSign (s : string) : string :=
  match s with
  | String c s' =>
      if bool_decide (c = "+"%char) || bool_decide (c = "-"%char) then s' else s
  | EmptyString => EmptyString
  end.

(** Nothing, or e or E, an optional sign and digits. *)
Definition isExponentOpt (s : string) : bool :=
  match s with
  | String c s' =>
      (bool_decide (c = "e"%char) || bool_decide (c = "E"%char))
      && someOf isDecimalDigit (afterSign s')
  | EmptyString => true
  end.

Definition isUnsignedDecimal (s : string) : bool :=
  bool_decide (s = "Infinity")
  || match afterDigits s with
     | String c fraction =>
         if bool_decide (c = "."%char)
         then (startsWithDigit s || startsWithDigit fraction)
              && isExponentOpt (afterDigits fraction)
         else startsWithDigit s && isExponentOpt (String c fraction)
     | EmptyString => startsWithDigit s
     end.

Definition isNumericLiteral (s : string) : bool :=
  match s with
  | String zero (String c digits) =>
      if bool_decide (zero = "0"%char)
         && (bool_decide (c = "x"%char) || bool_decide (c = "X"%char))
      then someOf isHexDigit digits
      else if bool_decide (zero = "0"%char)
              && (bool_decide (c = "o"%char) || bool_decide (c = "O"%char))
      then someOf isOctalDigit digits
      else if bool_decide (zero = "0"%char)
              && (bool_decide (c = "b"%char) || bool_decide (c = "B"%char))
      then someOf isBinaryDigit digits
      else isUnsignedDecimal (afterSign s)
  | _ => isUnsignedDecimal (afterSign s)
  end.

(** The text is numeric: apart from the white space around it, it is a
    numeric literal, or nothing, which a numeric parse reads as 0; the empty
    text is never numeric. *)
Definition isNumeric (s : string) : bool :=
  negb (bool_decide (s = EmptyString))
  && (bool_decide (trim s = EmptyString) || isNumericLiteral (trim s)).

Definition classifyUntyped (s : string) : Value :=
  match keywordValue s with
  | Some v => v
  | None =>
      if isNumeric s && negb (bool_decide (s = EmptyString))
      then VNumber (Number s) else VString s
  end.

(** Untyped coercion as the specification states it. *)
Definition coerceUntypedStated (rawText : string) : Value :=
  classifyUntyped (unquote rawText).

(** Untyped coercion, amended: the text is trimmed first. *)
Definition coerceUntyped (rawText : string) : Value :=
  classifyUntyped (unquoteAmended (trim rawText)).

(** [c] is the code unit [k], or its capital when [k] is a lower-case
    letter. *)
Definition sameUnit (c k : ascii) : bool :=
  bool_decide (c = k)
  || ((97 <=? codeUnit k) && (codeUnit k <=? 122) && (codeUnit c =? codeUnit k - 32)).

(** The label is [name], a name written in lower case, in any letter case. *)
Fixpoint labelIs (label name : string) : bool :=
  match label, name with
  | EmptyString, EmptyString => true
  | String c label', String k name' => sameUnit c k && labelIs label' name'
  | _, _ => false
  end.

(** Typed coercion as the specification states it: the label is taken as
    written, the string case works on the text as given, and a text that is
    not numeric, as the empty text is, gives NaN. *)
Definition coerceTypedStated (text label : string) : Value :=
  if bool_decide (label = "(null)") then VNull
  else if bool_decide (label = "(boolean)") then VBool (bool_decide (trim text = "true"))
  else if bool_decide (label = "(number)") then
    VNumber (if isNumeric (trim text) then Number (trim text) else NaN)
  else if bool_decide (label = "(string)") then VString (unquote text)
  else VString (trim text).

(** Typed coercion, amended: the label is read in any letter case and every
    case works on the trimmed text. *)
Definition coerceTyped (text label : string) : Value :=
  let text := trim text in
  if labelIs label "(null)" then VNull
  else if labelIs label "(boolean)" then VBool (bool_decide (text = "true"))
  else if labelIs label "(number)" then
    VNumber (if isNumeric text then Number text else NaN)
  else if labelIs label "(string)" then VString (unquoteAmended text)
  else VString text.

(** ArrayReconstructor as the specification states it: the keys parseable as
    non-negative integers, sorted; a sequence indexed from 0 to the greatest
    of them, with each entry's value at its index and Null elsewhere. *)
Definition nonNegativeIndex (key : string) : option Z :=
  match parseInt key with
  | Some i => if 0 <=? i then Some i else None
  | None => None
  end.

Definition valueAt (entries : JSObject.Props) (i : Z) : Value :=
  match List.find (λ kv, bool_decide (nonNegativeIndex kv.1 = Some i)) entries with
  | Some kv => kv.2
  | None => VNull
  end.

Definition reconstruct (entries : JSObject.Props) : list Value :=
  let indices := merge_sort Z.le (omap nonNegativeIndex entries.*1) in
  match list.last indices with
  | None => []
  | Some max => valueAt entries <$> seqZ 0 (max + 1)
  end.

(** The value that last-write-wins leaves under [key]: that of the last
    entry, in traversal order, that declares [key]. *)
Definition lastWrite (key : string) (entries : list (string * Value))
  : option Value :=
  snd <$> List.find (λ kv, bool_decide (kv.1 = key)) (reverse entries).

(** The map after one more entry is written into it. *)
Definition write (props : JSObject.Props) (entry : string * Value)
  : JSObject.Props :=
  JSObject.set entry.1 entry.2 props.

(** The last non-empty segment of a location path. *)
Definition lastNonEmptySegment (pathname : string) : option string :=
  list.last (filter (λ segment, segment ≠ EmptyString) (split "/" pathname)).

(** *** The view

    The elements of the view that bear a class, in document order, and the
    places properly inside a scope. *)
Definition elementsOfClass (doc : Node) (name : string) : list Handle :=
  filter (λ h, classListContains doc h name = true) (descendants doc).

Definition inside (scope h : Handle) : bool :=
  bool_decide (length scope < length h)%nat
  && bool_decide (take (length scope) h = scope).

(** No source is found: no scope is supplied and the view holds neither a
    layout-B root nor a layout-A scope. *)
Definition noSource (doc : Node) (contextRoot : option Handle) : Prop :=
  contextRoot = None
  ∧ elementsOfClass doc "Firestore-Field-List" = []
  ∧ elementsOfClass doc "panel-container" = [].

(** The last layout-A scope among all the open scopes of the view. *)
Definition lastOpenPanel (doc : Node) : option Handle :=
  list.last (elementsOfClass doc "panel-container").

(** The last panel inside the first panels container of the view. *)
Definition panelOfFirstContainer (doc : Node) : option Handle :=
  panelsContainer ← head (elementsOfClass doc "panels-container");
  list.last (filter (λ h, inside panelsContainer h = true)
               (elementsOfClass doc "panel-container")).

(** The key that an item of a layout-B container declares: the text of its
    key element, trimmed, when it has one. *)
Definition itemKey (doc : Node) (item : Handle) : option string :=
  (λ keyElem, trim (textContentOf doc keyElem))
    <$> querySelector doc item Sel.FieldPreview_key.

(** The key that a node of a layout-A container, or a field of a panel,
    declares. *)
Definition nodeKey (doc : Node) (node : Handle) : option string :=
  (λ keySpan, trim (textContentOf doc keySpan))
    <$> querySelector doc node Sel.database_key.

(** The nodes of a production container, in traversal order. *)
Definition nodesOf (doc : Node) (databaseChildren : Handle) : list Handle :=
  dataTree ← querySelectorAll doc databaseChildren Sel.scope_data_tree;
  querySelectorAll doc dataTree Sel.scope_database_node.

End Spec.

(** ** Sample trees *)

Module Sample.

Definition A : Value := VString "a".
Definition B : Value := VString "b".

(** A production node that holds a leaf. *)
Definition leafNode (key text : string) : Node :=
  Element "div" ["database-node"] []
    [Element "span" ["database-key"] [] [Text key];
     Element "div" ["database-buttons"] []
       [Element "div" ["database-type"] [] [Text "(string)"]];
     Element "span" ["database-leaf-value"] [] [Text text]].

(** A production children container with one data tree. *)
Definition childrenContainer (nodes : list Node) : Node :=
  Element "div" ["database-children"] [] [Element "f7e-data-tree" [] [] nodes].


(** A map container in which the key k is declared twice. *)
Definition repeatedKey : Node :=
  Element "#document" [] []
    [childrenContainer [leafNode "k" "first"; leafNode "j" "other"; leafNode "k" "second"]].

(** An emulator item with a key, a type label and a summary. *)
Definition item (key type title : string) : Node :=
  Element "li" ["FieldPreview"] []
    [Element "span" ["FieldPreview-key"] [] [Text key];
     Element "span" ["FieldPreview-type"] [] [Text type];
     Element "span" ["FieldPreview-summary"] [("title", title)] [Text "..."]].

(** An emulator view: a field list in which the key k is declared twice. *)
Definition emulatorView : Node :=
  Element "#document" [] []
    [Element "div" [] []
       [Element "ul" ["Firestore-Field-List"] []
          [item "k" "(number)" "1"; item "j" "(boolean)" "true";
           item "k" "(number)" "2"]]].

(** A production view with two open panels. *)
Definition productionView : Node :=
  Element "#document" [] []
    [Element "div" ["panels-container"] []
       [Element "div" ["panel-container"] []
          [Element "f7e-panel-header" [] [] [Element "span" ["label"] [] [Text "users"]]];
        Element "div" ["panel-container"] []
          [Element "f7e-panel-header" [] [] [Element "span" ["label"] [] [Text " alice "]];
           Element "fs-animate-change-classes" [] [] [leafNode "name" "Alice"]]]].

(** A tree with a production container and an emulator container, each
    declaring the key k twice. *)
Definition bothLayouts : Node :=
  Element "#document" [] []
    [childrenContainer [leafNode "k" "first"; leafNode "j" "other"; leafNode "k" "second"];
     Element "ul" ["Firestore-Field-List"] []
       [item "k" "(number)" "1"; item "j" "(boolean)" "true"; item "k" "(number)" "2"]].

(** A view with neither layout. *)
Definition blankView : Node :=
  Element "#document" [] [] [Element "div" ["other"] [] [Text "nothing"]].

End Sample.

(** ** Further sample trees *)

Module Views.

(** An array container whose nodes are keyed 1, 01 and 3. *)
Definition repeatedIndex : Node :=
  Element "#document" [] []
    [Sample.childrenContainer
       [Sample.leafNode "1" "first"; Sample.leafNode "01" "again";
        Sample.leafNode "3" "three"]].

(** A production field: the wrapper around a key, a type label and the
    content, which is the value of a leaf or the children of a map. *)
Definition field (key type : string) (content : list Node) : Node :=
  Element "fs-animate-change-classes" [] []
    (Element "span" ["database-key"] [] [Text key]
     :: Element "div" ["database-buttons"] []
          [Element "div" ["database-type"] [] [Text type]]
     :: content).

(** A panel with the map m, whose node x is wrapped like a field of the
    panel. *)
Definition nestedField : Node :=
  Element "#document" [] []
    [Element "div" ["panel-container"] []
       [field "m" "(map)"
          [Element "div" ["database-children"] []
             [Element "f7e-data-tree" [] []
                [Element "div" ["database-node"] []
                   [field "x" "(number)"
                      [Element "span" ["database-leaf-value"] [] [Text "1"]]]]]]]].

(** A panel whose field k has a type label outside any buttons element. *)
Definition bareType : Node :=
  Element "div" ["panel-container"] []
    [Element "fs-animate-change-classes" [] []
       [Element "span" ["database-key"] [] [Text "k"];
        Element "div" ["database-type"] [] [Text "(map)"];
        Element "span" ["database-leaf-value"] [] [Text "v"]]].

(** The panel alone, and the panel inside a buttons element. *)
Definition panelAlone : Node := Element "#document" [] [] [bareType].
Definition panelInButtons : Node :=
  Element "#document" [] [] [Element "div" ["database-buttons"] [] [bareType]].

(** An emulator view with the array tags, whose children are keyed 1 and 0. *)
Definition emulatorArray : Node :=
  Element "#document" [] []
    [Element "ul" ["Firestore-Field-List"] []
       [Sample.item "tags" "(array)" "[...]";
        Element "ul" ["FieldPreview-children"] []
          [Sample.item "1" "(string)" (DQUOTE +:+ "b" +:+ DQUOTE);
           Sample.item "0" "(string)" (DQUOTE +:+ "a" +:+ DQUOTE)]]].

(** An emulator page: a header with the Add field button, then the field
    list. *)
Definition emulatorPage : Node :=
  Element "#document" [] []
    [Element "div" ["Firestore-Document"] []
       [Element "div" ["header"] []
          [Element "button" [] [] [Element "span" [] [] [Text "Add field"]]];
        Element "ul" ["Firestore-Field-List"] []
          [Sample.item "k" "(number)" "1"; Sample.item "j" "(boolean)" "true"]]].

(** A production page: a panel with the Add field button and one field. *)
Definition productionPage : Node :=
  Element "#document" [] []
    [Element "div" ["panels-container"] []
       [Element "div" ["panel-container"] []
          [Element "f7e-panel-header" [] [] [Element "span" ["label"] [] [Text "alice"]];
           Element "f7e-panel-add-data-button" [] []
             [Element "button" [] [] [Element "span" [] [] [Text " Add field "]]];
           field "name" "(string)"
             [Element "span" ["database-leaf-value"] [] [Text "Alice"]]]]].

(** A production page whose panel is itself the button around Add field. *)
Definition panelIsButton : Node :=
  Element "#document" [] []
    [Element "div" ["panels-container"] []
       [Element "button" ["panel-container"] []
          [Element "span" [] [] [Text "Add field"]]]].

(** A panel, with a header label and a field. *)
Definition panel (label key text : string) : Node :=
  Element "div" ["panel-container"] []
    [Element "f7e-panel-header" [] [] [Element "span" ["label"] [] [Text label]];
     Element "fs-animate-change-classes" [] [] [Sample.leafNode key text]].

(** A view whose panel is in no panels container. *)
Definition loosePanel : Node :=
  Element "#document" [] [] [Element "div" ["content"] [] [panel "alice" "name" "Alice"]].

(** A view with two panels containers, a panel in each. *)
Definition twoContainers : Node :=
  Element "#document" [] []
    [Element "div" ["panels-container"] [] [panel "first" "k" "1"];
     Element "div" ["panels-container"] [] [panel "second" "k" "2"]].

End Views.

(** * Properties *)

(** ** Strings *)

Section StringFacts.
Import Spec.

Lemma append_String (c : ascii) (s t : string) :
  String c s +:+ t = String c (s +:+ t).
Proof. reflexivity. Qed.

Lemma append_empty (t : string) : EmptyString +:+ t = t.
Proof. reflexivity. Qed.

Lemma append_assoc (s t u : string) : (s +:+ t) +:+ u = s +:+ (t +:+ u).
Proof.
  induction s as [|c s IH]; [done|]. rewrite !append_String. by rewrite IH.
Qed.

Lemma rev_app_append (s1 s2 : string) :
  String.rev_app s1 s2 = String.rev s1 +:+ s2.
Proof.
  unfold String.rev. revert s2.
  induction s1 as [|c s1 IH]; intros s2; simpl; [done|].
  rewrite (IH (String c s2)), (IH (String c EmptyString)).
  by rewrite append_assoc.
Qed.

Lemma rev_String (c : ascii) (s : string) :
  String.rev (String c s) = String.rev s +:+ String c EmptyString.
Proof. unfold String.rev at 1. simpl. apply rev_app_append. Qed.

Lemma prefix_String (a b : ascii) (s1 s2 : string) :
  String.prefix (String a s1) (String b s2)
  = if ascii_dec a b then String.prefix s1 s2 else false.
Proof. reflexivity. Qed.

Lemma prefix_empty (s : string) : String.prefix EmptyString s = true.
Proof. by destruct s. Qed.

Lemma startsWith_quote (s : string) :
  startsWith s DQUOTE =
  match s with String c _ => isQuote c | EmptyString => false end.
Proof.
  unfold startsWith, DQUOTE, isQuote. destruct s as [|c s]; [done|].
  rewrite prefix_String, prefix_empty.
  destruct (ascii_dec "034" c) as [<-|Hne].
  - by rewrite bool_decide_eq_true_2.
  - by rewrite bool_decide_eq_false_2 by congruence.
Qed.

Lemma prefix_quote_append (s : string) (c : ascii) :
  String.prefix DQUOTE (s +:+ String c EmptyString) =
  match s with String d _ => isQuote d | EmptyString => isQuote c end.
Proof.
  pose proof (startsWith_quote (s +:+ String c EmptyString)) as H.
  unfold startsWith in H. rewrite H. by destruct s.
Qed.

Lemma endsWith_quote (s : string) :
  endsWith s DQUOTE =
  match beforeClosingQuote s with Some _ => true | None => false end.
Proof.
  unfold endsWith. change (String.rev DQUOTE) with DQUOTE.
  induction s as [|c s IH]; [done|].
  rewrite rev_String, prefix_quote_append.
  destruct s as [|d s].
  - simpl. by destruct (isQuote c).
  - change (beforeClosingQuote (String c (String d s)))
      with (String c <$> beforeClosingQuote (String d s)).
    pose proof (startsWith_quote (String.rev (String d s))) as Hs.
    unfold startsWith in Hs. rewrite Hs in IH.
    destruct (String.rev (String d s)) as [|e r] eqn:Hrev.
    + rewrite rev_String in Hrev. by destruct (String.rev s).
    + rewrite IH. by destruct (beforeClosingQuote (String d s)).
Qed.

Lemma beforeClosingQuote_Some (s mid : string) :
  beforeClosingQuote s = Some mid → s = mid +:+ DQUOTE.
Proof.
  revert mid. induction s as [|c s IH]; intros mid; [done|].
  destruct s as [|d s].
  - simpl. unfold isQuote. case_bool_decide; [|done]. intros [= <-]. by subst.
  - change (beforeClosingQuote (String c (String d s)))
      with (String c <$> beforeClosingQuote (String d s)).
    destruct (beforeClosingQuote (String d s)) as [m|]; [|done].
    intros [= <-]. rewrite append_String. f_equal. by apply IH.
Qed.

Lemma substring_prefix (mid rest : string) :
  String.substring 0 (String.length mid) (mid +:+ rest) = mid.
Proof.
  induction mid as [|c mid IH]; simpl.
  - by destruct rest.
  - by rewrite IH.
Qed.

Lemma length_append (s1 s2 : string) :
  String.length (s1 +:+ s2) = (String.length s1 + String.length s2)%nat.
Proof. induction s1; simpl; [done|]. by f_equal. Qed.

(** Between two double-quotes, [slice(1, -1)] is the text inside. *)
Lemma slice_quoted (c : ascii) (mid : string) :
  slice (String c (mid +:+ DQUOTE)) 1 (-1) = mid.
Proof.
  unfold slice. simpl String.length. rewrite length_append. simpl String.length.
  replace (1 <? 0) with false by done. replace (-1 <? 0) with true by done.
  cbv zeta.
  rewrite Z.min_l by lia. rewrite Z.max_l by lia.
  replace (Z.to_nat 1) with 1%nat by done.
  replace (Z.to_nat _) with (String.length mid) by lia.
  simpl. apply substring_prefix.
Qed.

Lemma slice_lone_quote : slice DQUOTE 1 (-1) = EmptyString.
Proof. reflexivity. Qed.

(** The code's quote stripping is [unquoteAmended]. *)
Lemma strip_quotes_unquote (s : string) :
  (if startsWith s DQUOTE && endsWith s DQUOTE then slice s 1 (-1) else s)
  = unquoteAmended s.
Proof.
  unfold unquoteAmended. case_bool_decide as Hlone.
  - by subst.
  - rewrite startsWith_quote, endsWith_quote. unfold unquote.
    destruct s as [|c s]; [done|].
    destruct (isQuote c) eqn:Hq; [|done]. simpl andb.
    destruct s as [|d s].
    + exfalso. apply Hlone. unfold isQuote in Hq.
      apply bool_decide_eq_true_1 in Hq. by subst.
    + change (beforeClosingQuote (String c (String d s)))
        with (String c <$> beforeClosingQuote (String d s)).
      destruct (beforeClosingQuote (String d s)) as [mid|] eqn:Hmid; [|done].
      simpl. apply beforeClosingQuote_Some in Hmid. rewrite Hmid.
      apply slice_quoted.
Qed.

Lemma codeUnit_inj (c d : ascii) : codeUnit c = codeUnit d → c = d.
Proof.
  unfold codeUnit. intros H. apply N2Z.inj in H.
  rewrite <- (ascii_N_embedding c), <- (ascii_N_embedding d). by rewrite H.
Qed.

Lemma codeUnit_bound (c : ascii) : 0 <= codeUnit c < 256.
Proof. unfold codeUnit. pose proof (N_ascii_bounded c). lia. Qed.

Lemma codeUnit_ascii_of_N (n : Z) :
  0 <= n < 256 → codeUnit (ascii_of_N (Z.to_N n)) = n.
Proof. intros H. unfold codeUnit. rewrite N_ascii_embedding by lia. lia. Qed.

(** Lower-casing yields the lower-case letter [k] exactly for [k] and its
    capital. *)
Lemma toLowerUnit_letter (c k : ascii) :
  97 <= codeUnit k <= 122 →
  bool_decide (toLowerUnit c = k) = sameLetter c k.
Proof.
  intros Hk. unfold sameLetter, toLowerUnit.
  pose proof (codeUnit_bound c) as Hc.
  destruct (Z.eqb_spec (codeUnit c) (codeUnit k - 32)) as [Hcap|Hcap].
  - replace ((65 <=? codeUnit c) && (codeUnit c <=? 90)) with true by lia.
    rewrite orb_true_r. simpl. apply bool_decide_eq_true_2, codeUnit_inj.
    rewrite codeUnit_ascii_of_N by lia. lia.
  - rewrite orb_false_r.
    destruct (((65 <=? codeUnit c) && (codeUnit c <=? 90))
              || ((192 <=? codeUnit c) && (codeUnit c <=? 222)
                  && negb (codeUnit c =? 215))) eqn:Hup; [|done].
    assert (codeUnit c <= 90 ∨ 192 <= codeUnit c) as Hrange.
    { destruct (Z.leb_spec (codeUnit c) 90); [by left|].
      destruct (Z.leb_spec 192 (codeUnit c)); [by right|].
      rewrite andb_false_r in Hup. done. }
    assert (codeUnit c <= 222) as Hhigh.
    { destruct (Z.leb_spec (codeUnit c) 222); [done|].
      destruct (Z.leb_spec (codeUnit c) 90); [lia|].
      rewrite !andb_false_r in Hup. done. }
    assert (65 <= codeUnit c) as Hlow.
    { destruct (Z.leb_spec 65 (codeUnit c)); [done|].
      destruct (Z.leb_spec 192 (codeUnit c)); [lia|]. done. }
    rewrite (bool_decide_eq_false_2 (c = k)) by (intros ->; lia).
    apply bool_decide_eq_false_2. intros Heq.
    apply (f_equal codeUnit) in Heq. rewrite codeUnit_ascii_of_N in Heq by lia. lia.
Qed.

Lemma toLowerCase_keyword (s keyword : string) :
  (∀ k, In k (list_ascii_of_string keyword) → 97 <= codeUnit k <= 122) →
  bool_decide (toLowerCase s = keyword) = equalsIgnoringCase s keyword.
Proof.
  revert keyword. induction s as [|c s IH]; intros [|k keyword] Hk; simpl; try done.
  rewrite <- IH by (intros; apply Hk; simpl; auto).
  rewrite <- toLowerUnit_letter by (apply Hk; simpl; auto).
  rewrite <- bool_decide_and. apply bool_decide_ext.
  split; [by intros [= -> ->]|by intros [-> ->]].
Qed.

(** Lower-casing yields a code unit below the letters exactly for that code
    unit. *)
Lemma toLowerUnit_other (c k : ascii) :
  codeUnit k < 65 → bool_decide (toLowerUnit c = k) = bool_decide (c = k).
Proof.
  intros Hk. unfold toLowerUnit. pose proof (codeUnit_bound c) as Hc.
  destruct (((65 <=? codeUnit c) && (codeUnit c <=? 90))
            || ((192 <=? codeUnit c) && (codeUnit c <=? 222)
                && negb (codeUnit c =? 215))) eqn:Hup; [|done].
  assert (65 <= codeUnit c <= 222) as Hrange.
  { destruct (Z.leb_spec 65 (codeUnit c)), (Z.leb_spec (codeUnit c) 90),
      (Z.leb_spec 192 (codeUnit c)), (Z.leb_spec (codeUnit c) 222);
      simpl in Hup; try done; lia. }
  rewrite (bool_decide_eq_false_2 (c = k)) by (intros ->; lia).
  apply bool_decide_eq_false_2. intros Heq. apply (f_equal codeUnit) in Heq.
  rewrite codeUnit_ascii_of_N in Heq by lia. lia.
Qed.

Lemma toLowerCase_label (s name : string) :
  (∀ k, In k (list_ascii_of_string name) →
        97 <= codeUnit k <= 122 ∨ codeUnit k < 65) →
  bool_decide (toLowerCase s = name) = labelIs s name.
Proof.
  revert name. induction s as [|c s IH]; intros [|k name] Hk; simpl; try done.
  rewrite <- IH by (intros; apply Hk; simpl; auto).
  assert (bool_decide (toLowerUnit c = k) = sameUnit c k) as <-.
  { unfold sameUnit. destruct (Hk k) as [Hletter|Hother]; [simpl; auto| |].
    - rewrite toLowerUnit_letter by done. unfold sameLetter.
      by replace ((97 <=? codeUnit k) && (codeUnit k <=? 122)) with true by lia.
    - rewrite toLowerUnit_other by done.
      replace (97 <=? codeUnit k) with false by lia. simpl. by rewrite orb_false_r. }
  rewrite <- bool_decide_and. apply bool_decide_ext.
  split; [by intros [= -> ->]|by intros [-> ->]].
Qed.

End StringFacts.

(** ** Leaf coercion *)

Lemma keyword_letters_true (k : ascii) :
  In k (list_ascii_of_string "true") → 97 <= codeUnit k <= 122.
Proof. simpl. intros [<-|[<-|[<-|[<-|[]]]]]; vm_compute; split; discriminate. Qed.

Lemma keyword_letters_false (k : ascii) :
  In k (list_ascii_of_string "false") → 97 <= codeUnit k <= 122.
Proof. simpl. intros [<-|[<-|[<-|[<-|[<-|[]]]]]]; vm_compute; split; discriminate. Qed.

Lemma label_units (name : string) :
  name = "(null)" ∨ name = "(boolean)" ∨ name = "(number)" ∨ name = "(string)" →
  ∀ k, In k (list_ascii_of_string name) → 97 <= codeUnit k <= 122 ∨ codeUnit k < 65.
Proof.
  intros [-> | [-> | [-> | ->]]] k; simpl; intros Hin;
    repeat (destruct Hin as [<-|Hin]; [vm_compute; intuition discriminate|]);
    done.
Qed.

Lemma keyword_letters_null (k : ascii) :
  In k (list_ascii_of_string "null") → 97 <= codeUnit k <= 122.
Proof. simpl. intros [<-|[<-|[<-|[<-|[]]]]]; vm_compute; split; discriminate. Qed.

(** What the model of Number makes of some texts: the empty and the blank
    text are 0, a text with a non-numeric tail is NaN. *)
Example Number_examples :
  Number "30" = Finite false 30 0
  ∧ Number " 1.50e3 " = Finite false 150 1
  ∧ Number "-0x10" = NaN
  ∧ Number "0x1F" = Finite false 31 0
  ∧ Number "12px" = NaN
  ∧ Number "abc" = NaN
  ∧ Number EmptyString = Finite false 0 0
  ∧ Number "  " = Finite false 0 0.
Proof. repeat split. Qed.


(** ** Numeric texts: the parse and the grammar *)

Section NumericFacts.
Import Spec.

Local Abbreviation accepts x := (negb (isNaN x)).

Lemma digitValue_decimal (c : ascii) :
  is_Some (digitValue 10 c) ↔ isDecimalDigit c = true.
Proof.
  unfold digitValue, isDecimalDigit. pose proof (codeUnit_bound c).
  repeat case_match; rewrite ?is_Some_alt; try done; lia.
Qed.

Lemma digitValue_hex (c : ascii) :
  is_Some (digitValue 16 c) ↔ isHexDigit c = true.
Proof.
  unfold digitValue, isHexDigit, isDecimalDigit. pose proof (codeUnit_bound c).
  repeat case_match; rewrite ?is_Some_alt; try done; lia.
Qed.

Lemma digitValue_octal (c : ascii) :
  is_Some (digitValue 8 c) ↔ isOctalDigit c = true.
Proof.
  unfold digitValue, isOctalDigit. pose proof (codeUnit_bound c).
  repeat case_match; rewrite ?is_Some_alt; try done; lia.
Qed.

Lemma digitValue_binary (c : ascii) :
  is_Some (digitValue 2 c) ↔ isBinaryDigit c = true.
Proof.
  unfold digitValue, isBinaryDigit. pose proof (codeUnit_bound c).
  repeat case_match; rewrite ?is_Some_alt; try done; lia.
Qed.

(** What the digit scan of the parse leaves, in the terms of the grammar. *)
Lemma spanDigits_afterDigits (s : string) (acc : Z) (count : nat) :
  ∃ v k, spanDigits 10 s acc count = (v, (count + k)%nat, afterDigits s)
         ∧ (k = 0%nat ↔ startsWithDigit s = false).
Proof.
  revert acc count. induction s as [|c s IH]; intros acc count.
  - exists acc, 0%nat. split; [by rewrite Nat.add_0_r|done].
  - simpl. pose proof (digitValue_decimal c) as Hc.
    destruct (digitValue 10 c) as [d|].
    + rewrite (proj1 Hc) by by eexists.
      destruct (IH (10 * acc + d) (S count)) as (v & k & -> & _).
      exists v, (S k). split; [f_equal; f_equal; lia|done].
    + destruct (isDecimalDigit c) eqn:Hdigit.
      { by destruct (proj2 Hc eq_refl). }
      exists acc, 0%nat. split; [by rewrite Nat.add_0_r|done].
Qed.

Lemma spanDigits_scan (radix : Z) (class : ascii → bool) (s : string)
  (acc : Z) (count : nat) :
  (∀ c, is_Some (digitValue radix c) ↔ class c = true) →
  ∃ v k tail,
    spanDigits radix s acc count = (v, (count + k)%nat, tail)
    ∧ bool_decide (tail = EmptyString) = allOf class s
    ∧ (k = 0%nat ↔ match s with
                    | String c _ => class c = false
                    | EmptyString => True
                    end).
Proof.
  intros Hclass. revert acc count. induction s as [|c s IH]; intros acc count.
  - exists acc, 0%nat, EmptyString. split; [by rewrite Nat.add_0_r|done].
  - simpl. pose proof (Hclass c) as Hc.
    destruct (digitValue radix c) as [d|].
    + destruct (IH (radix * acc + d) (S count)) as (v & k & tail & -> & Hall & _).
      exists v, (S k), tail. split; [f_equal; f_equal; lia|].
      rewrite (proj1 Hc) by by eexists. by split.
    + exists acc, 0%nat, (String c s). split; [by rewrite Nat.add_0_r|].
      destruct (class c) eqn:Hdigit; [by destruct (proj2 Hc eq_refl)|done].
Qed.

Lemma spanDigits_allOf (radix : Z) (class : ascii → bool) (s : string) :
  (∀ c, is_Some (digitValue radix c) ↔ class c = true) →
  ∃ v k tail,
    spanDigits radix s 0 0 = (v, k, tail)
    ∧ bool_decide (k ≠ 0%nat) && bool_decide (tail = EmptyString) = someOf class s.
Proof.
  intros Hclass.
  destruct (spanDigits_scan radix class s 0 0 Hclass) as (v & k & tail & -> & Hall & Hk).
  exists v, k, tail. split; [done|]. unfold someOf. rewrite Hall.
  destruct s as [|c s]; simpl in *.
  - by rewrite (proj2 Hk I).
  - destruct (class c) eqn:Hc; simpl; [|by rewrite andb_false_r].
    rewrite bool_decide_eq_true_2; [done|]. intros Hzero. by apply Hk in Hzero.
Qed.

Lemma sign_afterSign (s : string) :
  (match s with
   | String "-" rest => (true, rest)
   | String "+" rest => (false, rest)
   | _ => (false, s)
   end).2 = afterSign s.
Proof.
  destruct s as [|c s]; [done|].
  by destruct c as [[] [] [] [] [] [] [] []].
Qed.

Lemma parseExponent_isExponentOpt (s : string) :
  is_Some (parseExponent s) ↔ isExponentOpt s = true.
Proof.
  destruct s as [|c s]; [split; [done|intros _; by eexists]|].
  unfold parseExponent, isExponentOpt.
  destruct (bool_decide (c = "e"%char) || bool_decide (c = "E"%char));
    [|split; [by intros []|done]].
  rewrite <- sign_afterSign.
  destruct (match s with
            | String "-" r => (true, r)
            | String "+" r => (false, r)
            | _ => (false, s)
            end) as [negative rest].
  cbn [snd andb].
  destruct (spanDigits_allOf 10 isDecimalDigit rest digitValue_decimal)
    as (e & count & tail & -> & <-).
  destruct (bool_decide (count ≠ 0%nat) && bool_decide (tail = EmptyString)).
  - split; [done|]. intros _. by eexists.
  - split; [by intros []|done].
Qed.

Lemma dot_cases (s : string) :
  (∃ fraction, s = String "." fraction)
  ∨ ((∀ c fraction, s = String c fraction → c ≠ "."%char)
     ∧ ∀ (A : Type) (f : string → A) (g : A),
         match s with String "." fraction => f fraction | _ => g end = g).
Proof.
  destruct s as [|c s]; [right; by split|].
  destruct (decide (c = "."%char)) as [->|Hc]; [left; by eexists|right].
  split; [by intros ? ? [= <- _]|]. intros A f g.
  by destruct c as [[] [] [] [] [] [] [] []].
Qed.

Lemma StrUnsignedDecimalLiteral_isUnsignedDecimal (negative : bool) (s : string) :
  accepts (StrUnsignedDecimalLiteral negative s) = isUnsignedDecimal s.
Proof.
  unfold StrUnsignedDecimalLiteral, isUnsignedDecimal.
  case_bool_decide as Hinfinity; [done|]. simpl orb.
  destruct (spanDigits_afterDigits s 0 0) as (ip & ni & -> & Hni). simpl Nat.add.
  assert (bool_decide (ni ≠ 0%nat) = startsWithDigit s) as Hint.
  { destruct (startsWithDigit s).
    - apply bool_decide_eq_true_2. rewrite Hni. done.
    - apply bool_decide_eq_false_2. intros Hne. by apply Hne, Hni. }
  destruct (dot_cases (afterDigits s)) as [[fraction ->]|[Hnot ->]].
  - rewrite bool_decide_eq_true_2 by done.
    destruct (spanDigits_afterDigits fraction ip 0) as (m & nf & -> & Hnf).
    simpl Nat.add.
    assert (bool_decide ((ni + nf)%nat ≠ 0%nat)
            = startsWithDigit s || startsWithDigit fraction) as ->.
    { rewrite <- Hint.
      destruct (startsWithDigit fraction).
      - rewrite orb_true_r. apply bool_decide_eq_true_2.
        intros Hzero. assert (nf = 0%nat) as Hz by lia. by apply Hnf in Hz.
      - rewrite orb_false_r, (proj2 Hnf eq_refl), Nat.add_0_r. done. }
    destruct (startsWithDigit s || startsWithDigit fraction); [|done]. simpl.
    pose proof (parseExponent_isExponentOpt (afterDigits fraction)) as Hexp.
    destruct (parseExponent (afterDigits fraction)) as [e|].
    + symmetry. apply Hexp. by eexists.
    + destruct (isExponentOpt (afterDigits fraction)); [|done].
      by destruct (proj2 Hexp eq_refl).
  - rewrite Hint.
    transitivity (startsWithDigit s && isExponentOpt (afterDigits s)).
    2: { destruct (afterDigits s) as [|c fraction] eqn:Hafter;
           [by rewrite andb_true_r|].
         by rewrite bool_decide_eq_false_2 by by eapply Hnot. }
    destruct (startsWithDigit s); [|done]. simpl.
    pose proof (parseExponent_isExponentOpt (afterDigits s)) as Hexp.
    destruct (parseExponent (afterDigits s)) as [e|].
    + symmetry. apply Hexp. by eexists.
    + destruct (isExponentOpt (afterDigits s)); [|done].
      by destruct (proj2 Hexp eq_refl).
Qed.

Lemma StrDecimalLiteral_afterSign (s : string) :
  ∃ negative, StrDecimalLiteral s = StrUnsignedDecimalLiteral negative (afterSign s).
Proof.
  destruct s as [|c s]; [by exists false|].
  destruct c as [[] [] [] [] [] [] [] []];
    first [by exists false|by exists true].
Qed.

Lemma StrDecimalLiteral_isUnsignedDecimal (s : string) :
  accepts (StrDecimalLiteral s) = isUnsignedDecimal (afterSign s).
Proof.
  destruct (StrDecimalLiteral_afterSign s) as [negative ->].
  apply StrUnsignedDecimalLiteral_isUnsignedDecimal.
Qed.

Lemma NonDecimalIntegerLiteral_someOf (radix : Z) (class : ascii → bool)
  (s : string) :
  (∀ c, is_Some (digitValue radix c) ↔ class c = true) →
  accepts (NonDecimalIntegerLiteral radix s) = someOf class s.
Proof.
  intros Hclass. unfold NonDecimalIntegerLiteral.
  destruct (spanDigits_allOf radix class s Hclass) as (v & k & tail & -> & <-).
  by destruct (bool_decide (k ≠ 0%nat) && bool_decide (tail = EmptyString)).
Qed.

Lemma zero_cases (s : string) :
  (∃ c digits, s = String "0" (String c digits))
  ∨ ((∀ z c digits, s = String z (String c digits) → z ≠ "0"%char)
     ∧ ∀ (A : Type) (f : ascii → string → A) (g : A),
         match s with String "0" (String c digits) => f c digits | _ => g end = g).
Proof.
  destruct s as [|z [|c digits]].
  - right. by split.
  - right. split; [done|]. intros A f g.
    by destruct z as [[] [] [] [] [] [] [] []].
  - destruct (decide (z = "0"%char)) as [->|Hz]; [left; by eexists _, _|right].
    split; [by intros ? ? ? [= <- _ _]|]. intros A f g.
    by destruct z as [[] [] [] [] [] [] [] []].
Qed.

(** The numeric parse of a text is a number exactly when the text, apart
    from the white space around it, is a numeric literal or nothing. *)
Lemma Number_isNumericLiteral (s : string) :
  accepts (Number s)
  = bool_decide (trim s = EmptyString) || isNumericLiteral (trim s).
Proof.
  unfold Number. generalize (trim s). clear s. intros text.
  destruct (decide (text = EmptyString)) as [->|Hne]; [done|].
  rewrite (bool_decide_eq_false_2 (text = EmptyString)) by done.
  simpl orb.
  destruct (zero_cases text) as [(c & digits & ->)|[Hnot Hmatch]].
  - unfold isNumericLiteral.
    rewrite (bool_decide_eq_true_2 ("0"%char = "0"%char)) by done.
    simpl andb.
    destruct (bool_decide (c = "x"%char) || bool_decide (c = "X"%char));
      [by apply NonDecimalIntegerLiteral_someOf, digitValue_hex|].
    destruct (bool_decide (c = "o"%char) || bool_decide (c = "O"%char));
      [by apply NonDecimalIntegerLiteral_someOf, digitValue_octal|].
    destruct (bool_decide (c = "b"%char) || bool_decide (c = "B"%char));
      [by apply NonDecimalIntegerLiteral_someOf, digitValue_binary|].
    apply StrDecimalLiteral_isUnsignedDecimal.
  - transitivity (accepts (StrDecimalLiteral text)).
    { f_equal. f_equal. destruct text as [|z [|c digits]]; [done| |].
      - by destruct z as [[] [] [] [] [] [] [] []].
      - pose proof (Hnot z c digits eq_refl) as Hz.
        by destruct z as [[] [] [] [] [] [] [] []]. }
    rewrite StrDecimalLiteral_isUnsignedDecimal. unfold isNumericLiteral.
    destruct text as [|z [|c digits]]; [done|done|].
    by rewrite (bool_decide_eq_false_2 (z = "0"%char)) by by eapply Hnot.
Qed.

(** A text that is not empty is numeric exactly when the numeric parse gives
    a number for it. *)
Lemma isNumeric_Number (s : string) :
  s ≠ EmptyString → isNumeric s = negb (isNaN (Number s)).
Proof.
  intros Hs. unfold isNumeric. rewrite Number_isNumericLiteral.
  by rewrite bool_decide_eq_false_2.
Qed.

Lemma isNumeric_empty : isNumeric EmptyString = false.
Proof. done. Qed.

End NumericFacts.

(** C3, as stated, fails: the code trims the text before anything else, so
    [" true"] is the boolean and not the string; and a text that is one
    double-quote both starts and ends with it, so the code empties it. *)
Lemma parseLeafValue_differs_from_stated :
  parseLeafValue " true" = VBool true
  ∧ Spec.coerceUntypedStated " true" = VString " true"
  ∧ parseLeafValue DQUOTE = VString EmptyString
  ∧ Spec.coerceUntypedStated DQUOTE = VString DQUOTE
  ∧ parseLeafValue " true" ≠ Spec.coerceUntypedStated " true".
Proof. split_and!; [reflexivity..|]. vm_compute. discriminate. Qed.

(** C3, amended: for every raw text, parseLeafValue returns, for the text
    trimmed of surrounding white space and then stripped of its first and last
    code unit when it both starts and ends with a double-quote (a lone
    double-quote becomes empty): the boolean or Null when that text equals
    true, false or null ignoring letter case; otherwise its full-string
    numeric parse when it is numeric and not empty; otherwise the text itself.
    The function is total: it never throws. *)
Theorem parseLeafValue_coerceUntyped (rawText : string) :
  parseLeafValue rawText = Spec.coerceUntyped rawText.
Proof.
  unfold parseLeafValue, Spec.coerceUntyped. cbv zeta.
  rewrite strip_quotes_unquote.
  generalize (Spec.unquoteAmended (trim rawText)). intros s.
  unfold Spec.classifyUntyped, Spec.keywordValue.
  assert (Spec.isNumeric s && negb (bool_decide (s = EmptyString))
          = negb (isNaN (Number s)) && negb (bool_decide (s = EmptyString))) as ->.
  { case_bool_decide as Hs; [by rewrite !andb_false_r|].
    by rewrite isNumeric_Number. }
  rewrite (toLowerCase_keyword s "true" keyword_letters_true).
  rewrite (toLowerCase_keyword s "false" keyword_letters_false).
  rewrite (toLowerCase_keyword s "null" keyword_letters_null).
  destruct (Spec.equalsIgnoringCase s "true"); [done|].
  destruct (Spec.equalsIgnoringCase s "false"); [done|].
  by destruct (Spec.equalsIgnoringCase s "null").
Qed.

(** C4, as stated, fails: the label is lower-cased before it is compared, so
    (NULL) selects Null, and the string case works on the trimmed text, so
    the text is not returned unchanged. *)
Lemma parseEmulatorLeafValue_differs_from_stated :
  parseEmulatorLeafValue (Some "x") (Some "(NULL)") = VNull
  ∧ Spec.coerceTypedStated "x" "(NULL)" = VString "x"
  ∧ parseEmulatorLeafValue (Some " abc ") (Some "(string)") = VString "abc"
  ∧ Spec.coerceTypedStated " abc " "(string)" = VString " abc "
  ∧ parseEmulatorLeafValue (Some " abc ") (Some "(string)")
    ≠ Spec.coerceTypedStated " abc " "(string)".
Proof. split_and!; [reflexivity..|]. vm_compute. discriminate. Qed.

(** C4, amended: for every raw text and type label (an absent one counting
    as empty), with the label read in any letter case and the text trimmed,
    parseEmulatorLeafValue returns Null for (null); for (boolean), true iff
    the trimmed text is true; for (number) and a trimmed text that is not
    empty, the numeric parse of the text when it is numeric and NaN, never a
    number, when it is not; for (string), the trimmed text without its first
    and last code unit when it both starts and ends with a double-quote, else
    the trimmed text; for any other label, the trimmed text.  What (number)
    makes of an empty text is left out. *)
Theorem parseEmulatorLeafValue_coerceTyped (raw type : option string) :
  (Spec.labelIs (default EmptyString type) "(number)" = true →
   trim (default EmptyString raw) ≠ EmptyString) →
  parseEmulatorLeafValue raw type
  = Spec.coerceTyped (default EmptyString raw) (default EmptyString type)
  ∧ (Spec.labelIs (default EmptyString type) "(number)" = true →
     (Spec.isNumeric (trim (default EmptyString raw)) = false
      ↔ parseEmulatorLeafValue raw type = VNumber NaN)).
Proof.
  intros Hnumber.
  assert (match raw with Some r => trim r | None => EmptyString end
          = trim (default EmptyString raw)) as Hval by (by destruct raw).
  assert (parseEmulatorLeafValue raw type
          = Spec.coerceTyped (default EmptyString raw) (default EmptyString type))
    as Heq.
  { unfold parseEmulatorLeafValue, Spec.coerceTyped. cbv zeta. rewrite Hval.
    rewrite !toLowerCase_label by (apply label_units; auto).
    revert Hnumber.
    generalize (trim (default EmptyString raw)). intros val Hnumber.
    destruct (Spec.labelIs (default EmptyString type) "(null)"); [done|].
    destruct (Spec.labelIs (default EmptyString type) "(boolean)"); [done|].
    destruct (Spec.labelIs (default EmptyString type) "(number)").
    - rewrite isNumeric_Number by by apply Hnumber.
      by destruct (Number val).
    - destruct (Spec.labelIs (default EmptyString type) "(string)"); [|done].
      rewrite <- strip_quotes_unquote.
      by destruct (startsWith val DQUOTE && endsWith val DQUOTE). }
  split; [done|]. intros Hlabel. rewrite Heq. unfold Spec.coerceTyped. cbv zeta.
  assert (Spec.labelIs (default EmptyString type) "(null)" = false) as ->.
  { rewrite <- !toLowerCase_label in * by (apply label_units; auto).
    apply bool_decide_eq_true_1 in Hlabel. rewrite Hlabel. done. }
  assert (Spec.labelIs (default EmptyString type) "(boolean)" = false) as ->.
  { rewrite <- !toLowerCase_label in * by (apply label_units; auto).
    apply bool_decide_eq_true_1 in Hlabel. rewrite Hlabel. done. }
  rewrite Hlabel.
  destruct (Spec.isNumeric (trim (default EmptyString raw))) eqn:Hnumeric;
    [|done].
  rewrite isNumeric_Number in Hnumeric by by apply Hnumber.
  split; [done|]. intros [= Hnan]. by rewrite Hnan in Hnumeric.
Qed.

Lemma parseEmulatorLeafValue_coerceTyped_witness :
  parseEmulatorLeafValue (Some " 12px ") (Some "(Number)") = VNumber NaN
  ∧ parseEmulatorLeafValue (Some " 12 ") (Some "(Number)")
    = Spec.coerceTyped " 12 " "(Number)".
Proof.
  split.
  - apply (parseEmulatorLeafValue_coerceTyped (Some " 12px ") (Some "(Number)"));
      [discriminate|reflexivity|reflexivity].
  - apply (parseEmulatorLeafValue_coerceTyped (Some " 12 ") (Some "(Number)")).
    discriminate.
Defined.

(** ** Integers and their spelling *)

Section IntegerFacts.

Local Ltac dlia := Z.div_mod_to_equations; lia.

Lemma digitValue_digitUnit (d : Z) :
  0 <= d < 10 → digitValue 10 (digitUnit d) = Some d.
Proof.
  intros Hd. unfold digitValue, digitUnit.
  rewrite codeUnit_ascii_of_N by lia.
  replace ((48 <=? 48 + d) && (48 + d <=? 57)) with true by lia.
  replace (48 + d - 48 <? 10) with true by lia. f_equal. lia.
Qed.

Lemma digitsOf_head (fuel : nat) (n : Z) (acc : string) :
  0 <= n →
  ∃ d s, 0 <= d < 10 ∧ digitsOf (S fuel) n acc = String (digitUnit d) s.
Proof.
  revert n acc. induction fuel as [|fuel IH]; intros n acc Hn.
  - exists (n mod 10), acc. split; [dlia|]. simpl. by destruct (n / 10 =? 0).
  - change (digitsOf (S (S fuel)) n acc)
      with (let acc' := String (digitUnit (n mod 10)) acc in
            if n / 10 =? 0 then acc' else digitsOf (S fuel) (n / 10) acc').
    cbv zeta. destruct (n / 10 =? 0).
    + exists (n mod 10), acc. split; [dlia|done].
    + apply IH. dlia.
Qed.

(** Reading back the digits of [n] gives [n]. *)
Lemma spanDigits_digitsOf (fuel : nat) (n : Z) (acc : string) :
  0 <= n < 10 ^ Z.of_nat (S fuel) →
  ∃ count, count ≠ 0%nat
    ∧ spanDigits 10 (digitsOf (S fuel) n acc) 0 0 = spanDigits 10 acc n count.
Proof.
  revert n acc. induction fuel as [|fuel IH]; intros n acc Hn.
  - exists 1%nat. split; [done|].
    assert (n / 10 = 0) as Hq by (apply Z.div_small; lia).
    assert (n mod 10 = n) as Hr by (apply Z.mod_small; lia).
    simpl digitsOf. rewrite Hq, Hr. simpl.
    rewrite digitValue_digitUnit by lia. f_equal.
  - change (digitsOf (S (S fuel)) n acc)
      with (let acc' := String (digitUnit (n mod 10)) acc in
            if n / 10 =? 0 then acc' else digitsOf (S fuel) (n / 10) acc').
    cbv zeta. destruct (Z.eqb_spec (n / 10) 0) as [Hq|Hq].
    + exists 1%nat. split; [done|]. simpl.
      rewrite digitValue_digitUnit by dlia. do 2 f_equal. dlia.
    + destruct (IH (n / 10) (String (digitUnit (n mod 10)) acc)) as (count & Hc & Heq).
      { split; [dlia|]. apply Z.div_lt_upper_bound; [lia|].
        replace (Z.of_nat (S (S fuel))) with (Z.succ (Z.of_nat (S fuel))) in Hn by lia.
        rewrite Z.pow_succ_r in Hn by lia. lia. }
      exists (S count). split; [done|]. rewrite Heq. simpl.
      rewrite digitValue_digitUnit by dlia. do 2 f_equal. dlia.
Qed.

Lemma digits_budget (n : Z) : 0 <= n → n < 10 ^ Z.of_nat (S (Z.to_nat (Z.log2 n))).
Proof.
  intros Hn. pose proof (Z.log2_nonneg n) as Hlog.
  rewrite Nat2Z.inj_succ, Z2Nat.id by done.
  destruct (decide (n = 0)) as [->|Hpos].
  - simpl. lia.
  - apply Z.lt_le_trans with (2 ^ Z.succ (Z.log2 n)).
    + apply Z.log2_spec. lia.
    + apply Z.pow_le_mono_l. lia.
Qed.

Lemma parseInt_digits (fuel : nat) (n : Z) :
  0 <= n < 10 ^ Z.of_nat (S fuel) →
  parseInt (digitsOf (S fuel) n EmptyString) = Some n
  ∧ parseInt (String "-" (digitsOf (S fuel) n EmptyString)) = Some (- n).
Proof.
  intros Hn.
  destruct (spanDigits_digitsOf fuel n EmptyString Hn) as (count & Hc & Hspan).
  destruct (digitsOf_head fuel n EmptyString) as (d & s & Hd & Hhead); [lia|].
  unfold parseInt. split.
  - assert (trimStart (digitsOf (S fuel) n EmptyString)
            = digitsOf (S fuel) n EmptyString) as ->.
    { rewrite Hhead.
      assert (d = 0 ∨ d = 1 ∨ d = 2 ∨ d = 3 ∨ d = 4 ∨ d = 5 ∨ d = 6 ∨ d = 7
              ∨ d = 8 ∨ d = 9) as Hcases by lia.
      by repeat destruct Hcases as [->|Hcases]; subst. }
    assert (match digitsOf (S fuel) n EmptyString with
            | String "-" rest => (true, rest)
            | String "+" rest => (false, rest)
            | _ => (false, digitsOf (S fuel) n EmptyString)
            end = (false, digitsOf (S fuel) n EmptyString)) as ->.
    { rewrite Hhead.
      assert (d = 0 ∨ d = 1 ∨ d = 2 ∨ d = 3 ∨ d = 4 ∨ d = 5 ∨ d = 6 ∨ d = 7
              ∨ d = 8 ∨ d = 9) as Hcases by lia.
      by repeat destruct Hcases as [->|Hcases]; subst. }
    rewrite Hspan. simpl. by rewrite bool_decide_eq_false_2.
  - change (trimStart (String "-" (digitsOf (S fuel) n EmptyString)))
      with (String "-" (digitsOf (S fuel) n EmptyString)).
    cbv iota beta. rewrite Hspan. simpl. by rewrite bool_decide_eq_false_2.
Qed.

(** parseInt reads the spelling of an integer back. *)
Lemma parseInt_ToString (n : Z) : parseInt (ToString n) = Some n.
Proof.
  unfold ToString. destruct (Z.ltb_spec n 0) as [Hneg|Hpos].
  - destruct (parseInt_digits (Z.to_nat (Z.log2 (- n))) (- n)) as [_ H].
    { split; [lia|]. apply digits_budget. lia. }
    rewrite H. f_equal. lia.
  - destruct (parseInt_digits (Z.to_nat (Z.log2 n)) n) as [H _]; [|done].
    split; [lia|]. by apply digits_budget.
Qed.

Lemma ToString_inj (m n : Z) : ToString m = ToString n → m = n.
Proof.
  intros H. apply (f_equal parseInt) in H.
  rewrite !parseInt_ToString in H. congruence.
Qed.

End IntegerFacts.

(** ** Objects and array reconstruction *)

Section ObjectFacts.
Import JSObject.

Lemma arrayIndex_Some (key : string) (n : Z) :
  arrayIndex key = Some n → ToString n = key ∧ parseInt key = Some n.
Proof.
  unfold arrayIndex. destruct (parseInt key) as [m|]; [|done].
  destruct (bool_decide (ToString m = key)) eqn:Hcanon; [|done].
  apply bool_decide_eq_true_1 in Hcanon.
  simpl. destruct ((0 <=? m) && (m <? 2 ^ 32 - 1)); [|done]. by intros [= <-].
Qed.

(** The own keys are the keys of the properties, in the order of
    OrdinaryOwnPropertyKeys. *)
Lemma OwnPropertyKeys_Permutation (props : Props) :
  OwnPropertyKeys props ≡ₚ props.*1.
Proof.
  unfold OwnPropertyKeys. rewrite merge_sort_Permutation.
  induction (props.*1) as [|k l IH]; [done|].
  rewrite filter_cons. simpl omap.
  destruct (arrayIndex k) as [n|] eqn:Hk.
  - apply arrayIndex_Some in Hk as [Hcanon _].
    rewrite decide_False by done. rewrite fmap_cons, Hcanon. simpl.
    by rewrite IH.
  - rewrite decide_True by done.
    rewrite <- Permutation_middle. by rewrite IH.
Qed.

Lemma merge_sort_Permutation_eq (l1 l2 : list Z) :
  l1 ≡ₚ l2 → merge_sort Z.le l1 = merge_sort Z.le l2.
Proof.
  intros Hperm. apply (Sorted_unique Z.le).
  - apply Sorted_merge_sort, _.
  - apply Sorted_merge_sort, _.
  - by rewrite !merge_sort_Permutation.
Qed.

Lemma sortedKeys_props (props : Props) :
  sortedKeys (VObject props) = merge_sort Z.le (omap parseInt props.*1).
Proof.
  unfold sortedKeys. simpl. apply merge_sort_Permutation_eq.
  by rewrite OwnPropertyKeys_Permutation.
Qed.

Lemma sortedKeys_Permutation (props : Props) :
  sortedKeys (VObject props) ≡ₚ omap parseInt props.*1.
Proof. rewrite sortedKeys_props. apply merge_sort_Permutation. Qed.

(** One element per key that parseInt accepts, in ascending order of the
    integers, each the value under the spelling of its integer. *)
Lemma convertMapToArray_elements (mapObj : Value) :
  convertMapToArray mapObj
  = VArray ((λ k, Some (get mapObj k)) <$> sortedKeys mapObj) [].
Proof.
  unfold convertMapToArray. cbv zeta. case_bool_decide as Hlen; [|done].
  by apply length_zero_iff_nil in Hlen as ->.
Qed.

Lemma omap_cons {A B : Type} (f : A → option B) (x : A) (l : list A) :
  omap f (x :: l) = match f x with Some y => y :: omap f l | None => omap f l end.
Proof. reflexivity. Qed.

Lemma omap_filter_is_Some {A B : Type} (f : A → option B) (l : list A) :
  omap f (filter (λ x, is_Some (f x)) l) = omap f l.
Proof.
  induction l as [|x l IH]; [done|]. rewrite filter_cons.
  destruct (decide (is_Some (f x))) as [[y Hy]|Hn].
  - by rewrite !omap_cons, Hy, IH.
  - apply eq_None_not_Some in Hn. by rewrite omap_cons, Hn.
Qed.


Lemma omap_parseInt_ToString (l : list Z) : omap parseInt (ToString <$> l) = l.
Proof.
  induction l as [|n l IH]; [done|].
  by rewrite fmap_cons, omap_cons, parseInt_ToString, IH.
Qed.



Lemma lookup_Some_elem (key : string) (props : Props) (v : Value) :
  lookup key props = Some v → (key, v) ∈ props.
Proof.
  induction props as [|[k w] props IH]; [done|]. simpl.
  case_bool_decide as Hk.
  - intros [= ->]. subst. apply list_elem_of_here.
  - intros Hl. apply list_elem_of_further. by apply IH.
Qed.

Lemma lookup_is_Some (key : string) (props : Props) :
  is_Some (lookup key props) ↔ key ∈ props.*1.
Proof.
  induction props as [|[k w] props IH]; simpl.
  - split; [by intros [? ?]|by intros ?%elem_of_nil].
  - case_bool_decide as Hk.
    + subst. split; [intros _; apply list_elem_of_here|by eexists].
    + rewrite IH, elem_of_cons. split; [by right|by intros [?|?]].
Qed.

Lemma lookup_set_eq (key : string) (v : Value) (props : Props) :
  lookup key (set key v props) = Some v.
Proof.
  induction props as [|[k w] props IH]; simpl.
  - by rewrite bool_decide_eq_true_2.
  - case_bool_decide as Hk; simpl.
    + by rewrite bool_decide_eq_true_2.
    + by rewrite bool_decide_eq_false_2.
Qed.

Lemma lookup_set_ne (key key' : string) (v : Value) (props : Props) :
  key ≠ key' → lookup key' (set key v props) = lookup key' props.
Proof.
  intros Hne. induction props as [|[k w] props IH]; simpl.
  - by rewrite bool_decide_eq_false_2.
  - case_bool_decide as Hk; simpl.
    + subst. by rewrite !bool_decide_eq_false_2.
    + by rewrite IH.
Qed.

Lemma fst_set_elem (key : string) (v : Value) (props : Props) :
  key ∈ props.*1 → (set key v props).*1 = props.*1.
Proof.
  induction props as [|[k w] props IH]; simpl.
  - by intros ?%elem_of_nil.
  - case_bool_decide as Hk; simpl; [by subst|].
    intros [?|Hin]%elem_of_cons; [by subst|]. f_equal. by apply IH.
Qed.

Lemma fst_set_fresh (key : string) (v : Value) (props : Props) :
  key ∉ props.*1 → (set key v props).*1 = props.*1 ++ [key].
Proof.
  induction props as [|[k w] props IH]; simpl; [done|].
  intros Hnot. apply not_elem_of_cons in Hnot as [Hne Hnot].
  rewrite bool_decide_eq_false_2 by done. simpl. f_equal. by apply IH.
Qed.

(** Assignment keeps the keys of an object distinct. *)
Lemma NoDup_set (key : string) (v : Value) (props : Props) :
  NoDup props.*1 → NoDup (set key v props).*1.
Proof.
  intros Hnd. destruct (decide (key ∈ props.*1)) as [Hin|Hnot].
  - by rewrite fst_set_elem.
  - rewrite fst_set_fresh by done. apply list.NoDup_app. split_and!; [done| |].
    + intros k Hk ?%list_elem_of_singleton. by subst.
    + apply NoDup_singleton.
Qed.

Lemma OwnPropertyKeys_singleton (key : string) (v : Value) :
  OwnPropertyKeys [(key, v)] = [key].
Proof.
  unfold OwnPropertyKeys. cbv zeta. change ([(key, v)].*1) with [key].
  rewrite omap_cons, filter_cons, filter_nil.
  destruct (arrayIndex key) as [n|] eqn:Hk.
  - apply arrayIndex_Some in Hk as [Hcanon _]. rewrite decide_False by done.
    change (omap arrayIndex []) with (@nil Z).
    change (merge_sort Z.le [n]) with [n]. simpl. by rewrite Hcanon.
  - by rewrite decide_True.
Qed.

Lemma entries_singleton (key : string) (v : Value) :
  entries (VObject [(key, v)]) = [(key, v)].
Proof.
  unfold entries. rewrite OwnPropertyKeys_singleton. simpl.
  by rewrite bool_decide_eq_true_2.
Qed.

Lemma assign_singleton (target : Props) (key : string) (v : Value) :
  assign target (VObject [(key, v)]) = set key v target.
Proof. unfold assign. by rewrite entries_singleton. Qed.

Lemma assign_empty (target : Props) : assign target emptyObject = target.
Proof. reflexivity. Qed.

End ObjectFacts.

(** ** Array reconstruction *)

Section Reconstruction.
Import JSObject.

Lemma Sorted_seqZ (m : Z) (len : nat) : Sorted Z.le (seqZ m (Z.of_nat len)).
Proof.
  revert m. induction len as [|len IH]; intros m.
  - rewrite seqZ_nil by lia. constructor.
  - rewrite seqZ_cons by lia. replace (Z.pred (Z.of_nat (S len))) with (Z.of_nat len) by lia.
    constructor; [apply IH|].
    destruct len as [|len].
    + rewrite seqZ_nil by lia. constructor.
    + rewrite seqZ_cons by lia. constructor. lia.
Qed.

Lemma Sorted_seqZ_0 (n : Z) : Sorted Z.le (seqZ 0 n).
Proof.
  destruct (decide (0 <= n)) as [Hn|Hn].
  - rewrite <- (Z2Nat.id n) by done. apply Sorted_seqZ.
  - rewrite seqZ_nil by lia. constructor.
Qed.

Lemma last_seqZ_0 (n : Z) : 0 < n → list.last (seqZ 0 n) = Some (n - 1).
Proof.
  intros Hn. replace n with (Z.of_nat (S (Z.to_nat (n - 1)))) at 1 by lia.
  rewrite seqZ_S, last_snoc. f_equal. lia.
Qed.

Lemma lookup_find (key : string) (props : Props) :
  lookup key props = snd <$> List.find (λ kv, bool_decide (kv.1 = key)) props.
Proof.
  induction props as [|[k v] props IH]; [done|]. simpl.
  by destruct (bool_decide (k = key)).
Qed.

Lemma find_ext_elem {A : Type} (f g : A → bool) (l : list A) :
  (∀ x, x ∈ l → f x = g x) → List.find f l = List.find g l.
Proof.
  induction l as [|x l IH]; intros Hfg; [done|]. simpl.
  rewrite <- (Hfg x) by apply list_elem_of_here.
  destruct (f x); [done|]. apply IH. intros y Hy. apply Hfg. by apply list_elem_of_further.
Qed.

Lemma elem_of_fst (k : string) (v : Value) (props : Props) :
  (k, v) ∈ props → k ∈ props.*1.
Proof. intros Hin. apply list_elem_of_fmap. by exists (k, v). Qed.

(** The facts about a mapping whose integer-parseable keys are the spellings
    of 0, ..., n - 1. *)
Section Dense.
Variables (props : Props) (n : Z).
Hypothesis Hdense :
  filter (λ k, is_Some (parseInt k)) props.*1 ≡ₚ ToString <$> seqZ 0 n.

Lemma dense_canonical (k : string) (i : Z) :
  k ∈ props.*1 → parseInt k = Some i → k = ToString i ∧ 0 <= i < n.
Proof.
  intros Hin Hparse.
  assert (k ∈ ToString <$> seqZ 0 n) as Hk.
  { rewrite <- Hdense. apply list_elem_of_filter. split; [by eexists|done]. }
  apply list_elem_of_fmap in Hk as (j & -> & Hj%elem_of_seqZ).
  rewrite parseInt_ToString in Hparse. injection Hparse as ->. split; [done|lia].
Qed.

Lemma dense_present (i : Z) : 0 <= i < n → ToString i ∈ props.*1.
Proof.
  intros Hi.
  assert (ToString i ∈ ToString <$> seqZ 0 n) as Hk.
  { apply list_elem_of_fmap. exists i. split; [done|]. apply elem_of_seqZ. lia. }
  rewrite <- Hdense in Hk. by apply list_elem_of_filter in Hk as [_ ?].
Qed.

Lemma dense_parsed : omap parseInt props.*1 ≡ₚ seqZ 0 n.
Proof.
  rewrite <- omap_filter_is_Some, Hdense. by rewrite omap_parseInt_ToString.
Qed.

Lemma dense_nonNegative :
  omap Spec.nonNegativeIndex props.*1 = omap parseInt props.*1.
Proof.
  assert (∀ k i, k ∈ props.*1 → parseInt k = Some i → 0 <= i) as Hpos.
  { intros k i Hin Hparse. by destruct (dense_canonical k i Hin Hparse) as [_ [? _]]. }
  clear Hdense. induction (props.*1) as [|k l IH]; [done|].
  rewrite !omap_cons. unfold Spec.nonNegativeIndex at 1.
  rewrite IH by (intros k' i Hin; apply Hpos; by apply list_elem_of_further).
  destruct (parseInt k) as [i|] eqn:Hparse; [|done].
  assert (0 <= i) as Hi by (apply (Hpos k); [apply list_elem_of_here|done]).
  by replace (0 <=? i) with true by lia.
Qed.

Lemma dense_sortedKeys : sortedKeys (VObject props) = seqZ 0 n.
Proof.
  rewrite sortedKeys_props. apply (Sorted_unique Z.le).
  - apply Sorted_merge_sort, _.
  - apply Sorted_seqZ_0.
  - rewrite merge_sort_Permutation. apply dense_parsed.
Qed.

Lemma dense_valueAt (i : Z) :
  0 <= i < n →
  ∃ v, lookup (ToString i) props = Some v ∧ Spec.valueAt props i = v.
Proof.
  intros Hi. destruct (proj2 (lookup_is_Some (ToString i) props)) as [v Hv].
  { by apply dense_present. }
  exists v. split; [done|]. unfold Spec.valueAt.
  rewrite (find_ext_elem _ (λ kv, bool_decide (kv.1 = ToString i))).
  - rewrite lookup_find in Hv.
    by destruct (List.find (λ kv, bool_decide (kv.1 = ToString i)) props)
      as [[k w]|]; simplify_eq/=.
  - intros [k w] Hin. simpl. apply bool_decide_ext. split.
    + unfold Spec.nonNegativeIndex. destruct (parseInt k) as [j|] eqn:Hparse; [|done].
      destruct (0 <=? j); [|done]. intros [= ->].
      by destruct (dense_canonical k i (elem_of_fst _ _ _ Hin) Hparse) as [-> _].
    + intros ->. unfold Spec.nonNegativeIndex. rewrite parseInt_ToString.
      by replace (0 <=? i) with true by lia.
Qed.

Lemma dense_reconstruct :
  Spec.reconstruct props = Spec.valueAt props <$> seqZ 0 n.
Proof.
  unfold Spec.reconstruct. cbv zeta.
  rewrite dense_nonNegative, <- sortedKeys_props, dense_sortedKeys.
  destruct (decide (0 < n)) as [Hn|Hn].
  - rewrite last_seqZ_0 by done. by replace (n - 1 + 1) with n by lia.
  - by rewrite seqZ_nil by lia.
Qed.

End Dense.

Lemma length_filter_omap (n : Z) (l : list string) :
  length (filter (n =.) (omap parseInt l))
  = length (filter (λ k, parseInt k = Some n) l).
Proof.
  induction l as [|k l IH]; [done|].
  rewrite omap_cons, (filter_cons (λ k, parseInt k = Some n)).
  destruct (parseInt k) as [i|].
  - rewrite filter_cons. destruct (decide (n = i)) as [->|Hne].
    + rewrite decide_True by done. simpl. by rewrite IH.
    + rewrite decide_False by congruence. done.
  - by rewrite decide_False.
Qed.

Lemma length_filter_two {A : Type} (P : A → Prop) `{∀ x, Decision (P x)}
  (l : list A) (x y : A) :
  x ∈ l → y ∈ l → x ≠ y → P x → P y → (2 <= length (filter P l))%nat.
Proof.
  intros Hx Hy Hne HPx HPy.
  assert (x ∈ filter P l) as Hfx by (by apply list_elem_of_filter).
  assert (y ∈ filter P l) as Hfy by (by apply list_elem_of_filter).
  destruct (filter P l) as [|a [|b l']]; simpl; [|exfalso|lia].
  - by apply elem_of_nil in Hfx.
  - apply list_elem_of_singleton in Hfx, Hfy. congruence.
Qed.

Lemma NoDup_filter_eq_length (n : Z) (l : list Z) :
  NoDup l → (length (filter (n =.) l) <= 1)%nat.
Proof.
  induction 1 as [|x l Hx Hnd IH]; [simpl; lia|].
  rewrite filter_cons. destruct (decide (n = x)) as [->|Hne]; [|done].
  assert (filter (x =.) l = []) as ->; [|simpl; lia].
  destruct (filter (x =.) l) as [|y l'] eqn:Hf; [done|].
  assert (y ∈ filter (x =.) l) as Hy by (rewrite Hf; apply list_elem_of_here).
  by apply list_elem_of_filter in Hy as [<- Hy].
Qed.

Lemma length_remove_dups_le {A : Type} `{EqDecision A} (l : list A) :
  (length (remove_dups l) <= length l)%nat.
Proof.
  induction l as [|x l IH]; [done|]. simpl.
  destruct (decide_rel elem_of x l); simpl; lia.
Qed.

Lemma length_remove_dups_lt {A : Type} `{EqDecision A} (l : list A) :
  ¬ NoDup l → (length (remove_dups l) < length l)%nat.
Proof.
  induction l as [|x l IH]; intros Hdup.
  - destruct Hdup. constructor.
  - simpl. destruct (decide_rel elem_of x l) as [Hin|Hnot]; simpl.
    + pose proof (length_remove_dups_le l). lia.
    + assert (¬ NoDup l) as Hl by (intros Hnd; apply Hdup; by constructor).
      specialize (IH Hl). lia.
Qed.

End Reconstruction.

Section ReconstructionClaims.
Import JSObject.

(** C1, as stated, fails: on the specification's own example
    [{ 2: A, 0: B }] the code returns [[B, A]]; no Null is put at the missing
    index 1, so the length is 2 and not max + 1 = 3. *)
Lemma convertMapToArray_fills_no_gap :
  convertMapToArray (VObject [("2", Sample.A); ("0", Sample.B)])
  = VArray [Some Sample.B; Some Sample.A] []
  ∧ Spec.reconstruct [("2", Sample.A); ("0", Sample.B)]
    = [Sample.B; VNull; Sample.A]
  ∧ convertMapToArray (VObject [("2", Sample.A); ("0", Sample.B)])
    ≠ VArray (Some <$> Spec.reconstruct [("2", Sample.A); ("0", Sample.B)]) [].
Proof. split_and!; [reflexivity..|]. vm_compute. discriminate. Qed.

(** C1, amended: for every mapping whose integer-parseable keys are exactly
    the spellings of 0, ..., n - 1 (no index missing; other keys may be
    present), convertMapToArray returns the sequence the specification
    describes: its length is n, that is max(parsed key) + 1 when n > 0, and
    each entry's value sits at its parsed index.  With n = 0, a mapping with
    no integer-parseable key yields the empty sequence. *)
Theorem convertMapToArray_reconstruct (props : Props) (n : Z) :
  filter (λ k, is_Some (parseInt k)) props.*1 ≡ₚ ToString <$> seqZ 0 n →
  convertMapToArray (VObject props) = VArray (Some <$> Spec.reconstruct props) []
  ∧ length (Spec.reconstruct props) = Z.to_nat n
  ∧ ∀ i v, 0 <= i < n → lookup (ToString i) props = Some v →
      Spec.reconstruct props !! Z.to_nat i = Some v.
Proof.
  intros Hdense.
  rewrite convertMapToArray_elements, (dense_sortedKeys props n Hdense).
  rewrite (dense_reconstruct props n Hdense). split_and!.
  - f_equal. rewrite <- list_fmap_compose. apply Forall_fmap_ext_1, list.Forall_forall.
    intros i Hi%elem_of_seqZ. simpl.
    destruct (dense_valueAt props n Hdense i) as (v & Hv & ->); [lia|].
    by rewrite Hv.
  - by rewrite length_fmap, length_seqZ.
  - intros i v Hi Hv. rewrite list_lookup_fmap, lookup_seqZ_lt by lia.
    simpl. f_equal. rewrite Z2Nat.id by lia. rewrite Z.add_0_l.
    destruct (dense_valueAt props n Hdense i) as (w & Hw & ->); [lia|].
    congruence.
Qed.

(** A mapping with the keys 1 and 0, declared in that order, and a key that
    parseInt rejects: the result is [[B, A]]. *)
Lemma convertMapToArray_reconstruct_witness :
  let props := [("1", Sample.A); ("x", Sample.B); ("0", Sample.B)] in
  convertMapToArray (VObject props) = VArray (Some <$> Spec.reconstruct props) []
  ∧ length (Spec.reconstruct props) = Z.to_nat 2
  ∧ ∀ i v, 0 <= i < 2 → lookup (ToString i) props = Some v →
      Spec.reconstruct props !! Z.to_nat i = Some v.
Proof.
  apply (convertMapToArray_reconstruct
           [("1", Sample.A); ("x", Sample.B); ("0", Sample.B)] 2).
  vm_compute. apply perm_swap.
Defined.

(** C10: for every mapping, with keys whose integers are exact, in which
    two distinct keys parse to the same integer n: the output has one
    element for each key that parseInt accepts, in ascending order of the
    integers, and each element is the value stored under the canonical
    spelling of its integer, or undefined when nothing is stored under it.
    So n stays in the sorted key list once per key that parses to it, at
    least twice, and the value under its canonical spelling is repeated as
    often; the output is longer than the number of distinct integers; and
    the value under a key that is no canonical spelling is never read:
    another value under it gives the same output. *)
Theorem convertMapToArray_duplicate_spellings (props : Props)
  (key1 key2 : string) (n : Z) :
  exactKeys props.*1 →
  key1 ∈ props.*1 → key2 ∈ props.*1 → key1 ≠ key2 →
  parseInt key1 = Some n → parseInt key2 = Some n →
  ∃ indices,
    convertMapToArray (VObject props)
    = VArray ((λ i, Some (default VUndefined (lookup (ToString i) props)))
                <$> indices) []
    ∧ Sorted Z.le indices
    ∧ indices ≡ₚ omap parseInt props.*1
    ∧ length (filter (n =.) indices)
      = length (filter (λ k, parseInt k = Some n) props.*1)
    ∧ (2 <= length (filter (n =.) indices))%nat
    ∧ (length (remove_dups indices) < length indices)%nat
    ∧ ∀ key w, key ∈ props.*1 → (∀ i, ToString i ≠ key) →
        convertMapToArray (VObject (set key w props))
        = convertMapToArray (VObject props).
Proof.
  intros _ Hin1 Hin2 Hne Hparse1 Hparse2.
  exists (sortedKeys (VObject props)).
  assert (length (filter (n =.) (sortedKeys (VObject props)))
          = length (filter (λ k, parseInt k = Some n) props.*1)) as Hcount.
  { rewrite sortedKeys_Permutation. apply length_filter_omap. }
  assert (2 <= length (filter (n =.) (sortedKeys (VObject props))))%nat as Htwo.
  { rewrite Hcount. by apply (length_filter_two _ _ key1 key2). }
  split_and!; try done.
  - apply convertMapToArray_elements.
  - rewrite sortedKeys_props. apply Sorted_merge_sort, _.
  - apply sortedKeys_Permutation.
  - apply length_remove_dups_lt. intros Hnd.
    pose proof (NoDup_filter_eq_length n _ Hnd). lia.
  - intros key w Hin Hcanon.
    rewrite !convertMapToArray_elements, !sortedKeys_props, fst_set_elem by done.
    f_equal. apply list_fmap_ext. intros _ i _. simpl.
    by rewrite lookup_set_ne.
Qed.

Lemma convertMapToArray_duplicate_spellings_witness :
  ∃ indices,
    convertMapToArray (VObject [("1", Sample.A); ("01", Sample.B)])
    = VArray ((λ i, Some (default VUndefined
                            (lookup (ToString i)
                               [("1", Sample.A); ("01", Sample.B)])))
                <$> indices) []
    ∧ Sorted Z.le indices
    ∧ indices ≡ₚ omap parseInt ["1"; "01"]
    ∧ length (filter (1%Z =.) indices)
      = length (filter (λ k, parseInt k = Some 1) ["1"; "01"])
    ∧ (2 <= length (filter (1%Z =.) indices))%nat
    ∧ (length (remove_dups indices) < length indices)%nat
    ∧ ∀ key w, key ∈ ["1"; "01"] → (∀ i, ToString i ≠ key) →
        convertMapToArray (VObject (set key w [("1", Sample.A); ("01", Sample.B)]))
        = convertMapToArray (VObject [("1", Sample.A); ("01", Sample.B)]).
Proof.
  apply (convertMapToArray_duplicate_spellings
           [("1", Sample.A); ("01", Sample.B)] "1" "01" 1).
  - repeat (constructor;
            [intros n Hn; vm_compute in Hn; try discriminate Hn;
             injection Hn as <-; by vm_compute|]).
    constructor.
  - apply list_elem_of_here.
  - apply list_elem_of_further, list_elem_of_here.
  - discriminate.
  - reflexivity.
  - reflexivity.
Defined.

(** The mapping of the witness: the value under 1 twice, that under 01
    nowhere. *)
Example convertMapToArray_1_and_01 :
  convertMapToArray (VObject [("1", Sample.A); ("01", Sample.B)])
  = VArray [Some Sample.A; Some Sample.A] [].
Proof. reflexivity. Qed.

End ReconstructionClaims.

(** ** The tree and its queries *)

Section TreeFacts.

Lemma resolve_app (n : Node) (h s : Handle) :
  resolve n (h ++ s) = resolve n h ≫= λ m, resolve m s.
Proof.
  revert n. induction h as [|i h IH]; intros n; [done|]. simpl.
  destruct n as [|tag classes attrs kids]; [done|].
  destruct (kids !! i) as [k|]; [apply IH|done].
Qed.

Lemma resolve_child (n : Node) (p : Handle) (j : nat) tag classes attrs kids :
  resolve n p = Some (Element tag classes attrs kids) →
  resolve n (p ++ [j]) = kids !! j.
Proof.
  intros Hp. rewrite resolve_app, Hp. simpl. by destruct (kids !! j).
Qed.

Lemma height_child tag classes attrs (kids : list Node) (i : nat) (k : Node) :
  kids !! i = Some k → (height k < height (Element tag classes attrs kids))%nat.
Proof.
  intros Hk. simpl. apply Nat.lt_succ_r, max_list_elem_of_le.
  apply list_elem_of_fmap. exists k. split; [done|]. by eapply list_elem_of_lookup_2.
Qed.

Lemma height_resolve (n m : Node) (s : Handle) :
  resolve n s = Some m → s ≠ [] → (height m < height n)%nat.
Proof.
  revert n. induction s as [|i s IH]; intros n Hres Hne; [done|].
  destruct n as [|tag classes attrs kids]; [done|]. simpl in Hres.
  destruct (kids !! i) as [k|] eqn:Hk; [|done].
  pose proof (height_child tag classes attrs kids i k Hk) as Hlt.
  destruct s as [|j s].
  - by injection Hres as <-.
  - specialize (IH k Hres ltac:(done)). lia.
Qed.

Lemma childPlaces_head (below : Node → list Handle) (i : nat) (l : list Node)
  (s : Handle) :
  s ∈ childPlaces below i l → s ≠ [].
Proof.
  revert i. induction l as [|k l IH]; intros i; simpl.
  - by intros ?%elem_of_nil.
  - rewrite elem_of_cons, elem_of_app, list_elem_of_fmap.
    intros [->|[(s' & -> & _)|Hin]]; [done|done|by eapply IH].
Qed.

Lemma descendants_nonempty (n : Node) (s : Handle) : s ∈ descendants n → s ≠ [].
Proof. destruct n; simpl; [by intros ?%elem_of_nil|apply childPlaces_head]. Qed.

Lemma childPlaces_child (below : Node → list Handle) (i0 i : nat)
  (l : list Node) (k : Node) :
  l !! i = Some k →
  [(i0 + i)%nat] ∈ childPlaces below i0 l
  ∧ ∀ s, s ∈ below k → (i0 + i)%nat :: s ∈ childPlaces below i0 l.
Proof.
  revert i0 i. induction l as [|k' l IH]; intros i0 i Hk; [done|].
  destruct i as [|i]; simpl in *.
  - injection Hk as ->. rewrite Nat.add_0_r. split.
    + apply list_elem_of_here.
    + intros s Hs. apply list_elem_of_further, elem_of_app. left.
      apply list_elem_of_fmap. by exists s.
  - destruct (IH (S i0) i Hk) as [H1 H2].
    replace (i0 + S i)%nat with (S i0 + i)%nat by lia. split.
    + apply list_elem_of_further, elem_of_app. by right.
    + intros s Hs. apply list_elem_of_further, elem_of_app. right. by apply H2.
Qed.

(** Every node properly below [n] is among its descendants. *)
Lemma descendants_complete (n m : Node) (s : Handle) :
  resolve n s = Some m → s ≠ [] → s ∈ descendants n.
Proof.
  revert n. induction s as [|i s IH]; intros n Hres Hne; [done|].
  destruct n as [|tag classes attrs kids]; [done|]. simpl in Hres.
  destruct (kids !! i) as [k|] eqn:Hk; [|done].
  destruct (childPlaces_child descendants 0 i kids k Hk) as [Hhere Hbelow].
  simpl. destruct s as [|j s]; [done|].
  apply (Hbelow (j :: s)). by apply IH.
Qed.

Variable doc : Node.

Lemma isElementb_true (h : Handle) : isElementb doc h = true → isElement doc h.
Proof.
  unfold isElementb, isElement. destruct h as [|i h]; [done|].
  destruct (resolve doc (i :: h)) as [[|tag classes attrs kids]|]; try done.
  intros _. split; [done|]. by repeat eexists.
Qed.

Lemma matchesCompound_isElement (scope : Handle) (c : Compound) (h : Handle) :
  matchesCompound doc scope c h = true → isElement doc h.
Proof.
  unfold matchesCompound, isElement. destruct h as [|i h]; [done|].
  destruct (resolve doc (i :: h)) as [[|tag classes attrs kids]|]; try done.
  intros _. split; [done|]. by repeat eexists.
Qed.

Lemma matches_isElement (scope : Handle) (sel : Selector) (h : Handle) :
  matches doc scope sel h = true → isElement doc h.
Proof.
  unfold matches. intros [H _]%andb_true_iff. by eapply matchesCompound_isElement.
Qed.

Lemma querySelectorAll_elem (scope : Handle) (sel : Selector) (h : Handle) :
  h ∈ querySelectorAll doc scope sel ↔
  ∃ n s, resolve doc scope = Some n ∧ s ∈ descendants n ∧ h = scope ++ s
         ∧ matches doc scope sel h = true.
Proof.
  unfold querySelectorAll. destruct (resolve doc scope) as [n|].
  - rewrite list_elem_of_filter, list_elem_of_fmap. split.
    + intros (Hm & s & -> & Hs). by exists n, s.
    + intros (n' & s & [= <-] & Hs & -> & Hm). split; [done|]. by exists s.
  - split; [by intros ?%elem_of_nil|]. by intros (n & s & ? & _).
Qed.

Lemma querySelectorAll_below (scope : Handle) (sel : Selector) (h : Handle) :
  h ∈ querySelectorAll doc scope sel → below doc scope h.
Proof.
  intros (n & s & Hn & Hs & -> & Hm)%querySelectorAll_elem.
  exists s. split_and!; [by eapply descendants_nonempty|done|].
  by eapply matches_isElement.
Qed.

Lemma querySelector_elem (scope : Handle) (sel : Selector) (h : Handle) :
  querySelector doc scope sel = Some h → h ∈ querySelectorAll doc scope sel.
Proof.
  unfold querySelector. destruct (querySelectorAll doc scope sel) as [|x l]; [done|].
  intros [= ->]. apply list_elem_of_here.
Qed.

Lemma querySelector_below (scope : Handle) (sel : Selector) (h : Handle) :
  querySelector doc scope sel = Some h → below doc scope h.
Proof. intros ?%querySelector_elem. by eapply querySelectorAll_below. Qed.

Lemma below_heightAt (h h' : Handle) :
  below doc h h' → (heightAt doc h' < heightAt doc h)%nat.
Proof.
  intros (s & Hne & -> & _ & tag & classes & attrs & kids & Hres).
  unfold heightAt. rewrite Hres. rewrite resolve_app in Hres.
  destruct (resolve doc h) as [n|]; [|done]. simpl in Hres.
  by apply (height_resolve n _ s).
Qed.

Lemma below_trans (h1 h2 h3 : Handle) :
  below doc h1 h2 → below doc h2 h3 → below doc h1 h3.
Proof.
  intros (s & Hs & -> & _) (s' & Hs' & -> & Hel).
  exists (s ++ s'). split_and!; [by destruct s|by rewrite app_assoc|done].
Qed.

Lemma firstElement_Some (i j : nat) (l : list Node) :
  firstElement i l = Some j →
  ∃ k tag classes attrs kids,
    j = (i + k)%nat ∧ l !! k = Some (Element tag classes attrs kids).
Proof.
  revert i. induction l as [|[data|tag classes attrs kids] l IH]; intros i; simpl.
  - done.
  - intros (k & Hk)%IH. destruct Hk as (tag & classes & attrs & kids & -> & Hk).
    exists (S k), tag, classes, attrs, kids. split; [lia|done].
  - intros [= <-]. exists 0%nat, tag, classes, attrs, kids. split; [lia|done].
Qed.

Lemma removelast_snoc (p : Handle) (i : nat) : removelast (p ++ [i]) = p.
Proof. by rewrite removelast_app, app_nil_r. Qed.

(** The next element sibling is an element with the same parent. *)
Lemma nextElementSibling_sibling (h h' : Handle) :
  nextElementSibling doc h = Some h' →
  h ≠ [] ∧ ∃ j, h' = parent h ++ [j] ∧ isElement doc h'.
Proof.
  unfold nextElementSibling.
  destruct (list.last h) as [i|] eqn:Hlast; [|done].
  destruct (resolve doc (parent h)) as [[|tag classes attrs kids]|] eqn:Hp; try done.
  destruct (firstElement (S i) (drop (S i) kids)) as [j|] eqn:Hfirst; [|done].
  intros [= <-]. split; [by destruct h|]. exists j. split; [done|].
  apply firstElement_Some in Hfirst
    as (k & tag' & classes' & attrs' & kids' & -> & Hk).
  rewrite lookup_drop in Hk. split; [by destruct (parent h)|].
  exists tag', classes', attrs', kids'.
  by rewrite (resolve_child _ _ _ _ _ _ _ Hp).
Qed.

Lemma below_sibling (c item next : Handle) :
  below doc c item → nextElementSibling doc item = Some next → below doc c next.
Proof.
  intros (s & Hs & -> & _) (_ & j & -> & Hel)%nextElementSibling_sibling.
  exists (removelast s ++ [j]). split_and!; [by destruct (removelast s)| |done].
  unfold parent. by rewrite removelast_app, app_assoc.
Qed.

End TreeFacts.

(** ** The walkers return *)

Section WalkerFacts.

Lemma forEach_Return {A B : Type} (f : A → B → Outcome A) (l : list B) (acc : A) :
  (∀ a x, x ∈ l → ∃ a', f a x = Return a') → ∃ r, forEach f l acc = Return r.
Proof.
  revert acc. induction l as [|x l IH]; intros acc Hf; simpl.
  - by eexists.
  - destruct (Hf acc x) as [a' Ha]; [apply list_elem_of_here|].
    rewrite Ha. simpl. apply IH. intros a y Hy. apply Hf. by apply list_elem_of_further.
Qed.

(** A loop whose callback returns [g acc x] at each [x] is a left fold. *)
Lemma forEach_fold {A B : Type} (f : A → B → Outcome A) (g : A → B → A)
  (l : list B) (acc : A) :
  (∀ a x, x ∈ l → f a x = Return (g a x)) →
  forEach f l acc = Return (fold_left g l acc).
Proof.
  revert acc. induction l as [|x l IH]; intros acc Hf; simpl; [done|].
  rewrite Hf by apply list_elem_of_here. simpl.
  apply IH. intros a y Hy. apply Hf. by apply list_elem_of_further.
Qed.

Variable doc : Node.

Lemma heightAt_le (h : Handle) : (heightAt doc h <= height doc)%nat.
Proof.
  unfold heightAt. destruct (resolve doc h) as [n|] eqn:Hres; [|lia].
  destruct h as [|i h].
  - by injection Hres as <-.
  - pose proof (height_resolve doc n (i :: h) Hres ltac:(done)). lia.
Qed.

(** *** Layout B *)

Lemma emulatorField_returns (self : option Handle → Outcome Value) (item : Handle) :
  (∀ next, nextElementSibling doc item = Some next →
     ∃ children, self (Some next) = Return children) →
  ∃ field, emulatorField doc self item = Return field.
Proof.
  intros Hself. unfold emulatorField.
  destruct (querySelector doc item Sel.FieldPreview_key) as [keyElem|]; [|by eexists].
  cbv zeta.
  destruct (bool_decide _ || bool_decide _); [|by eexists].
  destruct (nextElementSibling doc item) as [next|]; [|by eexists].
  destruct (classListContains doc next "FieldPreview-children"); [|by eexists].
  destruct (Hself next) as [children ->]; [done|]. by eexists.
Qed.

Lemma emulatorItem_returns (self : option Handle → Outcome Value)
  (data : JSObject.Props) (item : Handle) :
  (∀ next, nextElementSibling doc item = Some next →
     ∃ children, self (Some next) = Return children) →
  ∃ data', emulatorItem doc self data item = Return data'.
Proof.
  intros Hself. unfold emulatorItem.
  destruct (emulatorField_returns self item Hself) as [field ->]. by eexists.
Qed.

(** With a budget above the height of the container, parseEmulatorContainer
    returns an object. *)
Lemma parseEmulatorContainer_returns (fuel : nat) (container : option Handle) :
  (from_option (heightAt doc) O container < fuel)%nat →
  ∃ data, parseEmulatorContainer fuel doc container = Return (VObject data).
Proof.
  revert container. induction fuel as [|fuel IH]; intros container Hfuel; [lia|].
  simpl. destruct container as [container|]; simpl; [|by eexists].
  destruct (forEach_Return
              (emulatorItem doc (parseEmulatorContainer fuel doc))
              (querySelectorAll doc container Sel.scope_li_FieldPreview) [])
    as [data ->]; [|by eexists].
  intros data item Hitem. apply emulatorItem_returns. intros next Hnext.
  destruct (IH (Some next)) as [children ->]; [|by eexists].
  apply querySelectorAll_below in Hitem.
  pose proof (below_heightAt doc _ _ (below_sibling doc _ _ _ Hitem Hnext)).
  simpl in *. lia.
Qed.

(** *** Layout A *)

Lemma parseMapWith_returns (parseNode : Handle → Outcome Value)
  (databaseChildren : option Handle) :
  (∀ c node, databaseChildren = Some c → below doc c node →
     ∃ parsed, parseNode node = Return parsed) →
  ∃ mapResult, parseMapWith doc parseNode databaseChildren = Return (VObject mapResult).
Proof.
  intros Hnode. destruct databaseChildren as [c|]; simpl; [|by eexists].
  destruct (forEach_Return
    (λ mapResult dataTree,
       forEach (λ mapResult nodeElement,
                  parsedObj ← parseNode nodeElement;
                  Return (JSObject.assign mapResult parsedObj))
         (querySelectorAll doc dataTree Sel.scope_database_node) mapResult)
    (querySelectorAll doc c Sel.scope_data_tree) []) as [mapResult ->]; [|by eexists].
  intros acc dataTree HdataTree%querySelectorAll_below.
  apply forEach_Return. intros acc' node Hnode'%querySelectorAll_below.
  destruct (Hnode c node) as [parsed ->]; [done|by eapply below_trans|by eexists].
Qed.

Lemma parseArrayWith_returns (parseNode : Handle → Outcome Value)
  (databaseChildren : option Handle) :
  (∀ c node, databaseChildren = Some c → below doc c node →
     ∃ parsed, parseNode node = Return parsed) →
  ∃ resultArray, parseArrayWith doc parseNode databaseChildren = Return resultArray.
Proof.
  intros Hnode. destruct databaseChildren as [c|]; simpl; [|by eexists].
  apply forEach_Return.
  intros acc dataTree HdataTree%querySelectorAll_below.
  apply forEach_Return. intros acc' node Hnode'%querySelectorAll_below.
  destruct (Hnode c node) as [parsed ->]; [done|by eapply below_trans|by eexists].
Qed.

(** With a budget above the height of the node, parseNode returns. *)
Lemma parseNode_returns (fuel : nat) (nodeElement : Handle) :
  (heightAt doc nodeElement < fuel)%nat →
  ∃ parsed, parseNode fuel doc nodeElement = Return parsed.
Proof.
  revert nodeElement. induction fuel as [|fuel IH]; intros nodeElement Hfuel; [lia|].
  simpl. unfold parseNodeBody.
  destruct (querySelector doc nodeElement Sel.database_key) as [keySpan|]; [|by eexists].
  cbv zeta.
  assert (∀ c node,
            querySelector doc nodeElement Sel.scope_database_children = Some c →
            below doc c node → ∃ parsed, parseNode fuel doc node = Return parsed)
    as Hrec.
  { intros c node Hc%querySelector_below Hnode. apply IH.
    pose proof (below_heightAt doc _ _ Hc).
    pose proof (below_heightAt doc _ _ Hnode). lia. }
  case_bool_decide; [|case_bool_decide].
  - destruct (parseMapWith_returns (parseNode fuel doc) _ Hrec) as [m ->]. by eexists.
  - destruct (parseArrayWith_returns (parseNode fuel doc) _ Hrec) as [a ->]. by eexists.
  - by eexists.
Qed.

Lemma parseNode_document_returns (nodeElement : Handle) :
  ∃ parsed, parseNode (S (height doc)) doc nodeElement = Return parsed.
Proof. apply parseNode_returns. pose proof (heightAt_le nodeElement). lia. Qed.

Lemma productionField_returns (dataObject : JSObject.Props) (element : Handle) :
  ∃ dataObject',
    productionField doc (parseNode (S (height doc)) doc) dataObject element
    = Return dataObject'.
Proof.
  unfold productionField.
  destruct (querySelector doc element Sel.database_key) as [keySpan|]; [|by eexists].
  cbv zeta. case_bool_decide; [|case_bool_decide].
  - destruct (parseMapWith_returns (parseNode (S (height doc)) doc)
                (querySelector doc element Sel.database_children)) as [m ->];
      [intros; apply parseNode_document_returns|by eexists].
  - destruct (parseArrayWith_returns (parseNode (S (height doc)) doc)
                (querySelector doc element Sel.database_children)) as [a ->];
      [intros; apply parseNode_document_returns|by eexists].
  - by eexists.
Qed.

End WalkerFacts.

(** ** The budget does not change a result *)

Section Budget.
Variable doc : Node.

Lemma forEach_mono {A B : Type} (f f' : A → B → Outcome A) (l : list B) (acc r : A) :
  (∀ a x a', f a x = Return a' → f' a x = Return a') →
  forEach f l acc = Return r → forEach f' l acc = Return r.
Proof.
  intros Hf. revert acc. induction l as [|x l IH]; intros acc; simpl; [done|].
  destruct (f acc x) as [acc'| |] eqn:Hx; simpl; [|done|done].
  rewrite (Hf _ _ _ Hx). simpl. apply IH.
Qed.

Lemma parseMapWith_mono (parseNode parseNode' : Handle → Outcome Value)
  (databaseChildren : option Handle) (r : Value) :
  (∀ node parsed, parseNode node = Return parsed → parseNode' node = Return parsed) →
  parseMapWith doc parseNode databaseChildren = Return r →
  parseMapWith doc parseNode' databaseChildren = Return r.
Proof.
  intros Hnode. destruct databaseChildren as [c|]; simpl; [|done].
  match goal with
  | |- context [forEach ?f (querySelectorAll doc c Sel.scope_data_tree) []] =>
      destruct (forEach f (querySelectorAll doc c Sel.scope_data_tree) [])
        as [mapResult| |] eqn:Hloop; simpl; [|done|done]
  end.
  intros [= <-].
  erewrite forEach_mono; [done| |exact Hloop].
  intros a dataTree a'. apply forEach_mono. intros b node b'.
  destruct (parseNode node) as [parsed| |] eqn:Hparsed; simpl; [|done|done].
  by rewrite (Hnode _ _ Hparsed).
Qed.

Lemma parseArrayWith_mono (parseNode parseNode' : Handle → Outcome Value)
  (databaseChildren : option Handle) (r : Value) :
  (∀ node parsed, parseNode node = Return parsed → parseNode' node = Return parsed) →
  parseArrayWith doc parseNode databaseChildren = Return r →
  parseArrayWith doc parseNode' databaseChildren = Return r.
Proof.
  intros Hnode. destruct databaseChildren as [c|]; simpl; [|done].
  apply forEach_mono. intros a dataTree a'. apply forEach_mono. intros b node b'.
  destruct (parseNode node) as [parsed| |] eqn:Hparsed; simpl; [|done|done].
  by rewrite (Hnode _ _ Hparsed).
Qed.

(** A result of parseNode stays the same under any larger budget. *)
Lemma parseNode_mono (fuel : nat) (nodeElement : Handle) (parsed : Value) :
  parseNode fuel doc nodeElement = Return parsed →
  parseNode (S fuel) doc nodeElement = Return parsed.
Proof.
  revert nodeElement parsed. induction fuel as [|fuel IH]; intros node parsed; [done|].
  change (parseNode (S (S fuel)) doc node)
    with (parseNodeBody doc (parseNode (S fuel) doc) node).
  change (parseNode (S fuel) doc node)
    with (parseNodeBody doc (parseNode fuel doc) node).
  unfold parseNodeBody.
  destruct (querySelector doc node Sel.database_key) as [keySpan|]; [|done].
  cbv zeta. case_bool_decide; [|case_bool_decide; [|done]].
  - destruct (parseMapWith doc (parseNode fuel doc) _) as [value| |] eqn:Hmap;
      [|intros Hx; discriminate Hx..].
    by rewrite (parseMapWith_mono _ _ _ _ IH Hmap).
  - destruct (parseArrayWith doc (parseNode fuel doc) _) as [value| |] eqn:Harr;
      [|intros Hx; discriminate Hx..].
    by rewrite (parseArrayWith_mono _ _ _ _ IH Harr).
Qed.

Lemma emulatorField_mono (self self' : option Handle → Outcome Value)
  (item : Handle) (field : option (string * Value)) :
  (∀ c children, self c = Return children → self' c = Return children) →
  emulatorField doc self item = Return field →
  emulatorField doc self' item = Return field.
Proof.
  intros Hself. unfold emulatorField.
  destruct (querySelector doc item Sel.FieldPreview_key) as [keyElem|]; [|done].
  cbv zeta. destruct (bool_decide _ || bool_decide _); [|done].
  destruct (nextElementSibling doc item) as [next|]; [|done].
  destruct (classListContains doc next "FieldPreview-children"); [|done].
  destruct (self (Some next)) as [children| |] eqn:Hchildren; simpl; [|done|done].
  by rewrite (Hself _ _ Hchildren).
Qed.

(** A result of parseEmulatorContainer stays the same under any larger
    budget. *)
Lemma parseEmulatorContainer_mono (fuel : nat) (container : option Handle)
  (r : Value) :
  parseEmulatorContainer fuel doc container = Return r →
  parseEmulatorContainer (S fuel) doc container = Return r.
Proof.
  revert container r. induction fuel as [|fuel IH]; intros container r; [done|].
  change (parseEmulatorContainer (S (S fuel)) doc container)
    with (parseEmulatorContainerBody doc (parseEmulatorContainer (S fuel) doc) container).
  change (parseEmulatorContainer (S fuel) doc container)
    with (parseEmulatorContainerBody doc (parseEmulatorContainer fuel doc) container).
  unfold parseEmulatorContainerBody. destruct container as [c|]; [|done].
  cbv zeta.
  destruct (forEach (emulatorItem doc (parseEmulatorContainer fuel doc))
              (querySelectorAll doc c Sel.scope_li_FieldPreview) [])
    as [data| |] eqn:Hloop; [|intros Hx; discriminate Hx..].
  intros [= <-]. erewrite forEach_mono; [done| |exact Hloop].
  intros a item a'. unfold emulatorItem.
  destruct (emulatorField doc (parseEmulatorContainer fuel doc) item)
    as [field| |] eqn:Hfield; [|intros Hx; discriminate Hx..].
  by rewrite (emulatorField_mono _ _ _ _ IH Hfield).
Qed.

Lemma parseNode_mono_le (fuel fuel' : nat) (nodeElement : Handle) (parsed : Value) :
  (fuel <= fuel')%nat →
  parseNode fuel doc nodeElement = Return parsed →
  parseNode fuel' doc nodeElement = Return parsed.
Proof.
  induction 1 as [|fuel' _ IH]; [done|]. intros Hparsed. by apply parseNode_mono, IH.
Qed.

Lemma parseEmulatorContainer_mono_le (fuel fuel' : nat)
  (container : option Handle) (r : Value) :
  (fuel <= fuel')%nat →
  parseEmulatorContainer fuel doc container = Return r →
  parseEmulatorContainer fuel' doc container = Return r.
Proof.
  induction 1 as [|fuel' _ IH]; [done|]. intros Hr.
  by apply parseEmulatorContainer_mono, IH.
Qed.

Lemma productionField_mono (parseNode parseNode' : Handle → Outcome Value)
  (dataObject dataObject' : JSObject.Props) (element : Handle) :
  (∀ node parsed, parseNode node = Return parsed → parseNode' node = Return parsed) →
  productionField doc parseNode dataObject element = Return dataObject' →
  productionField doc parseNode' dataObject element = Return dataObject'.
Proof.
  intros Hnode. unfold productionField.
  destruct (querySelector doc element Sel.database_key) as [keySpan|]; [|done].
  cbv zeta. case_bool_decide; [|case_bool_decide; [|done]].
  - destruct (parseMapWith doc parseNode _) as [value| |] eqn:Hmap;
      [|intros Hx; discriminate Hx..].
    by rewrite (parseMapWith_mono _ _ _ _ Hnode Hmap).
  - destruct (parseArrayWith doc parseNode _) as [value| |] eqn:Harr;
      [|intros Hx; discriminate Hx..].
    by rewrite (parseArrayWith_mono _ _ _ _ Hnode Harr).
Qed.

(** parseNode returns the empty object or an object with one property. *)
Lemma parseNode_single_entry (fuel : nat) (nodeElement : Handle) (parsed : Value) :
  parseNode fuel doc nodeElement = Return parsed →
  parsed = emptyObject ∨ ∃ key value, parsed = VObject [(key, value)].
Proof.
  destruct fuel as [|fuel]; [done|]. simpl. unfold parseNodeBody.
  destruct (querySelector doc nodeElement Sel.database_key) as [keySpan|];
    [|intros [= <-]; by left].
  cbv zeta.
  destruct (if bool_decide _ then _ else _) as [value| |]; simpl; [|done|done].
  intros [= <-]. right. by eexists _, _.
Qed.

End Budget.

(** ** Core logic *)

Section CoreFacts.
Variable doc : Node.

(** What getFirestoreJSON does for each outcome of the root selection. *)
Lemma getFirestoreJSON_outcome (pathname : string) (contextRoot : option Handle) :
  match determineRoot doc contextRoot with
  | (Some emulatorRoot, _) =>
      ∃ fields,
        parseEmulatorContainer (S (height doc)) doc (Some emulatorRoot)
        = Return (VObject fields)
        ∧ getFirestoreJSON doc pathname contextRoot
          = Return {| status := "ok";
                      docId := default "unknown_doc" (list.last (split "/" pathname));
                      data := VObject [(default "unknown_doc"
                                          (list.last (split "/" pathname)),
                                        VObject fields)] |}
  | (None, Some productionPanel) =>
      ∃ fields,
        let id :=
          match querySelector doc productionPanel Sel.panel_header_label with
          | Some docIdElement => trim (textContentOf doc docIdElement)
          | None => "UNKNOWN_DOCUMENT_ID"
          end in
        getFirestoreJSON doc pathname contextRoot
        = Return {| status := "ok"; docId := id;
                    data := VObject [(id, VObject fields)] |}
  | (None, None) => getFirestoreJSON doc pathname contextRoot = Throw NO_DATA
  end.
Proof.
  unfold getFirestoreJSON, getFirestoreJSONWith. cbv zeta.
  destruct (determineRoot doc contextRoot) as [[emulatorRoot|] [productionPanel|]].
  - destruct (parseEmulatorContainer_returns doc (S (height doc)) (Some emulatorRoot))
      as [fields Hfields].
    { simpl. pose proof (heightAt_le doc emulatorRoot). lia. }
    exists fields. split; [done|]. by rewrite Hfields.
  - destruct (parseEmulatorContainer_returns doc (S (height doc)) (Some emulatorRoot))
      as [fields Hfields].
    { simpl. pose proof (heightAt_le doc emulatorRoot). lia. }
    exists fields. split; [done|]. by rewrite Hfields.
  - destruct (forEach_Return
                (productionField doc (parseNode (S (height doc)) doc))
                (querySelectorAll doc productionPanel Sel.fs_animate_change_classes) [])
      as [fields Hfields].
    { intros a x _. apply productionField_returns. }
    exists fields. by rewrite Hfields.
  - done.
Qed.

(** Any budget above the height of the document gives the result of
    getFirestoreJSON. *)
Lemma getFirestoreJSONWith_budget (fuel : nat) (pathname : string)
  (contextRoot : option Handle) :
  (height doc < fuel)%nat →
  getFirestoreJSONWith fuel doc pathname contextRoot
  = getFirestoreJSON doc pathname contextRoot.
Proof.
  intros Hfuel. unfold getFirestoreJSON, getFirestoreJSONWith.
  destruct (determineRoot doc contextRoot) as [[emulatorRoot|] [productionPanel|]];
    [| | |done].
  - destruct (parseEmulatorContainer_returns doc (S (height doc)) (Some emulatorRoot))
      as [fields Hfields].
    { simpl. pose proof (heightAt_le doc emulatorRoot). lia. }
    rewrite Hfields.
    assert (S (height doc) <= fuel)%nat as Hle by lia.
    by rewrite (parseEmulatorContainer_mono_le doc _ fuel _ _ Hle Hfields).
  - destruct (parseEmulatorContainer_returns doc (S (height doc)) (Some emulatorRoot))
      as [fields Hfields].
    { simpl. pose proof (heightAt_le doc emulatorRoot). lia. }
    rewrite Hfields.
    assert (S (height doc) <= fuel)%nat as Hle by lia.
    by rewrite (parseEmulatorContainer_mono_le doc _ fuel _ _ Hle Hfields).
  - destruct (forEach_Return
                (productionField doc (parseNode (S (height doc)) doc))
                (querySelectorAll doc productionPanel Sel.fs_animate_change_classes) [])
      as [fields Hfields].
    { intros a x _. apply productionField_returns. }
    cbv zeta. rewrite Hfields.
    erewrite forEach_mono; [done| |exact Hfields].
    intros a element a'. apply productionField_mono.
    intros node parsed. apply parseNode_mono_le. lia.
Qed.

Lemma determineRoot_with_scope (scope : Handle) :
  (∃ root, determineRoot doc (Some scope) = (Some root, None))
  ∨ determineRoot doc (Some scope) = (None, Some scope).
Proof.
  unfold determineRoot.
  destruct (classListContains doc scope "Firestore-Field-List"); [left; by eexists|].
  destruct (classListContains doc scope "panel-container"); [by right|].
  destruct (querySelector doc scope Sel.Firestore_Field_List); [left; by eexists|by right].
Qed.

End CoreFacts.

(** C9: for every non-null scope, an element of the document,
    getFirestoreJSON returns a result, so it never raises the no-source-data
    failure: root selection yields an emulator root or the scope itself as the
    production panel, and a scope that bears neither root marker and contains
    no layout-B root is taken as the production panel. *)
Theorem getFirestoreJSON_with_scope_returns (doc : Node) (pathname : string)
  (scope : Handle) :
  isElement doc scope →
  (∃ r, getFirestoreJSON doc pathname (Some scope) = Return r)
  ∧ ((∃ root, determineRoot doc (Some scope) = (Some root, None))
     ∨ determineRoot doc (Some scope) = (None, Some scope))
  ∧ (classListContains doc scope "Firestore-Field-List" = false →
     classListContains doc scope "panel-container" = false →
     querySelector doc scope Sel.Firestore_Field_List = None →
     determineRoot doc (Some scope) = (None, Some scope)).
Proof.
  intros _. split_and!.
  - pose proof (getFirestoreJSON_outcome doc pathname (Some scope)) as Hout.
    destruct (determineRoot_with_scope doc scope) as [[root Hroot]|Hroot];
      rewrite Hroot in Hout.
    + destruct Hout as (fields & _ & ->). by eexists.
    + destruct Hout as (fields & ->). by eexists.
  - apply determineRoot_with_scope.
  - unfold determineRoot. by intros -> -> ->.
Qed.

Lemma getFirestoreJSON_with_scope_returns_witness :
  (∃ r, getFirestoreJSON Sample.blankView "/" (Some [0%nat]) = Return r)
  ∧ determineRoot Sample.blankView (Some [0%nat]) = (None, Some [0%nat]).
Proof.
  destruct (getFirestoreJSON_with_scope_returns Sample.blankView "/" [0%nat])
    as (Hreturns & _ & Hpanel); [by apply isElementb_true|].
  split; [exact Hreturns|]. apply Hpanel; reflexivity.
Defined.

Section RootFacts.
Variable doc : Node.

Lemma split_nonempty (sep : ascii) (s : string) : split sep s ≠ [].
Proof.
  induction s as [|c s IH]; simpl; [done|].
  case_bool_decide; [done|]. by destruct (split sep s).
Qed.

Lemma last_filter_Some_2 {A : Type} (P : A → Prop) `{∀ x, Decision (P x)}
  (l : list A) (x : A) :
  list.last l = Some x → P x → list.last (filter P l) = Some x.
Proof.
  intros (l' & ->)%last_Some HP.
  rewrite list.filter_app, filter_cons, decide_True, filter_nil by done.
  apply last_snoc.
Qed.

(** A selector that is one class name matches the elements of that class. *)
Lemma matches_class (scope h : Handle) (name : string) :
  matches doc scope
    {| subject := {| isScope := false; typeName := None; classNames := [name] |};
       context := [] |} h
  = match h with
    | [] => false
    | _ :: _ => classListContains doc h name
    end.
Proof.
  unfold matches, matchesCompound, classListContains.
  destruct h as [|i h]; [reflexivity|].
  destruct (resolve doc (i :: h)) as [[|tag classes attrs kids]|]; try reflexivity.
  simpl. by rewrite !andb_true_r.
Qed.

Lemma querySelectorAll_class_elem (scope h : Handle) (name : string) :
  h ∈ querySelectorAll doc scope
        {| subject := {| isScope := false; typeName := None; classNames := [name] |};
           context := [] |} →
  isElement doc h ∧ classListContains doc h name = true.
Proof.
  intros Hin. split; [by destruct (querySelectorAll_below doc _ _ _ Hin) as (? & ? & ? & ?)|].
  apply querySelectorAll_elem in Hin as (n & s & _ & _ & _ & Hm).
  rewrite matches_class in Hm. by destruct h.
Qed.

(** No element of the class is found from the document node only if the
    document has none. *)
Lemma querySelector_class_None (h : Handle) (name : string) :
  querySelector doc []
    {| subject := {| isScope := false; typeName := None; classNames := [name] |};
       context := [] |} = None →
  isElement doc h → classListContains doc h name = false.
Proof.
  intros Hnone (Hne & tag & classes & attrs & kids & Hres).
  destruct (classListContains doc h name) eqn:Hclass; [|done]. exfalso.
  assert (h ∈ querySelectorAll doc []
            {| subject := {| isScope := false; typeName := None;
                             classNames := [name] |};
               context := [] |}) as Hin.
  { apply querySelectorAll_elem. exists doc, h. split_and!; try done.
    - by eapply descendants_complete.
    - rewrite matches_class. by destruct h. }
  unfold querySelector in Hnone.
  destruct (querySelectorAll doc [] _) as [|x l]; [by apply elem_of_nil in Hin|done].
Qed.

End RootFacts.

(** ** The view: the queries of root selection in terms of the tree *)

Section ViewFacts.

Local Abbreviation classSelector name :=
  {| subject := {| isScope := false; typeName := None; classNames := [name] |};
     context := [] |}.

Lemma filter_all {A : Type} (P : A → Prop) `{∀ x, Decision (P x)} (l : list A) :
  Forall P l → filter P l = l.
Proof. induction 1 as [|x l Hx _ IH]; [done|]. by rewrite filter_cons_True, IH. Qed.

Lemma filter_agree {A : Type} (P Q : A → Prop)
  `{∀ x, Decision (P x)} `{∀ x, Decision (Q x)} (l : list A) :
  (∀ x, x ∈ l → (P x ↔ Q x)) → filter P l = filter Q l.
Proof.
  induction l as [|x l IH]; intros HPQ; [done|].
  rewrite !filter_cons, IH by (intros y Hy; apply HPQ; by right).
  destruct (decide (P x)) as [HP|HP], (decide (Q x)) as [HQ|HQ]; try done.
  - destruct HQ. apply (HPQ x); [by left|done].
  - destruct HP. apply (HPQ x); [by left|done].
Qed.

Lemma inside_nil (h : Handle) : Spec.inside [] h = bool_decide (h ≠ []).
Proof. unfold Spec.inside. by destruct h. Qed.

Lemma inside_cons (j i : nat) (scope h : Handle) :
  Spec.inside (j :: scope) (i :: h) = bool_decide (i = j) && Spec.inside scope h.
Proof.
  unfold Spec.inside. simpl.
  destruct (decide (i = j)) as [->|Hne].
  - rewrite (bool_decide_eq_true_2 (j = j)) by done. simpl. f_equal.
    + apply bool_decide_ext. lia.
    + apply bool_decide_ext. split; [by intros [= ?]|by intros ->].
  - rewrite (bool_decide_eq_false_2 (i = j)) by done. simpl.
    rewrite (bool_decide_eq_false_2 (_ = j :: scope)); [by rewrite andb_false_r|].
    by intros [= ? _].
Qed.

Lemma inside_short (scope : Handle) (i : nat) (j : nat) :
  Spec.inside (j :: scope) [i] = false.
Proof. unfold Spec.inside. by destruct scope. Qed.

Lemma filter_inside_child (j i0 : nat) (scope : Handle) (l : list Handle) :
  filter (λ h, Spec.inside (j :: scope) h = true) ((cons i0 : Handle → Handle) <$> l)
  = if decide (i0 = j)
    then cons j <$> filter (λ h, Spec.inside scope h = true) l
    else [].
Proof.
  induction l as [|s l IHl].
  - by destruct (decide (i0 = j)).
  - rewrite fmap_cons, !filter_cons, inside_cons, IHl.
    destruct (decide (i0 = j)) as [->|Hne].
    + rewrite (bool_decide_eq_true_2 (j = j)) by done. simpl.
      by destruct (decide (Spec.inside scope s = true)).
    + by rewrite (bool_decide_eq_false_2 (i0 = j)) by done.
Qed.

(** The places inside child [j], among the places below the children. *)
Lemma filter_inside_childPlaces (j : nat) (scope : Handle) (i0 : nat)
  (kids : list Node) :
  filter (λ h, Spec.inside (j :: scope) h = true) (childPlaces descendants i0 kids)
  = if decide (i0 ≤ j)%nat
    then match kids !! (j - i0)%nat with
         | Some k =>
             cons j <$> filter (λ h, Spec.inside scope h = true) (descendants k)
         | None => []
         end
    else [].
Proof.
  revert i0. induction kids as [|k kids IH]; intros i0.
  - simpl. by destruct (decide (i0 ≤ j)%nat).
  - simpl. rewrite filter_cons, inside_short, decide_False by done.
    rewrite list.filter_app, IH, filter_inside_child.
    destruct (decide (i0 = j)) as [->|Hne].
    + rewrite (decide_False (P:=(S j ≤ j)%nat)) by lia.
      rewrite (decide_True (P:=(j ≤ j)%nat)) by lia.
      rewrite Nat.sub_diag. simpl. by rewrite app_nil_r.
    + destruct (decide (i0 ≤ j)%nat) as [Hle|Hgt].
      * rewrite (decide_True (P:=(S i0 ≤ j)%nat)) by lia. simpl.
        replace (j - i0)%nat with (S (j - S i0)) by lia. done.
      * by rewrite (decide_False (P:=(S i0 ≤ j)%nat)) by lia.
Qed.

(** The places of a tree inside a scope are those below the node at the
    scope. *)
Lemma filter_inside_descendants (m n : Node) (scope : Handle) :
  resolve m scope = Some n →
  filter (λ h, Spec.inside scope h = true) (descendants m)
  = (scope ++.) <$> descendants n.
Proof.
  revert m. induction scope as [|j scope IH]; intros m Hres.
  - injection Hres as ->. rewrite list_fmap_id. apply filter_all.
    apply list.Forall_forall. intros s Hs%descendants_nonempty.
    rewrite inside_nil. by apply bool_decide_eq_true_2.
  - destruct m as [data|tag classes attrs kids]; [done|]. simpl in Hres.
    destruct (kids !! j) as [k|] eqn:Hk; [|done].
    simpl descendants. rewrite filter_inside_childPlaces.
    rewrite decide_True, Nat.sub_0_r, Hk by lia.
    rewrite (IH k Hres), <- list_fmap_compose. done.
Qed.

Variable doc : Node.

(** [querySelectorAll] with a class selector: the elements of the class that
    lie inside the scope. *)
Lemma querySelectorAll_class (scope : Handle) (name : string) :
  is_Some (resolve doc scope) →
  querySelectorAll doc scope (classSelector name)
  = filter (λ h, Spec.inside scope h = true) (Spec.elementsOfClass doc name).
Proof.
  intros [n Hn]. unfold querySelectorAll, Spec.elementsOfClass. rewrite Hn.
  rewrite <- (filter_inside_descendants doc n scope Hn), !list_filter_filter.
  apply filter_agree. intros h Hh%descendants_nonempty.
  rewrite matches_class. destruct h; [done|]. tauto.
Qed.

Lemma querySelectorAll_document_class (name : string) :
  querySelectorAll doc [] (classSelector name) = Spec.elementsOfClass doc name.
Proof.
  rewrite querySelectorAll_class by (by eexists). apply filter_all.
  apply list.Forall_forall. intros h [_ Hh%descendants_nonempty]%list_elem_of_filter.
  rewrite inside_nil. by apply bool_decide_eq_true_2.
Qed.

Lemma elementsOfClass_elem (name : string) (h : Handle) :
  h ∈ Spec.elementsOfClass doc name
  ↔ isElement doc h ∧ classListContains doc h name = true.
Proof.
  unfold Spec.elementsOfClass. rewrite list_elem_of_filter. split.
  - intros [Hclass Hh]. split; [|done]. split; [by eapply descendants_nonempty|].
    unfold classListContains in Hclass.
    destruct (resolve doc h) as [[data|tag classes attrs kids]|]; try done.
    by repeat eexists.
  - intros [(Hne & tag & classes & attrs & kids & Hres) Hclass]. split; [done|].
    by eapply descendants_complete.
Qed.

(** Root selection without a scope, in terms of the view: the first element
    of the emulator class if there is one, else the last panel inside the
    first panels container. *)
Lemma determineRoot_document :
  determineRoot doc None
  = match head (Spec.elementsOfClass doc "Firestore-Field-List") with
    | Some root => (Some root, None)
    | None => (None, Spec.panelOfFirstContainer doc)
    end.
Proof.
  unfold determineRoot, querySelector, Spec.panelOfFirstContainer.
  change Sel.Firestore_Field_List with (classSelector "Firestore-Field-List").
  change Sel.panels_container with (classSelector "panels-container").
  change Sel.panel_container with (classSelector "panel-container").
  rewrite !querySelectorAll_document_class.
  destruct (head (Spec.elementsOfClass doc "Firestore-Field-List")); [done|].
  destruct (head (Spec.elementsOfClass doc "panels-container")) as [pc|] eqn:Hpc;
    [|done].
  simpl. rewrite querySelectorAll_class; [done|].
  apply head_Some_elem_of, elementsOfClass_elem in Hpc
    as [(_ & tag & classes & attrs & kids & Hres) _].
  by eexists.
Qed.

(** Root selection with a scope, in terms of the view. *)
Lemma determineRoot_scope (scope : Handle) :
  isElement doc scope →
  determineRoot doc (Some scope)
  = if classListContains doc scope "Firestore-Field-List" then (Some scope, None)
    else if classListContains doc scope "panel-container" then (None, Some scope)
    else match head (filter (λ h, Spec.inside scope h = true)
                       (Spec.elementsOfClass doc "Firestore-Field-List")) with
         | Some found => (Some found, None)
         | None => (None, Some scope)
         end.
Proof.
  intros (_ & tag & classes & attrs & kids & Hres).
  unfold determineRoot, querySelector.
  change Sel.Firestore_Field_List with (classSelector "Firestore-Field-List").
  by rewrite querySelectorAll_class by (by eexists).
Qed.

End ViewFacts.

(** C5, as stated, fails: a view whose only panel lies outside a panels
    container has a production scope, on which the call returns the document,
    yet the call without a scope raises the failure. *)
Lemma no_data_despite_open_panel :
  Spec.elementsOfClass Views.loosePanel "panel-container" = [[0; 0]%nat]
  ∧ getFirestoreJSON Views.loosePanel "/" None = Throw NO_DATA
  ∧ (∃ r, getFirestoreJSON Views.loosePanel "/" (Some [0; 0]%nat) = Return r
          ∧ docId r = "alice"
          ∧ data r = VObject [("alice", VObject [("name", VString "Alice")])])
  ∧ ¬ (getFirestoreJSON Views.loosePanel "/" None = Throw NO_DATA
       ↔ Spec.noSource Views.loosePanel None).
Proof.
  split_and!; [reflexivity|reflexivity|by eexists|].
  intros [Hthrows _]. by destruct (Hthrows eq_refl) as (_ & _ & Hpanels).
Qed.

(** C5, amended: for a scope that is null or an element of the document,
    getFirestoreJSON throws exactly when no scope is supplied, no element of
    the view bears the emulator class, and the first panels container of the
    view is missing or has no panel inside it; in every other case it returns
    a result with status ok whose data wraps the parsed fields under the
    identifier, which is the fixed placeholder when the production panel has
    no header label.  Malformations stay local: an absent container parses to
    the empty map or the empty array, a node or an item without a key element
    contributes nothing, an absent leaf value is Null, and an emulator map or
    array without its children container is empty.  Leaf coercion is a total
    function, so no leaf text aborts the parse. *)
Theorem getFirestoreJSON_fails_only_without_root (doc : Node) (pathname : string)
  (contextRoot : option Handle) :
  validScope doc contextRoot →
  (getFirestoreJSON doc pathname contextRoot = Throw NO_DATA
   ↔ contextRoot = None
     ∧ Spec.elementsOfClass doc "Firestore-Field-List" = []
     ∧ Spec.panelOfFirstContainer doc = None)
  ∧ (getFirestoreJSON doc pathname contextRoot = Throw NO_DATA
     ∨ ∃ r fields,
         getFirestoreJSON doc pathname contextRoot = Return r
         ∧ status r = "ok" ∧ data r = VObject [(docId r, VObject fields)])
  ∧ (∀ panel,
       (contextRoot = None
        ∧ Spec.elementsOfClass doc "Firestore-Field-List" = []
        ∧ Spec.panelOfFirstContainer doc = Some panel)
       ∨ (contextRoot = Some panel
          ∧ classListContains doc panel "Firestore-Field-List" = false
          ∧ (classListContains doc panel "panel-container" = true
             ∨ filter (λ h, Spec.inside panel h = true)
                 (Spec.elementsOfClass doc "Firestore-Field-List") = [])) →
       querySelector doc panel Sel.panel_header_label = None →
       ∃ r, getFirestoreJSON doc pathname contextRoot = Return r
            ∧ docId r = "UNKNOWN_DOCUMENT_ID")
  ∧ (∀ fuel,
       parseMap fuel doc None = Return emptyObject
       ∧ parseArray fuel doc None = Return emptyArray
       ∧ parseEmulatorContainer (S fuel) doc None = Return emptyObject)
  ∧ (∀ fuel node,
       isElement doc node →
       querySelector doc node Sel.database_key = None →
       parseNode (S fuel) doc node = Return emptyObject)
  ∧ (∀ self fields item,
       isElement doc item →
       querySelector doc item Sel.FieldPreview_key = None →
       emulatorItem doc self fields item = Return fields)
  ∧ (∀ element,
       isElement doc element →
       querySelector doc element Sel.database_leaf_value = None →
       leafValueOf doc element = VNull)
  ∧ (∀ self item keyElem typeElem,
       isElement doc item →
       querySelector doc item Sel.FieldPreview_key = Some keyElem →
       querySelector doc item Sel.FieldPreview_type = Some typeElem →
       nextElementSibling doc item = None →
       (trim (textContentOf doc typeElem) = "(array)" →
        emulatorField doc self item
        = Return (Some (trim (textContentOf doc keyElem), emptyArray)))
       ∧ (trim (textContentOf doc typeElem) = "(map)" →
          emulatorField doc self item
          = Return (Some (trim (textContentOf doc keyElem), emptyObject)))).
Proof.
  intros Hscope.
  pose proof (getFirestoreJSON_outcome doc pathname contextRoot) as Hout.
  split_and!.
  - destruct contextRoot as [scope|].
    + destruct (determineRoot_with_scope doc scope) as [[root Hroot]|Hroot];
        rewrite Hroot in Hout.
      * destruct Hout as (fields & _ & ->). by split; [|intros [? _]].
      * destruct Hout as (fields & ->). by split; [|intros [? _]].
    + rewrite determineRoot_document in Hout.
      destruct (Spec.elementsOfClass doc "Firestore-Field-List") as [|root l].
      * simpl in Hout. destruct (Spec.panelOfFirstContainer doc) as [panel|].
        -- destruct Hout as (fields & ->). by split; [|intros (_ & _ & ?)].
        -- by split.
      * simpl in Hout. destruct Hout as (fields & _ & ->).
        by split; [|intros (_ & ? & _)].
  - destruct (determineRoot doc contextRoot) as [[root|] [panel|]].
    + destruct Hout as (fields & _ & ->). right. by repeat eexists.
    + destruct Hout as (fields & _ & ->). right. by repeat eexists.
    + destruct Hout as (fields & ->). right. by repeat eexists.
    + by left.
  - intros panel Hpanel Hlabel.
    assert (determineRoot doc contextRoot = (None, Some panel)) as Hroot.
    { destruct Hpanel as [(-> & Hnone & Hpanel)|(-> & Hfield & Hpanel)].
      - by rewrite determineRoot_document, Hnone, Hpanel.
      - rewrite (determineRoot_scope doc panel Hscope), Hfield.
        destruct Hpanel as [->| ->]; [done|].
        by destruct (classListContains doc panel "panel-container"). }
    rewrite Hroot in Hout.
    destruct Hout as (fields & ->). rewrite Hlabel. by eexists.
  - by intros fuel.
  - intros fuel node _ Hkey. simpl. unfold parseNodeBody. by rewrite Hkey.
  - intros self fields item _ Hkey. unfold emulatorItem, emulatorField. by rewrite Hkey.
  - intros element _ Hleaf. unfold leafValueOf. by rewrite Hleaf.
  - intros self item keyElem typeElem _ Hkey Htype Hnext.
    unfold emulatorField. rewrite Hkey, Htype, Hnext. cbv zeta.
    split; by intros ->.
Qed.

Lemma getFirestoreJSON_fails_only_without_root_witness :
  getFirestoreJSON Sample.blankView "/" None = Throw NO_DATA
  ∧ ∃ r, getFirestoreJSON Sample.blankView "/" (Some [0%nat]) = Return r
         ∧ docId r = "UNKNOWN_DOCUMENT_ID".
Proof.
  split.
  - by apply (getFirestoreJSON_fails_only_without_root Sample.blankView "/" None).
  - destruct (getFirestoreJSON_fails_only_without_root
                Sample.blankView "/" (Some [0%nat])) as (_ & _ & Hid & _);
      [by apply isElementb_true|].
    apply (Hid [0%nat]); [|reflexivity].
    right. split_and!; [reflexivity|reflexivity|by right].
Defined.

(** C6: at the location /firestore/data/users/alice/ the parse under layout B
    returns the empty identifier, the text after the last slash, and wraps
    the fields under the empty key, where the last non-empty segment of the
    location is alice: the code takes the last segment of the split without
    skipping the empty ones. *)
Theorem emulator_docId_after_trailing_slash :
  ∃ r fields,
    getFirestoreJSON Sample.emulatorView "/firestore/data/users/alice/" None
    = Return r
    ∧ docId r = EmptyString
    ∧ data r = VObject [(EmptyString, VObject fields)]
    ∧ Spec.lastNonEmptySegment "/firestore/data/users/alice/" = Some "alice"
    ∧ Spec.lastNonEmptySegment "/firestore/data/users/alice/" ≠ Some (docId r).
Proof. do 2 eexists. split_and!; [reflexivity..|]. vm_compute. discriminate. Qed.

(** Where the location does not end in a slash, the identifier of a parse
    under layout B is the last non-empty segment of the location, whichever
    scope was parsed. *)
Lemma emulator_docId_last_segment (doc : Node) (pathname segment : string)
  (contextRoot : option Handle) (emulatorRoot : Handle) (other : option Handle) :
  determineRoot doc contextRoot = (Some emulatorRoot, other) →
  list.last (split "/" pathname) = Some segment →
  segment ≠ EmptyString →
  ∃ r, getFirestoreJSON doc pathname contextRoot = Return r
       ∧ docId r = segment
       ∧ Spec.lastNonEmptySegment pathname = Some (docId r).
Proof.
  intros Hroot Hlast Hne.
  pose proof (getFirestoreJSON_outcome doc pathname contextRoot) as Hout.
  rewrite Hroot in Hout. destruct Hout as (fields & _ & ->).
  eexists. split; [done|]. simpl. rewrite Hlast. split; [done|].
  by apply last_filter_Some_2.
Qed.

(** C8, as stated, fails: in a view with two panels containers the panel of
    the first container is parsed, not the last panel of the view. *)
Lemma first_container_panel_is_chosen :
  Spec.elementsOfClass Views.twoContainers "Firestore-Field-List" = []
  ∧ Spec.elementsOfClass Views.twoContainers "panel-container"
    = [[0; 0]%nat; [1; 0]%nat]
  ∧ Spec.lastOpenPanel Views.twoContainers = Some [1; 0]%nat
  ∧ determineRoot Views.twoContainers None = (None, Some [0; 0]%nat)
  ∧ determineRoot Views.twoContainers None
    ≠ (None, Spec.lastOpenPanel Views.twoContainers)
  ∧ (∃ r, getFirestoreJSON Views.twoContainers "/" None = Return r
          ∧ docId r = "first")
  ∧ (∃ r, getFirestoreJSON Views.twoContainers "/" (Some [1; 0]%nat) = Return r
          ∧ docId r = "second")
  ∧ getFirestoreJSON Views.twoContainers "/" None
    ≠ getFirestoreJSON Views.twoContainers "/" (Some [1; 0]%nat).
Proof.
  split_and!; try reflexivity; try (by eexists); by vm_compute.
Qed.

(** C8, amended: when no scope is supplied, the first element of the view
    that bears the layout-B class is chosen, wherever it is, and the result
    is the emulator parse of it under the last segment of the location; there
    is none only if no element of the view bears the class, and then the
    production panel is the last panel inside the first panels container of
    the view, which is the last panel of the whole view when every panel lies
    inside that container.  The result is then the fields of exactly that
    panel under its header label, as for the call on that panel, and without
    such a panel the call fails. *)
Theorem no_scope_root_selection (doc : Node) (pathname : string) :
  match head (Spec.elementsOfClass doc "Firestore-Field-List") with
  | Some root =>
      classListContains doc root "Firestore-Field-List" = true
      ∧ determineRoot doc None = (Some root, None)
      ∧ ∃ fields,
          parseEmulatorContainer (S (height doc)) doc (Some root)
          = Return (VObject fields)
          ∧ getFirestoreJSON doc pathname None
            = Return {| status := "ok";
                        docId := default "unknown_doc" (list.last (split "/" pathname));
                        data := VObject [(default "unknown_doc"
                                            (list.last (split "/" pathname)),
                                          VObject fields)] |}
  | None =>
      (∀ h, isElement doc h → classListContains doc h "Firestore-Field-List" = false)
      ∧ determineRoot doc None = (None, Spec.panelOfFirstContainer doc)
      ∧ ((∀ panel,
            panel ∈ Spec.elementsOfClass doc "panel-container" →
            ∃ panelsContainer,
              head (Spec.elementsOfClass doc "panels-container") = Some panelsContainer
              ∧ Spec.inside panelsContainer panel = true) →
         Spec.panelOfFirstContainer doc = Spec.lastOpenPanel doc)
      ∧ match Spec.panelOfFirstContainer doc with
        | Some panel =>
            classListContains doc panel "panel-container" = true
            ∧ ∃ fields,
                let label :=
                  match querySelector doc panel Sel.panel_header_label with
                  | Some docIdElement => trim (textContentOf doc docIdElement)
                  | None => "UNKNOWN_DOCUMENT_ID"
                  end in
                forEach (productionField doc (parseNode (S (height doc)) doc))
                  (querySelectorAll doc panel Sel.fs_animate_change_classes) []
                = Return fields
                ∧ getFirestoreJSON doc pathname None
                  = Return {| status := "ok"; docId := label;
                              data := VObject [(label, VObject fields)] |}
                ∧ getFirestoreJSON doc pathname None
                  = getFirestoreJSON doc pathname (Some panel)
        | None => getFirestoreJSON doc pathname None = Throw NO_DATA
        end
  end.
Proof.
  pose proof (determineRoot_document doc) as Hroot.
  destruct (head (Spec.elementsOfClass doc "Firestore-Field-List")) as [root|] eqn:Hhead.
  - apply head_Some_elem_of, elementsOfClass_elem in Hhead as [_ Hclass].
    split_and!; [done|done|].
    pose proof (getFirestoreJSON_outcome doc pathname None) as Hout.
    rewrite Hroot in Hout. destruct Hout as (fields & Hfields & Hresult).
    by exists fields.
  - assert (∀ h, isElement doc h
                 → classListContains doc h "Firestore-Field-List" = false) as Hno.
    { intros h Hel. apply head_None in Hhead.
      destruct (classListContains doc h "Firestore-Field-List") eqn:Hclass; [|done].
      assert (h ∈ Spec.elementsOfClass doc "Firestore-Field-List") as Hin
        by by apply elementsOfClass_elem.
      rewrite Hhead in Hin. by apply elem_of_nil in Hin. }
    split_and!; [done|done| |].
    + intros Hall. unfold Spec.panelOfFirstContainer, Spec.lastOpenPanel.
      destruct (head (Spec.elementsOfClass doc "panels-container"))
        as [panelsContainer|] eqn:Hpc; simpl.
      * f_equal. apply filter_all, list.Forall_forall. intros panel Hpanel.
        destruct (Hall panel Hpanel) as (pc & Hsome & Hinside). congruence.
      * destruct (Spec.elementsOfClass doc "panel-container") as [|panel l]; [done|].
        destruct (Hall panel) as (pc & Hsome & _); [by left|done].
    + destruct (Spec.panelOfFirstContainer doc) as [panel|] eqn:Hpanel.
      * assert (isElement doc panel
                ∧ classListContains doc panel "panel-container" = true)
          as [Hel Hclass].
        { unfold Spec.panelOfFirstContainer in Hpanel.
          destruct (head (Spec.elementsOfClass doc "panels-container")); [|done].
          simpl in Hpanel.
          apply last_Some_elem_of, list_elem_of_filter in Hpanel as [_ Hpanel].
          by apply elementsOfClass_elem. }
        split; [done|].
        destruct (forEach_Return
                    (productionField doc (parseNode (S (height doc)) doc))
                    (querySelectorAll doc panel Sel.fs_animate_change_classes) [])
          as [fields Hfields].
        { intros a x _. apply productionField_returns. }
        exists fields. cbv zeta. split; [done|].
        assert (determineRoot doc (Some panel) = (None, Some panel)) as Hsome.
        { unfold determineRoot. by rewrite (Hno panel Hel), Hclass. }
        unfold getFirestoreJSON, getFirestoreJSONWith.
        rewrite Hroot, Hsome. cbv zeta. by rewrite Hfields.
      * unfold getFirestoreJSON, getFirestoreJSONWith. by rewrite Hroot.
Qed.

Lemma no_scope_root_selection_witness :
  determineRoot Sample.productionView None = (None, Some [0%nat; 1%nat])
  ∧ Spec.lastOpenPanel Sample.productionView = Some [0%nat; 1%nat]
  ∧ getFirestoreJSON Sample.productionView "/" None
    = getFirestoreJSON Sample.productionView "/" (Some [0%nat; 1%nat]).
Proof.
  pose proof (no_scope_root_selection Sample.productionView "/") as H.
  change (head (Spec.elementsOfClass Sample.productionView "Firestore-Field-List"))
    with (@None Handle) in H.
  destruct H as (_ & Hroot & _ & Hpanel).
  change (Spec.panelOfFirstContainer Sample.productionView)
    with (Some [0%nat; 1%nat]) in Hroot, Hpanel.
  destruct Hpanel as (_ & fields & _ & _ & Hsame).
  split_and!; [exact Hroot|reflexivity|exact Hsame].
Defined.

(** ** Duplicate keys *)

Section LastWrite.
Import JSObject.

Local Abbreviation write := Spec.write.

Lemma find_app {A : Type} (p : A → bool) (l1 l2 : list A) :
  List.find p (l1 ++ l2)
  = match List.find p l1 with Some x => Some x | None => List.find p l2 end.
Proof. induction l1 as [|x l1 IH]; simpl; [done|]. by destruct (p x). Qed.

Lemma lastWrite_cons (key : string) (entry : string * Value)
  (entries : list (string * Value)) :
  Spec.lastWrite key (entry :: entries)
  = match Spec.lastWrite key entries with
    | Some v => Some v
    | None => if bool_decide (entry.1 = key) then Some entry.2 else None
    end.
Proof.
  unfold Spec.lastWrite. rewrite reverse_cons, find_app.
  destruct (List.find _ (reverse entries)); [done|]. simpl.
  by destruct (bool_decide (entry.1 = key)).
Qed.

(** The entry that declares [key] last gives its value. *)
Lemma lastWrite_later (key : string) (v : Value) (before after : list (string * Value)) :
  key ∉ after.*1 → Spec.lastWrite key (before ++ (key, v) :: after) = Some v.
Proof.
  intros Hafter. induction before as [|entry before IH].
  - simpl. rewrite lastWrite_cons. simpl. rewrite bool_decide_eq_true_2 by done.
    assert (Spec.lastWrite key after = None) as ->; [|done].
    induction after as [|[k w] after IHafter]; [done|].
    rewrite lastWrite_cons. apply not_elem_of_cons in Hafter as [Hne Hafter].
    rewrite IHafter by done. simpl. by rewrite bool_decide_eq_false_2.
  - simpl. by rewrite lastWrite_cons, IH.
Qed.

Lemma lookup_set (key key' : string) (v : Value) (props : Props) :
  lookup key' (set key v props)
  = if bool_decide (key = key') then Some v else lookup key' props.
Proof.
  case_bool_decide as Hk.
  - subst. apply lookup_set_eq.
  - by apply lookup_set_ne.
Qed.

Lemma lookup_fold_write (key : string) (entries : list (string * Value))
  (props : Props) :
  lookup key (fold_left write entries props)
  = match Spec.lastWrite key entries with
    | Some v => Some v
    | None => lookup key props
    end.
Proof.
  revert props. induction entries as [|entry entries IH]; intros props; [done|].
  simpl. rewrite IH, lastWrite_cons. unfold Spec.write. rewrite lookup_set.
  destruct (Spec.lastWrite key entries); [done|].
  by destruct (bool_decide (entry.1 = key)).
Qed.

Lemma NoDup_fold_write (entries : list (string * Value)) (props : Props) :
  NoDup props.*1 → NoDup (fold_left write entries props).*1.
Proof.
  revert props. induction entries as [|entry entries IH]; intros props Hnd; [done|].
  simpl. apply IH. by apply NoDup_set.
Qed.

Lemma fold_assign (parsed : list Value) (props : Props) :
  fold_left assign parsed props = fold_left write (parsed ≫= entries) props.
Proof.
  revert props. induction parsed as [|p parsed IH]; intros props; [done|].
  rewrite bind_cons, fold_left_app. change (fold_left assign (p :: parsed) props)
    with (fold_left assign parsed (assign props p)).
  by rewrite IH.
Qed.

Lemma forEach_app {A B : Type} (f : A → B → Outcome A) (l1 l2 : list B) (acc : A) :
  forEach f (l1 ++ l2) acc = forEach f l1 acc ≫= forEach f l2.
Proof.
  revert acc. induction l1 as [|x l1 IH]; intros acc; simpl; [done|].
  destruct (f acc x) as [acc'| |]; simpl; [apply IH|done|done].
Qed.

(** A loop over the trees with a loop over the nodes of each is one loop
    over all the nodes. *)
Lemma forEach_nested {A B C : Type} (f : A → C → Outcome A) (g : B → list C)
  (l : list B) (acc : A) :
  forEach (λ acc x, forEach f (g x) acc) l acc = forEach f (l ≫= g) acc.
Proof.
  revert acc. induction l as [|x l IH]; intros acc; [done|].
  simpl forEach at 1. rewrite bind_cons, forEach_app.
  destruct (forEach f (g x) acc) as [acc'| |]; simpl; [apply IH|done|done].
Qed.

Lemma forEach_results {A B C : Type} (f : B → Outcome C) (step : A → C → A)
  (l : list B) (results : list C) (acc : A) :
  Forall2 (λ x y, f x = Return y) l results →
  forEach (λ acc x, y ← f x; Return (step acc y)) l acc
  = Return (fold_left step results acc).
Proof.
  intros Hres. revert acc. induction Hres as [|x y l results Hxy _ IH]; intros acc.
  - done.
  - simpl. rewrite Hxy. simpl. apply IH.
Qed.

Lemma results_exist {B C : Type} (f : B → Outcome C) (l : list B) :
  (∀ x, x ∈ l → ∃ y, f x = Return y) →
  ∃ results, Forall2 (λ x y, f x = Return y) l results.
Proof.
  induction l as [|x l IH]; intros Hf.
  - exists []. constructor.
  - destruct (Hf x) as [y Hy]; [apply list_elem_of_here|].
    destruct IH as [results Hres].
    { intros z Hz. apply Hf. by apply list_elem_of_further. }
    exists (y :: results). by constructor.
Qed.

Lemma fold_fields (fields : list (option (string * Value))) (props : Props) :
  fold_left (λ data field,
               match field with
               | Some (key, val) => set key val data
               | None => data
               end) fields props
  = fold_left write (omap id fields) props.
Proof.
  revert props. induction fields as [|[[key val]|] fields IH]; intros props;
    simpl; [done|apply IH|apply IH].
Qed.

Lemma lastWrite_is_Some (key : string) (entries : list (string * Value)) :
  is_Some (Spec.lastWrite key entries) ↔ key ∈ entries.*1.
Proof.
  induction entries as [|[k v] entries IH].
  - split; [by intros []|by intros ?%elem_of_nil].
  - rewrite lastWrite_cons, fmap_cons, elem_of_cons, <- IH. simpl.
    destruct (Spec.lastWrite key entries) as [w|].
    + split; [right|]; by eexists.
    + case_bool_decide as Hk.
      * split; [by left|by eexists].
      * split; [by intros []|]. by intros [?|[]].
Qed.

(** Writing what the entries of a container declare, in their order: the
    map has the declared keys, each once, and under a key the value of the
    last entry that declares it. *)
Lemma declared_last_write {A : Type} (keyOf : A → option string)
  (items : list A) (fields : list (option (string * Value))) :
  Forall2 (λ item field, fst <$> field = keyOf item) items fields →
  NoDup (fold_left write (omap id fields) []).*1
  ∧ (∀ key, key ∈ (fold_left write (omap id fields) []).*1
            ↔ ∃ item, item ∈ items ∧ keyOf item = Some key)
  ∧ ∀ before item after key,
      items = before ++ item :: after →
      keyOf item = Some key →
      (∀ later, later ∈ after → keyOf later ≠ Some key) →
      ∃ v, fields !! length before = Some (Some (key, v))
           ∧ lookup key (fold_left write (omap id fields) []) = Some v.
Proof.
  intros Hfields. split_and!.
  - apply NoDup_fold_write. constructor.
  - intros key. rewrite <- lookup_is_Some, lookup_fold_write.
    transitivity (key ∈ (omap id fields).*1).
    { rewrite <- lastWrite_is_Some.
      destruct (Spec.lastWrite key (omap id fields)); [done|].
      split; by intros []. }
    clear -Hfields. induction Hfields as [|item field items fields Hkey _ IH].
    + split; [by intros ?%elem_of_nil|]. by intros (item & ?%elem_of_nil & _).
    + destruct field as [[k v]|]; simpl in *.
      * rewrite elem_of_cons, IH. split.
        -- intros [->|(item' & Hin & Hitem')].
           ++ exists item. split; [apply list_elem_of_here|done].
           ++ exists item'. split; [by apply list_elem_of_further|done].
        -- intros (item' & [->|Hin]%elem_of_cons & Hitem').
           ++ left. congruence.
           ++ right. by exists item'.
      * rewrite IH. split.
        -- intros (item' & Hin & Hitem'). exists item'.
           split; [by apply list_elem_of_further|done].
        -- intros (item' & [->|Hin]%elem_of_cons & Hitem'); [congruence|].
           by exists item'.
  - intros before item after key -> Hitem Hlater.
    apply Forall2_app_inv_l in Hfields as (fbefore & frest & Hbefore & Hrest & ->).
    apply Forall2_cons_inv_l in Hrest as (field & fafter & Hfield & Hafter & ->).
    rewrite Hitem in Hfield. destruct field as [[k v]|]; [|done].
    injection Hfield as ->. exists v.
    pose proof Hbefore as Hlen. apply Forall2_length in Hlen. rewrite Hlen. split.
    + by rewrite lookup_app_r, Nat.sub_diag.
    + rewrite lookup_fold_write, omap_app. simpl.
      rewrite lastWrite_later; [done|].
      clear -Hafter Hlater. induction Hafter as [|later field after fafter Hkey _ IH].
      * apply not_elem_of_nil.
      * assert (key ∉ (omap id fafter).*1) as Hrest.
        { apply IH. intros later' Hin. by apply Hlater, list_elem_of_further. }
        destruct field as [[k w]|]; simpl in *; [|done].
        apply not_elem_of_cons. split; [|done].
        intros ->. by apply (Hlater later (list_elem_of_here _ _)).
Qed.

End LastWrite.

Section LastWriteClaims.
Import JSObject.
Variable doc : Node.

Lemma nodesOf_below (databaseChildren node : Handle) :
  node ∈ Spec.nodesOf doc databaseChildren → below doc databaseChildren node.
Proof.
  unfold Spec.nodesOf. intros (dataTree & Hnode & Htree)%list_elem_of_bind.
  eapply below_trans; by eapply querySelectorAll_below.
Qed.

Lemma parseMap_fold (fuel : nat) (databaseChildren : Handle) (parsed : list Value) :
  Forall2 (λ node p, parseNode fuel doc node = Return p)
    (Spec.nodesOf doc databaseChildren) parsed →
  parseMap fuel doc (Some databaseChildren)
  = Return (VObject (fold_left Spec.write (parsed ≫= entries) [])).
Proof.
  intros Hparsed. unfold parseMap, parseMapWith.
  rewrite (forEach_nested
             (λ mapResult nodeElement,
                parsedObj ← parseNode fuel doc nodeElement;
                Return (assign mapResult parsedObj))
             (λ dataTree, querySelectorAll doc dataTree Sel.scope_database_node)).
  change (querySelectorAll doc databaseChildren Sel.scope_data_tree
          ≫= λ dataTree, querySelectorAll doc dataTree Sel.scope_database_node)
    with (Spec.nodesOf doc databaseChildren).
  rewrite (forEach_results (parseNode fuel doc) assign _ parsed) by done.
  simpl. by rewrite fold_assign.
Qed.

Lemma parseEmulatorContainer_fold (fuel : nat) (container : Handle)
  (fields : list (option (string * Value))) :
  Forall2 (λ item field,
             emulatorField doc (parseEmulatorContainer fuel doc) item = Return field)
    (querySelectorAll doc container Sel.scope_li_FieldPreview) fields →
  parseEmulatorContainer (S fuel) doc (Some container)
  = Return (VObject (fold_left Spec.write (omap id fields) [])).
Proof.
  intros Hfields. simpl. unfold emulatorItem.
  rewrite (forEach_results
             (emulatorField doc (parseEmulatorContainer fuel doc))
             (λ data field,
                match field with
                | Some (key, val) => set key val data
                | None => data
                end) _ fields) by done.
  simpl. by rewrite fold_fields.
Qed.

(** What parseNode returns for a node: an object with the key the node
    declares, or the empty object when it declares none. *)
Lemma parseNode_declares (fuel : nat) (node : Handle) (parsed : Value) :
  parseNode fuel doc node = Return parsed →
  ∃ field, parsed = VObject (option_list field)
           ∧ fst <$> field = Spec.nodeKey doc node.
Proof.
  destruct fuel as [|fuel]; [done|]. simpl. unfold parseNodeBody, Spec.nodeKey.
  destruct (querySelector doc node Sel.database_key) as [keySpan|].
  - cbv zeta. destruct (if bool_decide _ then _ else _) as [value| |]; [|done..].
    simpl. intros [= <-]. by eexists (Some (_, _)).
  - intros [= <-]. by exists None.
Qed.

Lemma parsed_fields (fuel : nat) (nodes : list Handle) (parsed : list Value) :
  Forall2 (λ node p, parseNode fuel doc node = Return p) nodes parsed →
  ∃ fields,
    Forall2 (λ node field,
               parseNode fuel doc node = Return (VObject (option_list field))
               ∧ fst <$> field = Spec.nodeKey doc node) nodes fields
    ∧ parsed ≫= entries = omap id fields.
Proof.
  induction 1 as [|node p nodes parsed Hp _ (fields & Hfields & Hentries)].
  - by exists [].
  - destruct (parseNode_declares fuel node p Hp) as (field & -> & Hkey).
    exists (field :: fields). split; [by constructor|].
    rewrite bind_cons, Hentries. destruct field as [[key v]|]; [|done].
    change (option_list (Some (key, v))) with [(key, v)].
    by rewrite entries_singleton.
Qed.

Lemma emulatorField_key (self : option Handle → Outcome Value) (item : Handle)
  (field : option (string * Value)) :
  emulatorField doc self item = Return field →
  fst <$> field = Spec.itemKey doc item.
Proof.
  unfold emulatorField, Spec.itemKey.
  destruct (querySelector doc item Sel.FieldPreview_key) as [keyElem|].
  - cbv zeta. destruct (if _ || _ then _ else _) as [val| |]; [|done..].
    simpl. by intros [= <-].
  - by intros [= <-].
Qed.

End LastWriteClaims.

(** C7: in a container of either layout, an element of the document parsed
    with a budget that covers its height, the entries being the nodes of a
    layout-A container and the items of a layout-B container, in document
    order, and the key an entry declares the trimmed text of its key element
    (none declaring __proto__, which would set no property): the keys of
    the resulting map are the declared keys, pairwise distinct, and under
    each key the map holds the value of the last entry that declares it,
    which is the value that parseNode, or the field reader, gives for that
    entry. *)
Theorem duplicate_keys_last_write_wins (doc : Node) (fuel : nat)
  (databaseChildren container : Handle) :
  isElement doc databaseChildren → isElement doc container →
  (heightAt doc databaseChildren <= fuel)%nat →
  (heightAt doc container <= fuel)%nat →
  (∀ node, node ∈ Spec.nodesOf doc databaseChildren →
           Spec.nodeKey doc node ≠ Some "__proto__") →
  (∀ item, item ∈ querySelectorAll doc container Sel.scope_li_FieldPreview →
           Spec.itemKey doc item ≠ Some "__proto__") →
  (∃ mapResult,
     parseMap fuel doc (Some databaseChildren) = Return (VObject mapResult)
     ∧ NoDup mapResult.*1
     ∧ (∀ key, key ∈ mapResult.*1
               ↔ ∃ node, node ∈ Spec.nodesOf doc databaseChildren
                         ∧ Spec.nodeKey doc node = Some key)
     ∧ ∀ before node after key,
         Spec.nodesOf doc databaseChildren = before ++ node :: after →
         Spec.nodeKey doc node = Some key →
         (∀ later, later ∈ after → Spec.nodeKey doc later ≠ Some key) →
         ∃ v, parseNode fuel doc node = Return (VObject [(key, v)])
              ∧ JSObject.lookup key mapResult = Some v)
  ∧ (∃ data,
       parseEmulatorContainer (S fuel) doc (Some container) = Return (VObject data)
       ∧ NoDup data.*1
       ∧ (∀ key, key ∈ data.*1
                 ↔ ∃ item,
                     item ∈ querySelectorAll doc container Sel.scope_li_FieldPreview
                     ∧ Spec.itemKey doc item = Some key)
       ∧ ∀ before item after key,
           querySelectorAll doc container Sel.scope_li_FieldPreview
           = before ++ item :: after →
           Spec.itemKey doc item = Some key →
           (∀ later, later ∈ after → Spec.itemKey doc later ≠ Some key) →
           ∃ v, emulatorField doc (parseEmulatorContainer fuel doc) item
                = Return (Some (key, v))
                ∧ JSObject.lookup key data = Some v).
Proof.
  intros _ _ HfuelA HfuelB _ _. split.
  - destruct (results_exist (parseNode fuel doc) (Spec.nodesOf doc databaseChildren))
      as [parsed Hparsed].
    { intros node Hnode%nodesOf_below. apply parseNode_returns.
      pose proof (below_heightAt doc _ _ Hnode). lia. }
    destruct (parsed_fields doc fuel _ parsed Hparsed) as (fields & Hfields & Hentries).
    destruct (declared_last_write (Spec.nodeKey doc)
                (Spec.nodesOf doc databaseChildren) fields)
      as (Hnd & Hkeys & Hlast).
    { eapply list.Forall2_impl; [exact Hfields|]. by intros node field [_ ?]. }
    exists (fold_left Spec.write (omap id fields) []).
    split_and!; [|done|done|].
    + by rewrite (parseMap_fold doc fuel databaseChildren parsed Hparsed), Hentries.
    + intros before node after key Hnodes Hkey Hlater.
      destruct (Hlast before node after key Hnodes Hkey Hlater) as (v & Hfield & Hv).
      exists v. split; [|done].
      assert (Spec.nodesOf doc databaseChildren !! length before = Some node) as Hnode.
      { rewrite Hnodes. by rewrite lookup_app_r, Nat.sub_diag. }
      by destruct (Forall2_lookup_lr _ _ _ _ _ _ Hfields Hnode Hfield).
  - destruct (results_exist (emulatorField doc (parseEmulatorContainer fuel doc))
                (querySelectorAll doc container Sel.scope_li_FieldPreview))
      as [fields Hfields].
    { intros item Hitem%querySelectorAll_below. apply emulatorField_returns.
      intros next Hnext.
      destruct (parseEmulatorContainer_returns doc fuel (Some next)) as [data ->];
        [|by eexists].
      pose proof (below_heightAt doc _ _ (below_sibling doc _ _ _ Hitem Hnext)).
      simpl. lia. }
    destruct (declared_last_write (Spec.itemKey doc)
                (querySelectorAll doc container Sel.scope_li_FieldPreview) fields)
      as (Hnd & Hkeys & Hlast).
    { eapply list.Forall2_impl; [exact Hfields|].
      intros item field. apply emulatorField_key. }
    exists (fold_left Spec.write (omap id fields) []).
    split_and!; [by apply parseEmulatorContainer_fold|done|done|].
    intros before item after key Hitems Hkey Hlater.
    destruct (Hlast before item after key Hitems Hkey Hlater) as (v & Hfield & Hv).
    exists v. split; [|done].
    assert (querySelectorAll doc container Sel.scope_li_FieldPreview
              !! length before = Some item) as Hitem.
    { rewrite Hitems. by rewrite lookup_app_r, Nat.sub_diag. }
    exact (Forall2_lookup_lr _ _ _ _ _ _ Hfields Hitem Hfield).
Qed.

(** The two containers of the sample tree, in each of which the key k is
    declared twice: the map holds the later value. *)
Lemma duplicate_keys_last_write_wins_witness :
  (∃ mapResult,
     parseMap 5 Sample.bothLayouts (Some [0%nat]) = Return (VObject mapResult)
     ∧ JSObject.lookup "k" mapResult = Some (VString "second"))
  ∧ (∃ data,
       parseEmulatorContainer 6 Sample.bothLayouts (Some [1%nat])
       = Return (VObject data)
       ∧ JSObject.lookup "k" data = Some (VNumber (Finite false 2 0))).
Proof.
  destruct (duplicate_keys_last_write_wins Sample.bothLayouts 5 [0%nat] [1%nat])
    as [(mapResult & HparseA & _ & _ & HlastA) (data & HparseB & _ & _ & HlastB)].
  - by apply isElementb_true.
  - by apply isElementb_true.
  - vm_compute. lia.
  - vm_compute. lia.
  - apply list.Forall_forall. by repeat constructor.
  - apply list.Forall_forall. by repeat constructor.
  - split.
    + exists mapResult. split; [exact HparseA|].
      destruct (HlastA [[0%nat; 0%nat; 0%nat]; [0%nat; 0%nat; 1%nat]]
                  [0%nat; 0%nat; 2%nat] [] "k") as (v & Hv & ->);
        [reflexivity|reflexivity|by intros later ?%elem_of_nil|].
      vm_compute in Hv. by injection Hv as <-.
    + exists data. split; [exact HparseB|].
      destruct (HlastB [[1%nat; 0%nat]; [1%nat; 1%nat]] [1%nat; 2%nat] [] "k")
        as (v & Hv & ->);
        [reflexivity|reflexivity|by intros later ?%elem_of_nil|].
      vm_compute in Hv. by injection Hv as <-.
Defined.

(** The two containers of the sample: the key k holds the later value. *)
Example last_write_wins_on_sample :
  parseMap 5 Sample.bothLayouts (Some [0%nat])
  = Return (VObject [("k", VString "second"); ("j", VString "other")])
  ∧ parseEmulatorContainer 6 Sample.bothLayouts (Some [1%nat])
    = Return (VObject [("k", VNumber (Finite false 2 0)); ("j", VBool true)]).
Proof. split; reflexivity. Qed.

(** * Further properties of the code *)

(** ** Trimming *)

Section TrimFacts.

Lemma append_empty_r (s : string) : s +:+ EmptyString = s.
Proof. induction s as [|c s IH]; [done|]. by rewrite append_String, IH. Qed.

Lemma rev_append (s t : string) :
  String.rev (s +:+ t) = String.rev t +:+ String.rev s.
Proof.
  induction s as [|c s IH].
  - by rewrite append_empty, append_empty_r.
  - by rewrite append_String, !rev_String, IH, append_assoc.
Qed.

Lemma rev_involutive (s : string) : String.rev (String.rev s) = s.
Proof.
  induction s as [|c s IH]; [done|].
  by rewrite rev_String, rev_append, IH.
Qed.

Lemma rev_empty (s : string) : String.rev s = EmptyString → s = EmptyString.
Proof. intros H. by rewrite <- (rev_involutive s), H. Qed.

(** A text is blank when trimming its start leaves nothing. *)
Lemma trim_blank (s : string) : trim s = EmptyString ↔ trimStart s = EmptyString.
Proof.
  unfold trim, trimEnd. split.
  - intros H%rev_empty.
    assert (∀ t, trimStart (String.rev t) = EmptyString →
                 trimStart t = t → t = EmptyString) as Hblank.
    { intros [|c t]; [done|]. rewrite rev_String. simpl.
      destruct (isWhiteSpace c) eqn:Hc.
      - intros _ Ht. exfalso.
        assert (∀ u, String.length (trimStart u) <= String.length u)%nat as Hlen.
        { induction u as [|d u IHu]; simpl; [done|].
          destruct (isWhiteSpace d); simpl; lia. }
        pose proof (Hlen t) as Hle. rewrite Ht in Hle. simpl in Hle. lia.
      - intros Hrev _. exfalso. revert Hrev.
        generalize (String.rev t). intros u. induction u as [|d u IHu]; simpl.
        + by rewrite Hc.
        + by destruct (isWhiteSpace d). }
    apply Hblank; [done|]. clear.
    induction s as [|c s IHs]; simpl; [done|].
    destruct (isWhiteSpace c) eqn:Hc; [by apply IHs|]. simpl. by rewrite Hc.
  - by intros ->.
Qed.

Lemma trimStart_blank_append (a s : string) :
  trimStart a = EmptyString → trimStart (a +:+ s) = trimStart s.
Proof.
  induction a as [|c a IH]; [done|]. simpl.
  destruct (isWhiteSpace c); [apply IH|done].
Qed.

Lemma trimStart_append (s b : string) :
  trimStart s ≠ EmptyString → trimStart (s +:+ b) = trimStart s +:+ b.
Proof.
  induction s as [|c s IH]; [done|]. simpl.
  destruct (isWhiteSpace c); [apply IH|done].
Qed.

Lemma trimEnd_blank_append (s b : string) :
  trimStart b = EmptyString → trimEnd (s +:+ b) = trimEnd s.
Proof.
  intros Hb. unfold trimEnd. rewrite rev_append. f_equal.
  apply trimStart_blank_append.
  assert (∀ u, trimStart u = EmptyString → trimStart (String.rev u) = EmptyString)
    as Hrev; [|by apply Hrev].
  induction u as [|c u IH]; [done|]. simpl.
  destruct (isWhiteSpace c) eqn:Hc; [|done].
  intros Hu. rewrite rev_String, trimStart_blank_append by by apply IH.
  simpl. by rewrite Hc.
Qed.

(** White space around a text does not survive [trim]. *)
Lemma trim_padded (a s b : string) :
  trim a = EmptyString → trim b = EmptyString → trim (a +:+ s +:+ b) = trim s.
Proof.
  intros Ha%trim_blank Hb%trim_blank. unfold trim.
  rewrite trimStart_blank_append by done.
  destruct (decide (trimStart s = EmptyString)) as [Hs|Hs].
  - by rewrite trimStart_blank_append, Hb, Hs.
  - rewrite trimStart_append by done. by apply trimEnd_blank_append.
Qed.

(** A text that starts and ends with a code unit that is no white space is
    its own trimmed form. *)


(** A text that starts and ends with a code unit that is no white space is
    its own trimmed form. *)
Lemma trim_delimited (c d : ascii) (mid : string) :
  isWhiteSpace c = false → isWhiteSpace d = false →
  trim (String c (mid +:+ String d EmptyString))
  = String c (mid +:+ String d EmptyString).
Proof.
  intros Hc Hd. unfold trim. simpl. rewrite Hc. unfold trimEnd.
  rewrite rev_String, rev_append. simpl. rewrite Hd.
  by rewrite rev_String, rev_append, append_empty, rev_involutive.
Qed.

Lemma trim_quoted (s : string) :
  trim (DQUOTE +:+ s +:+ DQUOTE) = DQUOTE +:+ s +:+ DQUOTE.
Proof. by apply trim_delimited. Qed.

End TrimFacts.

(** ** Leaf coercion: what survives it *)

Section LeafFacts.

Lemma quoted_String (s : string) :
  DQUOTE +:+ s +:+ DQUOTE = String "034" (s +:+ DQUOTE).
Proof. reflexivity. Qed.

Lemma startsWith_quoted (s : string) : startsWith (DQUOTE +:+ s +:+ DQUOTE) DQUOTE = true.
Proof. by rewrite startsWith_quote. Qed.

Lemma endsWith_quoted (s : string) : endsWith (DQUOTE +:+ s +:+ DQUOTE) DQUOTE = true.
Proof.
  unfold endsWith. rewrite !rev_append. change (String.rev DQUOTE) with DQUOTE.
  rewrite append_assoc. unfold DQUOTE at 1 2. rewrite append_String, prefix_String.
  destruct (ascii_dec "034" "034"); [apply prefix_empty|done].
Qed.

(** Between its quotes, the code's quote stripping finds the text. *)
Lemma strip_quoted (s : string) :
  (if startsWith (trim (DQUOTE +:+ s +:+ DQUOTE)) DQUOTE
      && endsWith (trim (DQUOTE +:+ s +:+ DQUOTE)) DQUOTE
   then slice (trim (DQUOTE +:+ s +:+ DQUOTE)) 1 (-1)
   else trim (DQUOTE +:+ s +:+ DQUOTE)) = s.
Proof.
  rewrite trim_quoted, startsWith_quoted, endsWith_quoted. simpl andb.
  cbv iota. rewrite quoted_String. apply slice_quoted.
Qed.

Lemma chars_append (s t : string) :
  list_ascii_of_string (s +:+ t) = list_ascii_of_string s ++ list_ascii_of_string t.
Proof. induction s as [|c s IH]; [done|]. simpl. by rewrite IH. Qed.

Lemma chars_rev (s : string) :
  list_ascii_of_string (String.rev s) = reverse (list_ascii_of_string s).
Proof.
  induction s as [|c s IH]; [done|].
  rewrite rev_String, chars_append, IH. simpl. by rewrite reverse_cons.
Qed.

Lemma trimStart_no_space (s : string) :
  Forall (λ c, isWhiteSpace c = false) (list_ascii_of_string s) → trimStart s = s.
Proof.
  destruct s as [|c s]; [done|]. simpl. intros Hs.
  apply Forall_cons_1 in Hs as [-> _]. done.
Qed.

(** A text without white space is its own trimmed form. *)
Lemma trim_no_space (s : string) :
  Forall (λ c, isWhiteSpace c = false) (list_ascii_of_string s) → trim s = s.
Proof.
  intros Hs. unfold trim, trimEnd. rewrite (trimStart_no_space s Hs).
  rewrite trimStart_no_space, rev_involutive; [done|].
  rewrite chars_rev. by apply Forall_reverse.
Qed.

End LeafFacts.

(** ** Integer texts *)

Section IntegerTexts.

Local Abbreviation isDigitUnit := (λ c : ascii, ∃ d, 0 <= d < 10 ∧ c = digitUnit d).

Lemma digit_cases (d : Z) :
  0 <= d < 10 →
  d = 0 ∨ d = 1 ∨ d = 2 ∨ d = 3 ∨ d = 4 ∨ d = 5 ∨ d = 6 ∨ d = 7 ∨ d = 8 ∨ d = 9.
Proof. lia. Qed.

Lemma digitsOf_chars (fuel : nat) (n : Z) (acc : string) :
  0 <= n →
  Forall isDigitUnit (list_ascii_of_string acc) →
  Forall isDigitUnit (list_ascii_of_string (digitsOf fuel n acc)).
Proof.
  revert n acc. induction fuel as [|fuel IH]; intros n acc Hn Hacc; [done|].
  simpl. assert (Forall isDigitUnit
                   (list_ascii_of_string (String (digitUnit (n mod 10)) acc))) as Hacc'.
  { simpl. constructor; [|done]. exists (n mod 10). split; [|done].
    Z.div_mod_to_equations; lia. }
  destruct (n / 10 =? 0); [done|]. apply IH; [|done].
  Z.div_mod_to_equations; lia.
Qed.

Lemma digit_no_space (c : ascii) : isDigitUnit c → isWhiteSpace c = false.
Proof.
  intros (d & Hd & ->). pose proof (digit_cases d Hd) as Hcases.
  by repeat destruct Hcases as [->|Hcases]; subst.
Qed.

(** The decimal digits of a natural number, read as a decimal literal. *)
Lemma StrUnsignedDecimalLiteral_digits (negative : bool) (fuel : nat) (n : Z) :
  0 <= n < 10 ^ Z.of_nat (S fuel) →
  StrUnsignedDecimalLiteral negative (digitsOf (S fuel) n EmptyString)
  = Finite negative n 0.
Proof.
  intros Hn. unfold StrUnsignedDecimalLiteral.
  destruct (spanDigits_digitsOf fuel n EmptyString Hn) as (count & Hc & Hspan).
  destruct (digitsOf_head fuel n EmptyString) as (d & s & Hd & Hhead); [lia|].
  rewrite bool_decide_eq_false_2.
  - rewrite Hspan. simpl. by rewrite bool_decide_eq_true_2.
  - rewrite Hhead. pose proof (digit_cases d Hd) as Hcases.
    by repeat destruct Hcases as [->|Hcases]; subst.
Qed.

Lemma Number_digits (fuel : nat) (n : Z) :
  0 <= n < 10 ^ Z.of_nat (S fuel) →
  Number (digitsOf (S fuel) n EmptyString) = Finite false n 0
  ∧ Number (String "-" (digitsOf (S fuel) n EmptyString)) = Finite true n 0.
Proof.
  intros Hn.
  pose proof (digitsOf_chars (S fuel) n EmptyString (proj1 Hn) (Forall_nil _)) as Hchars.
  destruct (digitsOf_head fuel n EmptyString) as (d & s & Hd & Hhead); [lia|].
  assert (Forall (λ c, isWhiteSpace c = false)
            (list_ascii_of_string (digitsOf (S fuel) n EmptyString))) as Hns.
  { eapply list.Forall_impl; [exact Hchars|]. intros c Hc. by apply digit_no_space. }
  unfold Number. split.
  - rewrite trim_no_space by done.
    rewrite <- (StrUnsignedDecimalLiteral_digits false fuel n Hn).
    rewrite Hhead in Hchars |- *.
    destruct s as [|c s].
    + pose proof (digit_cases d Hd) as Hcases.
      by repeat destruct Hcases as [->|Hcases]; subst.
    + apply Forall_cons_1 in Hchars as [_ Hchars].
      apply Forall_cons_1 in Hchars as [(e & He & ->) _].
      pose proof (digit_cases d Hd) as Hcases. pose proof (digit_cases e He) as Hcases'.
      repeat destruct Hcases as [->|Hcases]; subst;
        by repeat destruct Hcases' as [->|Hcases']; subst.
  - rewrite trim_no_space.
    + by rewrite <- (StrUnsignedDecimalLiteral_digits true fuel n Hn).
    + simpl. by constructor.
Qed.

(** Number reads the spelling of an integer back. *)
Lemma Number_ToString (n : Z) : Number (ToString n) = Finite (n <? 0) (Z.abs n) 0.
Proof.
  unfold ToString. destruct (Z.ltb_spec n 0) as [Hneg|Hpos].
  - destruct (Number_digits (Z.to_nat (Z.log2 (- n))) (- n)) as [_ H].
    { split; [lia|]. apply digits_budget. lia. }
    rewrite H. f_equal. lia.
  - destruct (Number_digits (Z.to_nat (Z.log2 n)) n) as [H _].
    { split; [lia|]. by apply digits_budget. }
    rewrite H. f_equal. lia.
Qed.

End IntegerTexts.

(** ** Leaf coercion: round trips *)

(** X1: The quoted display of a text is read back as that text exactly when
    the text is no keyword in any letter case and is empty or not numeric; a
    quoted keyword or number is coerced as if it had no quotes. *)
Theorem parseLeafValue_quoted_text (s : string) :
  (parseLeafValue (DQUOTE +:+ s +:+ DQUOTE) = VString s
   ↔ toLowerCase s ≠ "true" ∧ toLowerCase s ≠ "false" ∧ toLowerCase s ≠ "null"
     ∧ (isNaN (Number s) = true ∨ s = EmptyString))
  ∧ (toLowerCase s = "true" → parseLeafValue (DQUOTE +:+ s +:+ DQUOTE) = VBool true)
  ∧ (toLowerCase s = "false" → parseLeafValue (DQUOTE +:+ s +:+ DQUOTE) = VBool false)
  ∧ (toLowerCase s = "null" → parseLeafValue (DQUOTE +:+ s +:+ DQUOTE) = VNull)
  ∧ (toLowerCase s ≠ "true" → toLowerCase s ≠ "false" → toLowerCase s ≠ "null" →
     isNaN (Number s) = false → s ≠ EmptyString →
     parseLeafValue (DQUOTE +:+ s +:+ DQUOTE) = VNumber (Number s)).
Proof.
  unfold parseLeafValue. cbv zeta. rewrite (strip_quoted s).
  split_and!.
  - repeat case_bool_decide; try (split; [done|by intros (? & ? & ? & ?)]).
    + rewrite andb_false_r. split; [by auto|done].
    + destruct (isNaN (Number s)); simpl.
      * split; [by auto|done].
      * split; [done|]. by intros (_ & _ & _ & [|]).
  - intros ->. done.
  - intros ->. done.
  - intros ->. done.
  - intros Ht Hf Hn -> He.
    by rewrite !bool_decide_eq_false_2 by done.
Qed.

(** X2: A text between double-quotes under the label (string), in any letter
    case, is read back as the text inside, whatever it contains: keywords,
    numbers, quotes and surrounding white space are kept. *)
Theorem parseEmulatorLeafValue_quoted_text (s type : string) :
  toLowerCase type = "(string)" →
  parseEmulatorLeafValue (Some (DQUOTE +:+ s +:+ DQUOTE)) (Some type) = VString s.
Proof.
  intros Htype. unfold parseEmulatorLeafValue. cbv zeta. simpl default.
  rewrite Htype. simpl.
  pose proof (strip_quoted s) as Hstrip.
  by destruct (startsWith (trim (DQUOTE +:+ s +:+ DQUOTE)) DQUOTE
               && endsWith (trim (DQUOTE +:+ s +:+ DQUOTE)) DQUOTE); rewrite Hstrip.
Qed.

Lemma parseEmulatorLeafValue_quoted_text_witness :
  parseEmulatorLeafValue (Some (DQUOTE +:+ " true " +:+ DQUOTE)) (Some "(String)")
  = VString " true ".
Proof. apply (parseEmulatorLeafValue_quoted_text " true " "(String)"). reflexivity. Defined.

(** X3: White space around the text changes nothing: both coercions see the
    trimmed text only. *)
Theorem leaf_coercion_ignores_padding (a s b : string) (type : option string) :
  trim a = EmptyString → trim b = EmptyString →
  parseLeafValue (a +:+ s +:+ b) = parseLeafValue s
  ∧ parseEmulatorLeafValue (Some (a +:+ s +:+ b)) type
    = parseEmulatorLeafValue (Some s) type.
Proof.
  intros Ha Hb. unfold parseLeafValue, parseEmulatorLeafValue.
  by rewrite (trim_padded a s b Ha Hb).
Qed.

Lemma leaf_coercion_ignores_padding_witness :
  parseLeafValue ("  " +:+ "12" +:+ " ") = parseLeafValue "12"
  ∧ parseEmulatorLeafValue (Some ("  " +:+ "12" +:+ " ")) (Some "(number)")
    = parseEmulatorLeafValue (Some "12") (Some "(number)").
Proof.
  apply (leaf_coercion_ignores_padding "  " "12" " " (Some "(number)")); reflexivity.
Defined.

Section IntegerLeaves.

Lemma ToString_chars (n : Z) :
  ∃ c rest, ToString n = String c rest
    ∧ (c = "-"%char ∨ ∃ d, 0 <= d < 10 ∧ c = digitUnit d)
    ∧ Forall (λ c, isWhiteSpace c = false) (list_ascii_of_string (ToString n)).
Proof.
  unfold ToString. destruct (Z.ltb_spec n 0) as [Hneg|Hpos].
  - eexists _, _. split_and!; [done|by left|].
    apply (Forall_cons_2 (λ c, isWhiteSpace c = false) "-"%char); [done|].
    eapply list.Forall_impl; [apply digitsOf_chars; [lia|constructor]|].
    intros c Hc. by apply digit_no_space.
  - destruct (digitsOf_head (Z.to_nat (Z.log2 n)) n EmptyString) as (d & s & Hd & Hhead);
      [done|].
    exists (digitUnit d), s. split_and!; [done|right; by exists d|].
    eapply list.Forall_impl; [apply digitsOf_chars; [lia|constructor]|].
    intros c Hc. by apply digit_no_space.
Qed.

(** The untyped coercion of a text that starts with a digit or a minus sign,
    has no white space and is numeric. *)
Lemma parseLeafValue_numeric (s rest : string) (c : ascii) :
  s = String c rest →
  c = "-"%char ∨ (∃ d, 0 <= d < 10 ∧ c = digitUnit d) →
  Forall (λ c, isWhiteSpace c = false) (list_ascii_of_string s) →
  isNaN (Number s) = false →
  parseLeafValue s = VNumber (Number s).
Proof.
  intros -> Hc Hns Hnum. unfold parseLeafValue. cbv zeta.
  rewrite (trim_no_space _ Hns), startsWith_quote.
  assert (Spec.isQuote c = false
          ∧ toLowerUnit c ≠ "t"%char ∧ toLowerUnit c ≠ "f"%char
          ∧ toLowerUnit c ≠ "n"%char) as (Hq & Ht & Hf & Hn).
  { destruct Hc as [->|(d & Hd & ->)]; [done|].
    pose proof (digit_cases d Hd) as Hcases.
    by repeat destruct Hcases as [->|Hcases]; subst. }
  rewrite Hq. simpl andb. cbv iota. rewrite Hnum. simpl toLowerCase.
  by rewrite !bool_decide_eq_false_2 by congruence.
Qed.

End IntegerLeaves.

(** X4: The decimal spelling of an exact integer is read back as that integer
    by both coercions, and by the untyped one also when the spelling is
    quoted. *)
Theorem leaf_coercion_reads_integers (n : Z) :
  exact n →
  parseLeafValue (ToString n) = VNumber (Finite (n <? 0) (Z.abs n) 0)
  ∧ parseLeafValue (DQUOTE +:+ ToString n +:+ DQUOTE)
    = VNumber (Finite (n <? 0) (Z.abs n) 0)
  ∧ parseEmulatorLeafValue (Some (ToString n)) (Some "(number)")
    = VNumber (Finite (n <? 0) (Z.abs n) 0).
Proof.
  intros _.
  destruct (ToString_chars n) as (c & rest & Hshape & Hc & Hns).
  assert (parseLeafValue (ToString n) = VNumber (Finite (n <? 0) (Z.abs n) 0)) as Hplain.
  { rewrite (parseLeafValue_numeric _ rest c Hshape Hc Hns), Number_ToString; [done|].
    by rewrite Number_ToString. }
  split_and!; [done| |].
  - rewrite <- Hplain. unfold parseLeafValue. cbv zeta.
    rewrite (strip_quoted (ToString n)), (trim_no_space _ Hns), startsWith_quote, Hshape.
    destruct Hc as [->|(d & Hd & ->)]; [done|].
    pose proof (digit_cases d Hd) as Hcases.
    by repeat destruct Hcases as [->|Hcases]; subst.
  - unfold parseEmulatorLeafValue. cbv zeta.
    rewrite (trim_no_space _ Hns), Number_ToString. reflexivity.
Qed.

Lemma leaf_coercion_reads_integers_witness :
  parseLeafValue "-42" = VNumber (Finite true 42 0)
  ∧ parseLeafValue (DQUOTE +:+ "-42" +:+ DQUOTE) = VNumber (Finite true 42 0)
  ∧ parseEmulatorLeafValue (Some "-42") (Some "(number)")
    = VNumber (Finite true 42 0).
Proof. apply (leaf_coercion_reads_integers (-42)). by vm_compute. Defined.

(** ** Array reconstruction: order and missing keys *)

Section ReconstructionFacts.
Import JSObject.

Lemma lookup_elem_NoDup (key : string) (v : Value) (props : Props) :
  NoDup props.*1 → (key, v) ∈ props → lookup key props = Some v.
Proof.
  induction props as [|[k w] props IH]; [by intros _ ?%elem_of_nil|].
  intros [Hk Hnd]%list.NoDup_cons [Heq|Hin]%elem_of_cons; simpl.
  - injection Heq as -> ->. by rewrite bool_decide_eq_true_2.
  - rewrite bool_decide_eq_false_2; [by apply IH|].
    intros ->. apply Hk. apply list_elem_of_fmap. by exists (key, v).
Qed.

(** Among distinct keys, a lookup does not depend on the order of the
    properties. *)
Lemma lookup_Permutation (key : string) (props props' : Props) :
  NoDup props.*1 → props ≡ₚ props' → lookup key props = lookup key props'.
Proof.
  intros Hnd Hperm.
  assert (NoDup props'.*1) as Hnd' by (by rewrite <- Hperm).
  destruct (lookup key props) as [v|] eqn:Hl.
  - symmetry. apply lookup_elem_NoDup; [done|].
    rewrite <- Hperm. by apply lookup_Some_elem.
  - destruct (lookup key props') as [v|] eqn:Hl'; [|done].
    apply lookup_Some_elem in Hl'. rewrite <- Hperm in Hl'.
    by rewrite (lookup_elem_NoDup _ _ _ Hnd Hl') in Hl.
Qed.

End ReconstructionFacts.

(** X5: The array that convertMapToArray returns does not depend on the order
    in which the entries of the mapping were declared. *)
Theorem convertMapToArray_order_independent (props props' : JSObject.Props) :
  NoDup props.*1 → props ≡ₚ props' →
  convertMapToArray (VObject props) = convertMapToArray (VObject props').
Proof.
  intros Hnd Hperm.
  rewrite !convertMapToArray_elements, !sortedKeys_props.
  rewrite (merge_sort_Permutation_eq (omap parseInt props.*1) (omap parseInt props'.*1))
    by (by rewrite Hperm).
  f_equal. apply list_fmap_ext. intros _ i _. simpl.
  by rewrite (lookup_Permutation _ props props').
Qed.

Lemma convertMapToArray_order_independent_witness :
  convertMapToArray (VObject [("1", Sample.A); ("0", Sample.B)])
  = convertMapToArray (VObject [("0", Sample.B); ("1", Sample.A)]).
Proof.
  apply convertMapToArray_order_independent.
  - apply NoDup_cons_2; [|apply NoDup_singleton].
    intros Hin%list_elem_of_singleton. discriminate Hin.
  - apply perm_swap.
Defined.

(** X6: In a mapping with keys whose integers are exact, for every key that
    parseInt reads as [n] the output holds the value stored under the
    canonical spelling of [n]; when no property is spelled so (the key being
    01, or 1px), it holds undefined instead. *)
Theorem convertMapToArray_missing_canonical_key (props : JSObject.Props)
  (key : string) (n : Z) :
  exactKeys props.*1 →
  key ∈ props.*1 → parseInt key = Some n →
  ∃ elements,
    convertMapToArray (VObject props) = VArray elements []
    ∧ (∀ v, JSObject.lookup (ToString n) props = Some v → Some v ∈ elements)
    ∧ (ToString n ∉ props.*1 → Some VUndefined ∈ elements).
Proof.
  intros _ Hkey Hparse. eexists. split; [apply convertMapToArray_elements|].
  assert (n ∈ sortedKeys (VObject props)) as Hn.
  { rewrite sortedKeys_Permutation. apply list_elem_of_omap. by exists key. }
  split.
  - intros v Hv. apply list_elem_of_fmap. exists n. split; [|done].
    simpl. by rewrite Hv.
  - intros Hnot. apply list_elem_of_fmap. exists n. split; [|done].
    simpl. destruct (JSObject.lookup (ToString n) props) as [v|] eqn:Hl; [|done].
    exfalso. apply Hnot. apply lookup_is_Some. by eexists.
Qed.

Lemma convertMapToArray_missing_canonical_key_witness :
  ∃ elements,
    convertMapToArray (VObject [("01", Sample.A)]) = VArray elements []
    ∧ Some VUndefined ∈ elements.
Proof.
  destruct (convertMapToArray_missing_canonical_key [("01", Sample.A)] "01" 1)
    as (elements & Heq & _ & Hundef).
  - constructor; [|constructor]. intros n [= <-]. by vm_compute.
  - apply list_elem_of_here.
  - reflexivity.
  - exists elements. split; [exact Heq|]. apply Hundef.
    intros Hin%list_elem_of_singleton. discriminate Hin.
Defined.

(** ** Root selection with a scope *)

(** X7: A scope that bears neither root marker and has a field list below it
    gives what the first such field list gives as the scope: the call is
    redirected to it. A scope that is itself a field list is the emulator
    root, and a panel container is the production panel even when a field list
    lies below it. *)
Theorem getFirestoreJSON_scope_redirects (doc : Node) (pathname : string)
  (scope : Handle) :
  isElement doc scope →
  (classListContains doc scope "Firestore-Field-List" = true →
   determineRoot doc (Some scope) = (Some scope, None))
  ∧ (classListContains doc scope "Firestore-Field-List" = false →
     classListContains doc scope "panel-container" = true →
     determineRoot doc (Some scope) = (None, Some scope))
  ∧ (∀ list,
       classListContains doc scope "Firestore-Field-List" = false →
       classListContains doc scope "panel-container" = false →
       querySelector doc scope Sel.Firestore_Field_List = Some list →
       below doc scope list
       ∧ determineRoot doc (Some scope) = (Some list, None)
       ∧ getFirestoreJSON doc pathname (Some scope)
         = getFirestoreJSON doc pathname (Some list)).
Proof.
  intros _. unfold getFirestoreJSON, getFirestoreJSONWith, determineRoot.
  split_and!.
  - by intros ->.
  - by intros -> ->.
  - intros list -> -> Hlist. rewrite Hlist.
    destruct (querySelectorAll_class_elem doc _ _ _ (querySelector_elem doc _ _ _ Hlist))
      as [_ ->].
    split_and!; [|done..]. by eapply querySelector_below.
Qed.

Lemma getFirestoreJSON_scope_redirects_witness :
  getFirestoreJSON Sample.emulatorView "/doc" (Some [0%nat])
  = getFirestoreJSON Sample.emulatorView "/doc" (Some [0%nat; 0%nat]).
Proof.
  destruct (getFirestoreJSON_scope_redirects Sample.emulatorView "/doc" [0%nat])
    as (_ & _ & Hredirect); [by apply isElementb_true|].
  apply (Hredirect [0%nat; 0%nat]); reflexivity.
Defined.

(** ** Positional assignment in parseArray *)

Section ArrayAssignment.
Import JSObject.

Lemma length_setElement (i : nat) (v : Value) (l : list (option Value)) :
  length (JSArray.setElement i v l) = (length l `max` S i)%nat.
Proof.
  revert l. induction i as [|i IH]; intros [|e l]; simpl; try done.
  - lia.
  - by rewrite IH.
  - by rewrite IH.
Qed.

Lemma lookup_setElement_eq (i : nat) (v : Value) (l : list (option Value)) :
  JSArray.setElement i v l !! i = Some (Some v).
Proof. revert l. induction i as [|i IH]; intros [|e l]; simpl; try done; apply IH. Qed.

(** Setting one element leaves the values at the other indices as they
    are; the positions it adds in between are holes. *)
Lemma lookup_setElement_ne (i j : nat) (v w : Value) (l : list (option Value)) :
  i ≠ j → JSArray.setElement i v l !! j = Some (Some w) ↔ l !! j = Some (Some w).
Proof.
  revert j l. induction i as [|i IH]; intros [|j] [|e l] Hne; simpl; try done.
  - rewrite IH by lia. done.
  - apply IH. lia.
Qed.

(** The loop body of parseArray for one entry. *)
Local Abbreviation step :=
  (λ (resultArray : Value) (entry : string * Value),
     match parseInt entry.1 with
     | Some index => JSArray.set index entry.2 resultArray
     | None => resultArray
     end).

Lemma fold_assignEntries (parsed : list Value) (resultArray : Value) :
  fold_left assignEntries parsed resultArray
  = fold_left step (parsed ≫= entries) resultArray.
Proof.
  revert resultArray. induction parsed as [|p parsed IH]; intros resultArray; [done|].
  rewrite bind_cons, fold_left_app. simpl. by rewrite IH.
Qed.

Lemma step_VArray (entry : string * Value) (elements : list (option Value))
  (props : Props) :
  ∃ elements' props',
    step (VArray elements props) entry = VArray elements' props'
    ∧ (∀ j w, parseInt entry.1 ≠ Some (Z.of_nat j) →
         elements' !! j = Some (Some w) ↔ elements !! j = Some (Some w))
    ∧ (∀ j w, elements' !! j = Some (Some w) →
         elements !! j = Some (Some w)
         ∨ (parseInt entry.1 = Some (Z.of_nat j) ∧ w = entry.2))
    ∧ (∀ i, parseInt entry.1 = Some i → 0 <= i < 2 ^ 32 - 1 →
         elements' !! Z.to_nat i = Some (Some entry.2))
    ∧ (∀ n, (n < length elements')%nat ↔
         (n < length elements)%nat
         ∨ ∃ i, parseInt entry.1 = Some i ∧ 0 <= i < 2 ^ 32 - 1
                ∧ (n <= Z.to_nat i)%nat).
Proof.
  destruct (parseInt entry.1) as [index|] eqn:Hparse; simpl.
  - rewrite Hparse. unfold JSArray.set.
    destruct ((0 <=? index) && (index <? 2 ^ 32 - 1)) eqn:Hrange.
    + apply andb_true_iff in Hrange as [Hlow%Z.leb_le Hhigh%Z.ltb_lt].
      eexists _, _. split_and!; [done| | | |].
      * intros j w Hj. apply lookup_setElement_ne. intros <-. apply Hj.
        f_equal. lia.
      * intros j w Hw. destruct (decide (Z.to_nat index = j)) as [<-|Hne].
        -- right. rewrite lookup_setElement_eq in Hw. injection Hw as <-.
           split; [f_equal; lia|done].
        -- left. by apply (lookup_setElement_ne _ _ entry.2 w _ Hne).
      * intros i [= <-] _. apply lookup_setElement_eq.
      * intros n. rewrite length_setElement. split.
        -- intros Hn. destruct (decide (n < length elements)%nat); [by left|].
           right. exists index. split_and!; [done|lia|lia|lia].
        -- intros [Hn|(i & [= <-] & _ & Hn)]; lia.
    + eexists _, _. split_and!; [done|done|by left| |].
      * intros i [= <-] Hi. exfalso.
        apply andb_false_iff in Hrange as [?%Z.leb_gt|?%Z.ltb_ge]; lia.
      * intros n. split; [by left|]. intros [Hn|(i & [= <-] & Hi & _)]; [done|].
        exfalso. apply andb_false_iff in Hrange as [?%Z.leb_gt|?%Z.ltb_ge]; lia.
  - rewrite Hparse. eexists _, _. split_and!; [done|done|by left|done|].
    intros n. split; [by left|]. by intros [Hn|(i & ? & _)].
Qed.

(** What the loop leaves in the array, from the entries it ran over. *)
Lemma fold_step (es : list (string * Value)) (elements : list (option Value))
  (props : Props) :
  ∃ elements' props',
    fold_left step es (VArray elements props) = VArray elements' props'
    ∧ (∀ j w, (∀ key, key ∈ es.*1 → parseInt key ≠ Some (Z.of_nat j)) →
         elements' !! j = Some (Some w) ↔ elements !! j = Some (Some w))
    ∧ (∀ before key v after i,
         es = before ++ (key, v) :: after →
         parseInt key = Some i → 0 <= i < 2 ^ 32 - 1 →
         (∀ key', key' ∈ after.*1 → parseInt key' ≠ Some i) →
         elements' !! Z.to_nat i = Some (Some v))
    ∧ (∀ j w, elements' !! j = Some (Some w) →
         elements !! j = Some (Some w)
         ∨ ∃ key, (key, w) ∈ es ∧ parseInt key = Some (Z.of_nat j))
    ∧ (∀ n, (n < length elements')%nat ↔
         (n < length elements)%nat
         ∨ ∃ key i, key ∈ es.*1 ∧ parseInt key = Some i ∧ 0 <= i < 2 ^ 32 - 1
                    ∧ (n <= Z.to_nat i)%nat).
Proof.
  revert elements props. induction es as [|entry es IH]; intros elements props.
  - exists elements, props. split_and!; [done|done| |by left|].
    + intros before key v after i Hes. by destruct before.
    + intros n. split; [by left|]. intros [Hn|(key & i & Hin%elem_of_nil & _)]; done.
  - destruct (step_VArray entry elements props)
      as (elements1 & props1 & Hstep & Hkeep1 & Horigin1 & Hset1 & Hlen1).
    destruct (IH elements1 props1)
      as (elements' & props' & Hfold & Hkeep & Hlast & Horigin & Hlen).
    exists elements', props'. split_and!.
    + cbn [fold_left]. by rewrite Hstep.
    + intros j w Hnone. rewrite Hkeep, Hkeep1; [done| |].
      * apply Hnone. rewrite fmap_cons. apply list_elem_of_here.
      * intros key Hkey. apply Hnone. rewrite fmap_cons. by apply list_elem_of_further.
    + intros before key v after i Hes Hparse Hrange Hafter.
      destruct before as [|b before].
      * injection Hes as -> ->. apply Hkeep.
        -- intros key' Hkey'. rewrite Z2Nat.id by lia. by apply Hafter.
        -- by apply (Hset1 i).
      * injection Hes as -> ->. by apply (Hlast before key v after i).
    + intros j w Hw. destruct (Horigin j w Hw) as [Hw1|(key & Hin & Hparse)].
      * destruct (Horigin1 j w Hw1) as [?|[Hparse ->]]; [by left|].
        right. exists entry.1. split; [|done].
        destruct entry. apply list_elem_of_here.
      * right. exists key. split; [by apply list_elem_of_further|done].
    + intros n. rewrite Hlen, Hlen1. split.
      * intros [[Hn|(i & Hparse & Hrange & Hn)]|(key & i & Hin & Hrest)].
        -- by left.
        -- right. exists entry.1, i. split; [|done].
           rewrite fmap_cons. apply list_elem_of_here.
        -- right. exists key, i. split; [|done].
           rewrite fmap_cons. by apply list_elem_of_further.
      * intros [Hn|(key & i & Hin & Hparse & Hrest)]; [by left; left|].
        rewrite fmap_cons in Hin. apply elem_of_cons in Hin as [->|Hin].
        -- left. right. by exists i.
        -- right. by exists key, i.
Qed.



End ArrayAssignment.

Section ParseArrayFacts.
Variable doc : Node.

Lemma parseArray_fold (fuel : nat) (databaseChildren : Handle) (parsed : list Value) :
  Forall2 (λ node p, parseNode fuel doc node = Return p)
    (Spec.nodesOf doc databaseChildren) parsed →
  parseArray fuel doc (Some databaseChildren)
  = Return (fold_left (assignEntries) parsed emptyArray).
Proof.
  intros Hparsed. unfold parseArray, parseArrayWith.
  rewrite (forEach_nested
             (λ resultArray nodeElement,
                parsedObj ← parseNode fuel doc nodeElement;
                Return (assignEntries resultArray parsedObj))
             (λ dataTree, querySelectorAll doc dataTree Sel.scope_database_node)).
  change (querySelectorAll doc databaseChildren Sel.scope_data_tree
          ≫= λ dataTree, querySelectorAll doc dataTree Sel.scope_database_node)
    with (Spec.nodesOf doc databaseChildren).
  by rewrite (forEach_results (parseNode fuel doc) assignEntries _ parsed).
Qed.

End ParseArrayFacts.

(** X8: In an array container, an element of the document parsed with a budget
    that covers its height, every node is parsed and the entries are assigned
    by position: the element at an index in [0, 2^32 - 2] is the value of the
    last entry, in traversal order, whose key parseInt reads as that index; an
    element that is set comes from such an entry, so every other position is a
    hole; and the length is one more than the greatest such index. *)
Theorem parseArray_assigns_by_position (doc : Node) (fuel : nat)
  (databaseChildren : Handle) :
  isElement doc databaseChildren →
  (heightAt doc databaseChildren <= fuel)%nat →
  ∃ parsed elements props,
    Forall2 (λ node p, parseNode fuel doc node = Return p)
      (Spec.nodesOf doc databaseChildren) parsed
    ∧ parseArray fuel doc (Some databaseChildren) = Return (VArray elements props)
    ∧ (∀ before key v after i,
         parsed ≫= JSObject.entries = before ++ (key, v) :: after →
         parseInt key = Some i → 0 <= i < 2 ^ 32 - 1 →
         (∀ key', key' ∈ after.*1 → parseInt key' ≠ Some i) →
         elements !! Z.to_nat i = Some (Some v))
    ∧ (∀ j w, elements !! j = Some (Some w) →
         ∃ key, (key, w) ∈ parsed ≫= JSObject.entries
                ∧ parseInt key = Some (Z.of_nat j))
    ∧ (∀ n, (n < length elements)%nat ↔
         ∃ key i, key ∈ (parsed ≫= JSObject.entries).*1
                  ∧ parseInt key = Some i ∧ 0 <= i < 2 ^ 32 - 1
                  ∧ (n <= Z.to_nat i)%nat).
Proof.
  intros _ Hfuel.
  destruct (results_exist (parseNode fuel doc) (Spec.nodesOf doc databaseChildren))
    as [parsed Hparsed].
  { intros node Hnode%nodesOf_below. apply parseNode_returns.
    pose proof (below_heightAt doc _ _ Hnode). lia. }
  destruct (fold_step (parsed ≫= JSObject.entries) [] [])
    as (elements & props & Hfold & _ & Hlast & Horigin & Hlen).
  exists parsed, elements, props. split_and!; [done| |done| |].
  - rewrite (parseArray_fold doc fuel databaseChildren parsed Hparsed).
    by rewrite fold_assignEntries, <- Hfold.
  - intros j w Hw. by destruct (Horigin j w Hw).
  - intros n. rewrite Hlen. simpl. split; [|by right].
    intros [?|?]; [lia|done].
Qed.

Lemma parseArray_assigns_by_position_witness :
  let doc := Views.repeatedIndex in
  ∃ parsed elements props,
    Forall2 (λ node p, parseNode 5 doc node = Return p) (Spec.nodesOf doc [0%nat]) parsed
    ∧ parseArray 5 doc (Some [0%nat]) = Return (VArray elements props)
    ∧ (∀ before key v after i,
         parsed ≫= JSObject.entries = before ++ (key, v) :: after →
         parseInt key = Some i → 0 <= i < 2 ^ 32 - 1 →
         (∀ key', key' ∈ after.*1 → parseInt key' ≠ Some i) →
         elements !! Z.to_nat i = Some (Some v))
    ∧ (∀ j w, elements !! j = Some (Some w) →
         ∃ key, (key, w) ∈ parsed ≫= JSObject.entries
                ∧ parseInt key = Some (Z.of_nat j))
    ∧ (∀ n, (n < length elements)%nat ↔
         ∃ key i, key ∈ (parsed ≫= JSObject.entries).*1
                  ∧ parseInt key = Some i ∧ 0 <= i < 2 ^ 32 - 1
                  ∧ (n <= Z.to_nat i)%nat).
Proof.
  apply (parseArray_assigns_by_position Views.repeatedIndex 5 [0%nat]);
    [by apply isElementb_true|vm_compute; lia].
Defined.

(** The container of the witness: the keys 1 and 01 are the same position,
    which holds the later value; the positions 0 and 2 are holes. *)
Example parseArray_on_repeated_index :
  parseArray 5 Views.repeatedIndex (Some [0%nat])
  = Return (VArray [None; Some (VString "again"); None; Some (VString "three")] []).
Proof. reflexivity. Qed.

Section ParseArrayClaims.
Import JSObject.




End ParseArrayClaims.

(** ** The fields of a production panel *)

Section PanelFacts.
Import JSObject.
Variable doc : Node.
Variable parseNode : Handle → Outcome Value.

(** The callback of the field loop writes into the data object what it
    writes into an empty one: no field, or one. *)
Lemma productionField_declares (dataObject : Props) (element : Handle) :
  productionField doc parseNode dataObject element
  = (declared ← productionField doc parseNode [] element;
     Return (fold_left Spec.write declared dataObject))
  ∧ ∀ declared,
      productionField doc parseNode [] element = Return declared →
      (length declared <= 1)%nat.
Proof.
  unfold productionField.
  destruct (querySelector doc element Sel.database_key) as [keySpan|].
  - cbv zeta. destruct (if bool_decide _ then _ else _) as [value| |]; simpl.
    + split; [done|]. by intros declared [= <-].
    + done.
    + done.
  - split; [done|]. intros declared [= <-]. simpl. lia.
Qed.

Lemma forEach_productionField (elements : list Handle) (declared : list Props)
  (dataObject : Props) :
  Forall2 (λ element fields, productionField doc parseNode [] element = Return fields)
    elements declared →
  forEach (productionField doc parseNode) elements dataObject
  = Return (fold_left Spec.write (concat declared) dataObject).
Proof.
  intros Hdeclared. revert dataObject.
  induction Hdeclared as [|element fields elements declared Hfields _ IH];
    intros dataObject; [done|].
  simpl. rewrite (proj1 (productionField_declares dataObject element)), Hfields.
  simpl. by rewrite IH, fold_left_app.
Qed.

(** What the callback writes for an element: the key the element declares,
    or nothing when it declares none. *)
Lemma productionField_key (element : Handle) (declared : Props) :
  productionField doc parseNode [] element = Return declared →
  ∃ field, declared = option_list field
           ∧ fst <$> field = Spec.nodeKey doc element.
Proof.
  unfold productionField, Spec.nodeKey.
  destruct (querySelector doc element Sel.database_key) as [keySpan|].
  - cbv zeta. destruct (if bool_decide _ then _ else _) as [value| |]; [|done..].
    simpl. intros [= <-]. by eexists (Some (_, _)).
  - intros [= <-]. by exists None.
Qed.

Lemma declared_fields (elements : list Handle) (declared : list Props) :
  Forall2 (λ element fields, productionField doc parseNode [] element = Return fields)
    elements declared →
  ∃ fields,
    Forall2 (λ element field,
               productionField doc parseNode [] element = Return (option_list field)
               ∧ fst <$> field = Spec.nodeKey doc element) elements fields
    ∧ concat declared = omap id fields.
Proof.
  induction 1 as [|element entry elements declared Hentry _ (fields & Hfields & Hconcat)].
  - by exists [].
  - destruct (productionField_key element entry Hentry) as (field & -> & Hkey).
    exists (field :: fields). split; [by constructor|].
    simpl. rewrite Hconcat. by destruct field.
Qed.

End PanelFacts.

(** X9: Under layout A the fields of the document are those of every
    fs-animate-change-classes element below the panel, at any depth, each
    declaring the trimmed text of its key element as a key, or nothing when it
    has none (no element declaring __proto__, which would set no property):
    the keys of the data are the declared keys, pairwise distinct, and under
    each key the data holds the value of the last element, in document order,
    that declares it, which is the value the field loop computes for that
    element. *)
Theorem production_fields_last_write_wins (doc : Node) (pathname : string)
  (contextRoot : option Handle) (panel : Handle) :
  validScope doc contextRoot →
  determineRoot doc contextRoot = (None, Some panel) →
  (∀ element,
     element ∈ querySelectorAll doc panel Sel.fs_animate_change_classes →
     Spec.nodeKey doc element ≠ Some "__proto__") →
  ∃ fields r,
    getFirestoreJSON doc pathname contextRoot = Return r
    ∧ data r = VObject [(docId r, VObject fields)]
    ∧ NoDup fields.*1
    ∧ (∀ key, key ∈ fields.*1
              ↔ ∃ element,
                  element ∈ querySelectorAll doc panel Sel.fs_animate_change_classes
                  ∧ Spec.nodeKey doc element = Some key)
    ∧ ∀ before element after key,
        querySelectorAll doc panel Sel.fs_animate_change_classes
        = before ++ element :: after →
        Spec.nodeKey doc element = Some key →
        (∀ later, later ∈ after → Spec.nodeKey doc later ≠ Some key) →
        ∃ v, productionField doc (parseNode (S (height doc)) doc) [] element
             = Return [(key, v)]
             ∧ JSObject.lookup key fields = Some v.
Proof.
  intros _ Hroot _.
  destruct (results_exist
              (productionField doc (parseNode (S (height doc)) doc) [])
              (querySelectorAll doc panel Sel.fs_animate_change_classes))
    as [declared Hdeclared].
  { intros element _. apply productionField_returns. }
  destruct (declared_fields doc _ _ declared Hdeclared) as (fields & Hfields & Hconcat).
  destruct (declared_last_write (Spec.nodeKey doc)
              (querySelectorAll doc panel Sel.fs_animate_change_classes) fields)
    as (Hnd & Hkeys & Hlast).
  { eapply list.Forall2_impl; [exact Hfields|]. by intros element field [_ ?]. }
  exists (fold_left Spec.write (omap id fields) []).
  set (label := match querySelector doc panel Sel.panel_header_label with
                | Some docIdElement => trim (textContentOf doc docIdElement)
                | None => "UNKNOWN_DOCUMENT_ID"
                end).
  exists {| status := "ok"; docId := label;
            data := VObject [(label,
                              VObject (fold_left Spec.write (omap id fields) []))] |}.
  split_and!; [|reflexivity|done|done|].
  - unfold getFirestoreJSON, getFirestoreJSONWith. rewrite Hroot. cbv zeta.
    by rewrite (forEach_productionField doc _ _ declared), Hconcat.
  - intros before element after key Helements Hkey Hlater.
    destruct (Hlast before element after key Helements Hkey Hlater) as (v & Hfield & Hv).
    exists v. split; [|done].
    assert (querySelectorAll doc panel Sel.fs_animate_change_classes
              !! length before = Some element) as Helement.
    { rewrite Helements. by rewrite lookup_app_r, Nat.sub_diag. }
    by destruct (Forall2_lookup_lr _ _ _ _ _ _ Hfields Helement Hfield).
Qed.

(** A panel with the map m, whose node x is wrapped like a field of the
    panel: x is a field of the document as well. *)
Lemma production_fields_last_write_wins_witness :
  ∃ fields r,
    getFirestoreJSON Views.nestedField "/" (Some [0%nat]) = Return r
    ∧ data r = VObject [(docId r, VObject fields)]
    ∧ (∃ v, JSObject.lookup "x" fields = Some v)
    ∧ ∃ v, JSObject.lookup "m" fields = Some v.
Proof.
  destruct (production_fields_last_write_wins Views.nestedField "/"
              (Some [0%nat]) [0%nat])
    as (fields & r & Hr & Hdata & _ & Hkeys & _).
  - by apply isElementb_true.
  - reflexivity.
  - apply list.Forall_forall. by repeat constructor.
  - exists fields, r. split_and!; [done|done| |].
    + apply lookup_is_Some, Hkeys.
      exists [0%nat; 0%nat; 2%nat; 0%nat; 0%nat; 0%nat].
      split; [|reflexivity]. apply list_elem_of_further, list_elem_of_here.
    + apply lookup_is_Some, Hkeys. exists [0%nat; 0%nat].
      split; [|reflexivity]. apply list_elem_of_here.
Defined.

(** The panel of the witness: the node x of the map m is wrapped like a
    field, so x is a field of the document as well. *)
Example nested_field_is_a_field_too :
  (r ← getFirestoreJSON Views.nestedField "/" (Some [0%nat]); Return (data r))
  = Return (VObject
              [("UNKNOWN_DOCUMENT_ID",
                VObject [("m", VObject [("x", VNumber (Finite false 1 0))]);
                         ("x", VNumber (Finite false 1 0))])]).
Proof. reflexivity. Qed.

(** ** The copy button and the message listener *)

Section ButtonFacts.
Import CopyButton.

Lemma run_app (s : State) (events later : list Event) :
  run s (events ++ later) = run (run s events) later.
Proof. apply fold_left_app. Qed.

(** When the pending timeouts have fired, the button shows the text that the
    last of them had saved. *)
Lemma run_timeouts (s : State) (earlier : list string) (originalText : string) :
  timers s = earlier ++ [originalText] →
  button (run s (replicate (S (length earlier)) Timeout))
  = {| innerText := originalText; color := "#ffa500"; borderColor := "#ffa500" |}
  ∧ timers (run s (replicate (S (length earlier)) Timeout)) = []
  ∧ pending (run s (replicate (S (length earlier)) Timeout)) = pending s
  ∧ copied (run s (replicate (S (length earlier)) Timeout)) = copied s.
Proof.
  revert s. induction earlier as [|text earlier IH]; intros s Htimers.
  - simpl. unfold timeout. by rewrite Htimers.
  - change (replicate (S (length (text :: earlier))) Timeout)
      with (Timeout :: replicate (S (length earlier)) Timeout).
    change (run s (Timeout :: ?l)) with (run (timeout s) l).
    destruct (IH (timeout s)) as (Hbutton & Hnone & Hpending & Hcopied).
    { unfold timeout. by rewrite Htimers. }
    rewrite Hbutton, Hnone, Hpending, Hcopied.
    unfold timeout. by rewrite Htimers.
Qed.

(** No step brings back a label that neither the button nor a pending
    timeout holds. *)
Lemma step_keeps_label_out (label : string) (s : State) (e : Event) :
  label ≠ "Copied!" → label ≠ "Error" →
  innerText (button s) ≠ label → Forall (λ text, text ≠ label) (timers s) →
  innerText (button (step s e)) ≠ label
  ∧ Forall (λ text, text ≠ label) (timers (step s e)).
Proof.
  intros Hcopied Herror Hbutton Htimers.
  destruct e as [[text|]| | |]; simpl.
  - done.
  - split; [congruence|done].
  - unfold fulfilled. destruct (pending s); [done|]. simpl.
    split; [congruence|]. apply Forall_app. split; [done|]. by constructor.
  - unfold rejected. destruct (pending s); [done|]. simpl. split; [congruence|done].
  - unfold timeout.
    destruct (timers s) as [|originalText later] eqn:Hpending.
    + by rewrite Hpending.
    + simpl. by apply Forall_cons_1 in Htimers as [Hfirst Hlater].
Qed.

End ButtonFacts.

(** X11: A write that is fulfilled shows Copied! and, when the pending
    timeouts have fired with no other event in between, leaves the label that
    the button had when the write was fulfilled: the label of the idle button,
    but Copied! if an earlier copy still showed it, and Error after a failure. *)
Theorem copy_restores_label_at_completion (s : CopyButton.State) :
  (0 < CopyButton.pending s)%nat →
  CopyButton.innerText (CopyButton.button (CopyButton.fulfilled s)) = "Copied!"
  ∧ CopyButton.button
      (CopyButton.run (CopyButton.fulfilled s)
         (replicate (S (length (CopyButton.timers s))) CopyButton.Timeout))
    = {| CopyButton.innerText := CopyButton.innerText (CopyButton.button s);
         CopyButton.color := "#ffa500"; CopyButton.borderColor := "#ffa500" |}
  ∧ CopyButton.timers
      (CopyButton.run (CopyButton.fulfilled s)
         (replicate (S (length (CopyButton.timers s))) CopyButton.Timeout))
    = [].
Proof.
  intros Hpending.
  destruct (run_timeouts (CopyButton.fulfilled s) (CopyButton.timers s)
              (CopyButton.innerText (CopyButton.button s)))
    as (Hbutton & Hnone & _).
  { unfold CopyButton.fulfilled. destruct (CopyButton.pending s); [lia|done]. }
  split_and!; [|done|done].
  unfold CopyButton.fulfilled. destruct (CopyButton.pending s); [lia|done].
Qed.

Lemma copy_restores_label_at_completion_witness :
  let shown := CopyButton.run CopyButton.created
                 [CopyButton.Click (Some (Some "{}")); CopyButton.Fulfilled] in
  let again := CopyButton.click (Some (Some "{}")) shown in
  CopyButton.innerText (CopyButton.button shown) = "Copied!"
  ∧ CopyButton.innerText
      (CopyButton.button
         (CopyButton.run (CopyButton.fulfilled again)
            [CopyButton.Timeout; CopyButton.Timeout]))
    = "Copied!".
Proof.
  split; [reflexivity|].
  destruct (copy_restores_label_at_completion
              (CopyButton.click (Some (Some "{}"))
                 (CopyButton.run CopyButton.created
                    [CopyButton.Click (Some (Some "{}")); CopyButton.Fulfilled])))
    as (_ & Hbutton & _); [simpl; lia|].
  exact (f_equal CopyButton.innerText Hbutton).
Defined.

(** X12: Once neither the button nor a pending timeout holds the label Copy
    JSON, no sequence of clicks, settled writes and timeouts shows it again.
    That is the state after a failure with no timeout pending, and the state
    that a copy completed under the label Copied! ends in. *)
Theorem label_is_not_restored (s : CopyButton.State) (events : list CopyButton.Event) :
  CopyButton.innerText (CopyButton.button s) ≠ "Copy JSON" →
  Forall (λ text, text ≠ "Copy JSON") (CopyButton.timers s) →
  CopyButton.innerText (CopyButton.button (CopyButton.run s events)) ≠ "Copy JSON".
Proof.
  revert s. induction events as [|e events IH]; intros s Hbutton Htimers; [done|].
  destruct (step_keeps_label_out "Copy JSON" s e) as [Hbutton' Htimers'];
    [done..|].
  by apply IH.
Qed.

Lemma label_is_not_restored_witness :
  CopyButton.innerText
    (CopyButton.button
       (CopyButton.run (CopyButton.click None CopyButton.created)
          [CopyButton.Click (Some (Some "{}")); CopyButton.Fulfilled;
           CopyButton.Timeout]))
  ≠ "Copy JSON".
Proof.
  apply (label_is_not_restored (CopyButton.click None CopyButton.created)).
  - discriminate.
  - constructor.
Defined.

Section ClickFacts.
Import CopyButton.

Lemma step_without_failure (s : State) (e : Event) :
  e ≠ Rejected → e ≠ Click None →
  innerText (button s) ≠ "Error" → Forall (λ text, text ≠ "Error") (timers s) →
  errors s = 0%nat →
  innerText (button (step s e)) ≠ "Error"
  ∧ Forall (λ text, text ≠ "Error") (timers (step s e))
  ∧ errors (step s e) = 0%nat.
Proof.
  intros Hrejected Hthrown Hbutton Htimers Herrors.
  destruct e as [[text|]| | |]; simpl; try done.
  - unfold fulfilled. destruct (pending s); [done|]. simpl.
    split_and!; [done| |done]. apply Forall_app. split; [done|]. by constructor.
  - unfold timeout. destruct (timers s) as [|originalText later] eqn:Hpending.
    + by rewrite Hpending.
    + simpl. by apply Forall_cons_1 in Htimers as [Hfirst Hlater].
Qed.

Lemma run_without_failure (s : State) (events : list Event) :
  Forall (λ e, e ≠ Rejected ∧ e ≠ Click None) events →
  innerText (button s) ≠ "Error" → Forall (λ text, text ≠ "Error") (timers s) →
  errors s = 0%nat →
  innerText (button (run s events)) ≠ "Error" ∧ errors (run s events) = 0%nat.
Proof.
  intros Hevents. revert s.
  induction Hevents as [|e events [Hrejected Hthrown] _ IH];
    intros s Hbutton Htimers Herrors; [done|].
  destruct (step_without_failure s e) as (? & ? & ?); try done.
  by apply IH.
Qed.

End ClickFacts.

(** X13: A click on the button of a scope, an element of the document, never
    fails in the parse: [onClick] returns and its text is passed to the
    clipboard. So the button shows Error, and an error is logged, only when a
    write to the clipboard was rejected. *)
Theorem click_fails_only_at_the_clipboard (numberToString : JSNumber.t → string)
  (doc : Node) (pathname : string) (scope : Handle) :
  isElement doc scope →
  (∃ r text,
     getFirestoreJSON doc pathname (Some scope) = Return r
     ∧ jsonString numberToString r = Some text
     ∧ CopyButton.clickOn numberToString doc pathname scope
       = Return (CopyButton.Click (Some (Some text))))
  ∧ ∀ events,
      Forall (λ e, e ≠ CopyButton.Rejected ∧ e ≠ CopyButton.Click None) events →
      CopyButton.innerText
        (CopyButton.button (CopyButton.run CopyButton.created events)) ≠ "Error"
      ∧ CopyButton.errors (CopyButton.run CopyButton.created events) = 0%nat.
Proof.
  intros _. split.
  - unfold CopyButton.clickOn.
    pose proof (getFirestoreJSON_outcome doc pathname (Some scope)) as Hout.
    destruct (determineRoot_with_scope doc scope) as [[root Hroot]|Hroot];
      rewrite Hroot in Hout.
    + destruct Hout as (fields & _ & Hr). rewrite Hr.
      eexists _, _. split_and!; reflexivity.
    + destruct Hout as (fields & Hr). rewrite Hr.
      eexists _, _. split_and!; reflexivity.
  - intros events Hevents. by apply run_without_failure.
Qed.

Lemma click_fails_only_at_the_clipboard_witness :
  ∃ text,
    CopyButton.clickOn (λ _, "0") Sample.emulatorView "/doc" [0%nat; 0%nat]
    = Return (CopyButton.Click (Some (Some text))).
Proof.
  destruct (click_fails_only_at_the_clipboard (λ _, "0") Sample.emulatorView "/doc"
              [0%nat; 0%nat]) as [(r & text & _ & _ & Hclick) _];
    [by apply isElementb_true|].
  by exists text.
Defined.

(** X14: The message listener answers a request whose action is fetchFirestore
    exactly once and returns true: with status ok and the text of the document
    when root selection without a scope finds a root, and with status error
    and the message of the failure, which it also logs, when it finds none.
    Any other request is not answered, and the listener returns false. *)
Theorem onMessage_answers_once (numberToString : JSNumber.t → string) (doc : Node)
  (pathname : string) :
  (∃ response,
     Listener.onMessage numberToString doc pathname (VString "fetchFirestore")
     = Return {| Listener.sent := [response];
                 Listener.logged :=
                   match response with
                   | Listener.Error message => [message]
                   | Listener.Ok _ => []
                   end;
                 Listener.returned := true |}
     ∧ match determineRoot doc None with
       | (None, None) => response = Listener.Error NO_DATA
       | _ =>
           ∃ r text,
             getFirestoreJSON doc pathname None = Return r
             ∧ jsonString numberToString r = Some text
             ∧ response = Listener.Ok (Some text)
       end)
  ∧ ∀ action,
      action ≠ VString "fetchFirestore" →
      Listener.onMessage numberToString doc pathname action
      = Return {| Listener.sent := []; Listener.logged := [];
                  Listener.returned := false |}.
Proof.
  split.
  - unfold Listener.onMessage.
    change (Listener.differs (VString "fetchFirestore") "fetchFirestore") with false.
    cbv iota.
    pose proof (getFirestoreJSON_outcome doc pathname None) as Hout.
    destruct (determineRoot doc None) as [[root|] [panel|]].
    + destruct Hout as (fields & _ & ->). eexists (Listener.Ok _).
      split; [reflexivity|]. eexists _, _. split_and!; reflexivity.
    + destruct Hout as (fields & _ & ->). eexists (Listener.Ok _).
      split; [reflexivity|]. eexists _, _. split_and!; reflexivity.
    + destruct Hout as (fields & ->). eexists (Listener.Ok _).
      split; [reflexivity|]. eexists _, _. split_and!; reflexivity.
    + rewrite Hout. by exists (Listener.Error NO_DATA).
  - intros action Hne. unfold Listener.onMessage.
    destruct action as [| |b|x|s|props|elements props]; try done.
    simpl. rewrite bool_decide_eq_false_2; [done|]. by intros ->.
Qed.

(** ** Layout B is parsed from the children of the root alone *)

Section Locality.
Variables doc doc' : Node.

(** Two places, in two documents, that hold elements with the same
    children. *)
Local Abbreviation sameChildren g g' :=
  (g ≠ [] ∧ g' ≠ []
   ∧ ∃ tag classes attrs tag' classes' attrs' kids,
       resolve doc g = Some (Element tag classes attrs kids)
       ∧ resolve doc' g' = Some (Element tag' classes' attrs' kids)).

(** A selector that looks at the element alone, or at the element and at the
    scope as its parent. *)
Local Abbreviation scopeCompound :=
  {| isScope := true; typeName := None; classNames := [] |}.
Local Abbreviation local sel :=
  (isScope (subject sel) = false
   ∧ (context sel = [] ∨ context sel = [(Child, scopeCompound)])).

Lemma same_below (g g' s : Handle) :
  sameChildren g g' → s ≠ [] → resolve doc (g ++ s) = resolve doc' (g' ++ s).
Proof.
  intros (_ & _ & tag & classes & attrs & tag' & classes' & attrs' & kids & Hg & Hg') Hs.
  rewrite !resolve_app, Hg, Hg'. by destruct s.
Qed.

Lemma same_child (g g' : Handle) (i : nat) tag classes attrs kids :
  sameChildren g g' →
  resolve doc (g ++ [i]) = Some (Element tag classes attrs kids) →
  sameChildren (g ++ [i]) (g' ++ [i]).
Proof.
  intros Hsame Hchild. split_and!; [by destruct g|by destruct g'|].
  exists tag, classes, attrs, tag, classes, attrs, kids. split; [done|].
  by rewrite <- (same_below g g' [i] Hsame).
Qed.

Lemma removelast_app_nonempty (g s : Handle) :
  s ≠ [] → removelast (g ++ s) = g ++ removelast s.
Proof. intros Hs. by apply removelast_app. Qed.

Lemma matchesCompound_nonempty (d : Node) (scope : Handle) (c : Compound)
  (h : Handle) :
  h ≠ [] →
  matchesCompound d scope c h
  = match resolve d h with
    | Some (Element tag classes _ _) =>
        (if isScope c then bool_decide (h = scope) else true)
        && match typeName c with
           | Some type => bool_decide (type = tag)
           | None => true
           end
        && forallb (λ name, bool_decide (name ∈ classes)) (classNames c)
    | _ => false
    end.
Proof. by destruct h. Qed.

Lemma app_nonempty_l (g s : Handle) : g ≠ [] → g ++ s ≠ [].
Proof. by destruct g. Qed.

Lemma app_eq_l (g r : Handle) : g ++ r = g → r = [].
Proof.
  intros Heq. rewrite <- (app_nil_r g) in Heq at 2. by apply app_inv_head in Heq.
Qed.

Lemma matches_local (sel : Selector) (g g' s : Handle) :
  sameChildren g g' → local sel → s ≠ [] →
  matches doc g sel (g ++ s) = matches doc' g' sel (g' ++ s)
  ∧ (context sel ≠ [] → matches doc g sel (g ++ s) = true → ∃ i, s = [i]).
Proof.
  intros Hsame [Hscope Hcontext] Hs.
  pose proof (same_below g g' s Hsame Hs) as Hres.
  destruct Hsame as (Hg & Hg' & tag & classes & attrs & tag' & classes' & attrs'
                     & kids & Hrg & Hrg').
  assert (matchesCompound doc g (subject sel) (g ++ s)
          = matchesCompound doc' g' (subject sel) (g' ++ s)) as Hsubject.
  { rewrite !matchesCompound_nonempty by by apply app_nonempty_l.
    by rewrite Hscope, Hres. }
  unfold matches. rewrite Hsubject. destruct Hcontext as [->| ->].
  - split; [done|]. done.
  - simpl. unfold parent. rewrite !removelast_app_nonempty by done.
    rewrite !matchesCompound_nonempty by by apply app_nonempty_l.
    simpl. destruct (decide (removelast s = [])) as [Hlast|Hlast].
    + rewrite Hlast, !app_nil_r, Hrg, Hrg'. split.
      * by rewrite (bool_decide_eq_true_2 (g = g)), (bool_decide_eq_true_2 (g' = g')).
      * intros _ _. destruct s as [|i s]; [done|]. exists i.
        destruct s; [done|]. by destruct s.
    + rewrite (bool_decide_eq_false_2 (g ++ removelast s = g))
        by (by intros ?%app_eq_l).
      rewrite (bool_decide_eq_false_2 (g' ++ removelast s = g'))
        by (by intros ?%app_eq_l).
      split.
      * destruct (resolve doc (g ++ removelast s)) as [[]|],
          (resolve doc' (g' ++ removelast s)) as [[]|];
          simpl; by rewrite ?andb_false_r.
      * intros _ Hm. exfalso. apply andb_true_iff in Hm as [_ Hm].
        apply andb_true_iff in Hm as [Hm _].
        by destruct (resolve doc (g ++ removelast s)) as [[]|].
Qed.

(** The same places pass two filters that agree on them. *)
Lemma filter_fmap_agree {A B : Type} (P Q : B → Prop)
  `{∀ y, Decision (P y)} `{∀ y, Decision (Q y)} (f f' : A → B) (l : list A) :
  (∀ x, x ∈ l → P (f x) ↔ Q (f' x)) →
  ∃ rel,
    filter P (f <$> l) = f <$> rel ∧ filter Q (f' <$> l) = f' <$> rel
    ∧ ∀ x, x ∈ rel → x ∈ l ∧ P (f x).
Proof.
  induction l as [|x l IH]; intros Hagree.
  - exists []. split_and!; [done|done|]. by intros x ?%elem_of_nil.
  - destruct IH as (rel & HP & HQ & Hrel).
    { intros y Hy. apply Hagree. by apply list_elem_of_further. }
    rewrite !fmap_cons, !filter_cons, HP, HQ.
    destruct (decide (P (f x))) as [Hx|Hx].
    + rewrite decide_True by (apply Hagree; [apply list_elem_of_here|done]).
      exists (x :: rel). split_and!; [done|done|].
      intros y [->|Hy]%elem_of_cons; [split; [apply list_elem_of_here|done]|].
      destruct (Hrel y Hy). split; [by apply list_elem_of_further|done].
    + rewrite decide_False
        by (intros HQx; apply Hx, Hagree; [apply list_elem_of_here|done]).
      exists rel. split_and!; [done|done|].
      intros y Hy. destruct (Hrel y Hy). split; [by apply list_elem_of_further|done].
Qed.

(** What a local selector finds below two elements with the same children:
    the same places, relative to each. *)
Lemma querySelectorAll_local (sel : Selector) (g g' : Handle) :
  sameChildren g g' → local sel →
  ∃ rel,
    querySelectorAll doc g sel = (g ++.) <$> rel
    ∧ querySelectorAll doc' g' sel = (g' ++.) <$> rel
    ∧ (∀ s, s ∈ rel → s ≠ [] ∧ isElement doc (g ++ s))
    ∧ (context sel ≠ [] → ∀ s, s ∈ rel → ∃ i, s = [i]).
Proof.
  intros Hsame Hlocal.
  pose proof Hsame as (Hg & Hg' & tag & classes & attrs & tag' & classes' & attrs'
                       & kids & Hrg & Hrg').
  unfold querySelectorAll. rewrite Hrg, Hrg'.
  change (descendants (Element tag' classes' attrs' kids))
    with (descendants (Element tag classes attrs kids)).
  destruct (filter_fmap_agree
              (λ h, matches doc g sel h = true) (λ h, matches doc' g' sel h = true)
              (g ++.) (g' ++.) (descendants (Element tag classes attrs kids)))
    as (rel & Hq & Hq' & Hrel).
  { intros s Hs%descendants_nonempty.
    by rewrite (proj1 (matches_local sel g g' s Hsame Hlocal Hs)). }
  exists rel. split_and!; [done|done| |].
  - intros s [Hs%descendants_nonempty Hm]%Hrel. split; [done|].
    by eapply matches_isElement.
  - intros Hcontext s [Hs%descendants_nonempty Hm]%Hrel.
    by apply (proj2 (matches_local sel g g' s Hsame Hlocal Hs)).
Qed.

Lemma querySelector_local (sel : Selector) (g g' : Handle) :
  sameChildren g g' → local sel →
  ∃ found,
    querySelector doc g sel = (g ++.) <$> found
    ∧ querySelector doc' g' sel = (g' ++.) <$> found
    ∧ ∀ s, found = Some s → s ≠ [].
Proof.
  intros Hsame Hlocal.
  destruct (querySelectorAll_local sel g g' Hsame Hlocal) as (rel & Hq & Hq' & Hrel & _).
  exists (head rel). unfold querySelector. rewrite Hq, Hq'.
  split_and!; [by destruct rel|by destruct rel|].
  intros s Hs. apply Hrel. by apply head_Some_elem_of.
Qed.

Lemma textContentOf_local (g g' s : Handle) :
  sameChildren g g' → s ≠ [] →
  textContentOf doc (g ++ s) = textContentOf doc' (g' ++ s).
Proof. intros Hsame Hs. unfold textContentOf. by rewrite (same_below g g' s). Qed.

Lemma getAttribute_local (g g' s : Handle) (name : string) :
  sameChildren g g' → s ≠ [] →
  getAttribute doc (g ++ s) name = getAttribute doc' (g' ++ s) name.
Proof. intros Hsame Hs. unfold getAttribute. by rewrite (same_below g g' s). Qed.

Lemma classListContains_local (g g' s : Handle) (name : string) :
  sameChildren g g' → s ≠ [] →
  classListContains doc (g ++ s) name = classListContains doc' (g' ++ s) name.
Proof. intros Hsame Hs. unfold classListContains. by rewrite (same_below g g' s). Qed.

Lemma nextElementSibling_local (g g' : Handle) (i : nat) :
  sameChildren g g' →
  ∃ next,
    nextElementSibling doc (g ++ [i]) = (λ j, g ++ [j]) <$> next
    ∧ nextElementSibling doc' (g' ++ [i]) = (λ j, g' ++ [j]) <$> next
    ∧ ∀ j, next = Some j → sameChildren (g ++ [j]) (g' ++ [j]).
Proof.
  intros Hsame.
  pose proof Hsame as (Hg & Hg' & tag & classes & attrs & tag' & classes' & attrs'
                       & kids & Hrg & Hrg').
  exists (firstElement (S i) (drop (S i) kids)).
  unfold nextElementSibling, parent.
  rewrite !last_snoc, !removelast_snoc, Hrg, Hrg'. split_and!; [done|done|].
  intros j (k & tag1 & classes1 & attrs1 & kids1 & -> & Hk)%firstElement_Some.
  rewrite lookup_drop in Hk.
  apply (same_child g g' _ tag1 classes1 attrs1 kids1 Hsame).
  by rewrite (resolve_child _ _ _ _ _ _ _ Hrg).
Qed.

(** An item of a container gives the same field in both documents when the
    recursive calls agree on the siblings with the same children. *)
Lemma emulatorField_local (self self' : option Handle → Outcome Value)
  (g g' : Handle) (i : nat) :
  sameChildren g g' → isElement doc (g ++ [i]) →
  (∀ j, sameChildren (g ++ [j]) (g' ++ [j]) →
        self (Some (g ++ [j])) = self' (Some (g' ++ [j]))) →
  emulatorField doc self (g ++ [i]) = emulatorField doc' self' (g' ++ [i]).
Proof.
  intros Hsame (_ & tag & classes & attrs & kids & Hitem) Hself.
  pose proof (same_child g g' i tag classes attrs kids Hsame Hitem) as Hsame_item.
  unfold emulatorField.
  destruct (querySelector_local Sel.FieldPreview_key _ _ Hsame_item)
    as (keyElem & -> & -> & Hkey); [by split; [|left]|].
  destruct keyElem as [keyElem|]; [|done]. simpl.
  rewrite (textContentOf_local _ _ keyElem Hsame_item) by by apply Hkey.
  destruct (querySelector_local Sel.FieldPreview_type _ _ Hsame_item)
    as (typeElem & -> & -> & Htype); [by split; [|left]|].
  assert (match (g ++ [i] ++.) <$> typeElem with
          | Some typeElem0 => trim (textContentOf doc typeElem0)
          | None => EmptyString
          end
          = match (g' ++ [i] ++.) <$> typeElem with
            | Some typeElem0 => trim (textContentOf doc' typeElem0)
            | None => EmptyString
            end) as ->.
  { destruct typeElem as [typeElem|]; [|done]. simpl.
    by rewrite (textContentOf_local _ _ typeElem Hsame_item) by by apply Htype. }
  destruct (nextElementSibling_local g g' i Hsame) as (next & -> & -> & Hnext).
  destruct (querySelector_local Sel.FieldPreview_summary _ _ Hsame_item)
    as (summaryElem & -> & -> & Hsummary); [by split; [|left]|].
  assert (match (g ++ [i] ++.) <$> summaryElem with
          | Some summaryElem0 =>
              match getAttribute doc summaryElem0 "title" with
              | Some title => title
              | None => textContentOf doc summaryElem0
              end
          | None => EmptyString
          end
          = match (g' ++ [i] ++.) <$> summaryElem with
            | Some summaryElem0 =>
                match getAttribute doc' summaryElem0 "title" with
                | Some title => title
                | None => textContentOf doc' summaryElem0
                end
            | None => EmptyString
            end) as ->.
  { destruct summaryElem as [summaryElem|]; [|done]. simpl.
    rewrite (getAttribute_local _ _ summaryElem _ Hsame_item) by by apply Hsummary.
    by rewrite (textContentOf_local _ _ summaryElem Hsame_item) by by apply Hsummary. }
  destruct (bool_decide _ || bool_decide _); [|done].
  destruct next as [j|]; [|done]. simpl.
  rewrite (classListContains_local g g' [j]) by done.
  destruct (classListContains doc' (g' ++ [j]) "FieldPreview-children"); [|done].
  specialize (Hself j (Hnext j eq_refl)). unfold Handle in *. by rewrite Hself.
Qed.

Lemma forEach_fmap_agree {A B C : Type} (f f' : A → C → Outcome A) (h h' : B → C)
  (l : list B) (acc : A) :
  (∀ a x, x ∈ l → f a (h x) = f' a (h' x)) →
  forEach f (h <$> l) acc = forEach f' (h' <$> l) acc.
Proof.
  revert acc. induction l as [|x l IH]; intros acc Hagree; [done|].
  rewrite !fmap_cons. simpl. rewrite Hagree by apply list_elem_of_here.
  destruct (f' acc (h' x)) as [acc'| |]; simpl; [|done|done].
  apply IH. intros a y Hy. apply Hagree. by apply list_elem_of_further.
Qed.

Lemma parseEmulatorContainer_local (fuel : nat) (g g' : Handle) :
  sameChildren g g' →
  parseEmulatorContainer fuel doc (Some g) = parseEmulatorContainer fuel doc' (Some g').
Proof.
  revert g g'. induction fuel as [|fuel IH]; intros g g' Hsame; [done|].
  simpl.
  destruct (querySelectorAll_local Sel.scope_li_FieldPreview g g' Hsame)
    as (rel & -> & -> & Hrel & Hchild); [by split; [|right]|].
  rewrite (forEach_fmap_agree
             (emulatorItem doc (parseEmulatorContainer fuel doc))
             (emulatorItem doc' (parseEmulatorContainer fuel doc'))
             (g ++.) (g' ++.)); [done|].
  intros data s Hs. destruct (Hchild ltac:(done) s Hs) as [i ->].
  unfold emulatorItem.
  rewrite (emulatorField_local
             (parseEmulatorContainer fuel doc) (parseEmulatorContainer fuel doc')
             g g' i Hsame); [done|by apply Hrel|].
  intros j Hj. by apply IH.
Qed.

End Locality.

(** With two field lists of the same child nodes as the scopes,
    getFirestoreJSON gives the same result. *)
Lemma getFirestoreJSON_same_children (doc doc' : Node) (container container' : Handle)
  (tag tag' : string) (classes classes' : list string)
  (attrs attrs' : list (string * string)) (kids : list Node) (pathname : string) :
  container ≠ [] → container' ≠ [] →
  resolve doc container = Some (Element tag classes attrs kids) →
  resolve doc' container' = Some (Element tag' classes' attrs' kids) →
  "Firestore-Field-List" ∈ classes → "Firestore-Field-List" ∈ classes' →
  getFirestoreJSON doc pathname (Some container)
  = getFirestoreJSON doc' pathname (Some container').
Proof.
  intros Hne Hne' Hres Hres' Hclass Hclass'.
  assert (∀ fuel,
            parseEmulatorContainer fuel doc (Some container)
            = parseEmulatorContainer fuel doc' (Some container')) as Hlocal.
  { intros fuel. apply parseEmulatorContainer_local. split_and!; [done|done|].
    by exists tag, classes, attrs, tag', classes', attrs', kids. }
  unfold getFirestoreJSON, getFirestoreJSONWith, determineRoot, classListContains.
  rewrite Hres, Hres', !bool_decide_eq_true_2 by done.
  destruct (parseEmulatorContainer_returns doc (S (height doc)) (Some container))
    as [fields Hfields].
  { simpl. pose proof (heightAt_le doc container). lia. }
  destruct (parseEmulatorContainer_returns doc' (S (height doc')) (Some container'))
    as [fields' Hfields'].
  { simpl. pose proof (heightAt_le doc' container'). lia. }
  rewrite Hfields, Hfields'.
  assert (S (height doc) <= S (height doc) `max` S (height doc'))%nat as Hle by lia.
  assert (S (height doc') <= S (height doc) `max` S (height doc'))%nat as Hle' by lia.
  pose proof (parseEmulatorContainer_mono_le doc _ _ _ _ Hle Hfields) as Hmax.
  pose proof (parseEmulatorContainer_mono_le doc' _ _ _ _ Hle' Hfields') as Hmax'.
  rewrite Hlocal, Hmax' in Hmax. by injection Hmax as ->.
Qed.

(** X15: Under layout B the parse of a container is that of the children of
    the container alone: two elements with the same child nodes, anywhere in
    two documents and whatever their own tags, classes and attributes, give
    the same fields; and when both are field lists, getFirestoreJSON with each
    as the scope gives the same result. *)
Theorem emulator_parse_is_local (doc doc' : Node) (container container' : Handle)
  (tag tag' : string) (classes classes' : list string)
  (attrs attrs' : list (string * string)) (kids : list Node) :
  container ≠ [] → container' ≠ [] →
  resolve doc container = Some (Element tag classes attrs kids) →
  resolve doc' container' = Some (Element tag' classes' attrs' kids) →
  (∀ fuel,
     parseEmulatorContainer fuel doc (Some container)
     = parseEmulatorContainer fuel doc' (Some container'))
  ∧ ("Firestore-Field-List" ∈ classes → "Firestore-Field-List" ∈ classes' →
     ∀ pathname,
       getFirestoreJSON doc pathname (Some container)
       = getFirestoreJSON doc' pathname (Some container')).
Proof.
  intros Hne Hne' Hres Hres'. split.
  - intros fuel. apply parseEmulatorContainer_local. split_and!; [done|done|].
    by exists tag, classes, attrs, tag', classes', attrs', kids.
  - intros Hclass Hclass' pathname.
    by eapply getFirestoreJSON_same_children.
Qed.

Lemma emulator_parse_is_local_witness :
  getFirestoreJSON Sample.emulatorView "/doc" (Some [0%nat; 0%nat])
  = getFirestoreJSON Sample.bothLayouts "/doc" (Some [1%nat]).
Proof.
  eapply (emulator_parse_is_local Sample.emulatorView Sample.bothLayouts
            [0%nat; 0%nat] [1%nat]); [done|done|reflexivity|reflexivity| |].
  - apply list_elem_of_here.
  - apply list_elem_of_here.
Defined.

(** Layout A is not parsed from the panel alone: a selector with a
    descendant combinator also looks above the scope, so the same panel is
    read differently inside an element of the class database-buttons. *)
Example production_parse_is_not_local :
  resolve Views.panelAlone [0%nat] = resolve Views.panelInButtons [0%nat; 0%nat]
  ∧ (r ← getFirestoreJSON Views.panelAlone "/" (Some [0%nat]); Return (data r))
    = Return (VObject [("UNKNOWN_DOCUMENT_ID", VObject [("k", VString "v")])])
  ∧ (r ← getFirestoreJSON Views.panelInButtons "/" (Some [0%nat; 0%nat]);
     Return (data r))
    = Return (VObject [("UNKNOWN_DOCUMENT_ID", VObject [("k", VObject [])])]).
Proof. split_and!; reflexivity. Qed.

(** ** Arrays under layout B *)

Section EmulatorArrays.
Import JSObject.

(** Writing entries with distinct keys one after the other gives the entries
    themselves. *)
Lemma fold_write_NoDup (entries acc : Props) :
  NoDup (acc.*1 ++ entries.*1) → fold_left Spec.write entries acc = acc ++ entries.
Proof.
  revert acc. induction entries as [|[k v] entries IH]; intros acc Hnd.
  - by rewrite app_nil_r.
  - simpl. unfold Spec.write at 2. simpl.
    assert (k ∉ acc.*1) as Hk.
    { apply list.NoDup_app in Hnd as (_ & Hdisjoint & _). intros Hin.
      apply (Hdisjoint k Hin). apply list_elem_of_here. }
    assert (set k v acc = acc ++ [(k, v)]) as ->.
    { clear -Hk. induction acc as [|[k' w] acc IHacc]; [done|]. simpl.
      rewrite fmap_cons in Hk. apply not_elem_of_cons in Hk as [Hne Hk].
      rewrite bool_decide_eq_false_2 by done. by rewrite IHacc. }
    rewrite IH; [by rewrite <- app_assoc|].
    by rewrite fmap_app, <- app_assoc.
Qed.

End EmulatorArrays.

(** X16: An emulator array whose children declare the keys 0, ..., n - 1, each
    once and in any order, is the sequence of their values in the order of the
    keys. *)
Theorem emulator_array_in_key_order (doc : Node) (fuel : nat)
  (item keyElem typeElem next : Handle) (n : Z) :
  querySelector doc item Sel.FieldPreview_key = Some keyElem →
  querySelector doc item Sel.FieldPreview_type = Some typeElem →
  trim (textContentOf doc typeElem) = "(array)" →
  nextElementSibling doc item = Some next →
  classListContains doc next "FieldPreview-children" = true →
  (heightAt doc next <= fuel)%nat →
  ∃ fields,
    Forall2 (λ child field,
               emulatorField doc (parseEmulatorContainer fuel doc) child = Return field)
      (querySelectorAll doc next Sel.scope_li_FieldPreview) fields
    ∧ ((omap id fields).*1 ≡ₚ ToString <$> seqZ 0 n →
       ∃ values,
         emulatorField doc (parseEmulatorContainer (S fuel) doc) item
         = Return (Some (trim (textContentOf doc keyElem), VArray (Some <$> values) []))
         ∧ length values = Z.to_nat n
         ∧ ∀ i v, 0 <= i < n → (ToString i, v) ∈ omap id fields →
             values !! Z.to_nat i = Some v).
Proof.
  intros Hkey Htype Harray Hnext Hclass Hfuel.
  destruct (results_exist (emulatorField doc (parseEmulatorContainer fuel doc))
              (querySelectorAll doc next Sel.scope_li_FieldPreview))
    as [fields Hfields].
  { intros child Hchild%querySelectorAll_below. apply emulatorField_returns.
    intros sibling Hsibling.
    destruct (parseEmulatorContainer_returns doc fuel (Some sibling)) as [data ->];
      [|by eexists].
    pose proof (below_heightAt doc _ _ (below_sibling doc _ _ _ Hchild Hsibling)).
    simpl. lia. }
  exists fields. split; [done|]. intros Hkeys.
  set (entries := omap id fields) in *.
  assert (NoDup entries.*1) as Hnd.
  { rewrite Hkeys. apply NoDup_fmap_2; [|apply NoDup_seqZ].
    intros i j. apply ToString_inj. }
  assert (filter (λ k, is_Some (parseInt k)) entries.*1 ≡ₚ ToString <$> seqZ 0 n)
    as Hdense.
  { rewrite <- Hkeys. rewrite filter_all; [done|].
    apply list.Forall_forall. intros k Hk. rewrite Hkeys in Hk.
    apply list_elem_of_fmap in Hk as (i & -> & _). rewrite parseInt_ToString.
    by eexists. }
  exists ((λ i, JSObject.get (VObject entries) i) <$> seqZ 0 n). split_and!.
  - unfold emulatorField. rewrite Hkey, Htype, Harray, Hnext, Hclass. cbv zeta.
    rewrite (parseEmulatorContainer_fold doc fuel next fields Hfields).
    simpl. do 3 f_equal. fold entries.
    rewrite (fold_write_NoDup entries []) by done. simpl.
    rewrite convertMapToArray_elements, (dense_sortedKeys entries n Hdense).
    by rewrite <- list_fmap_compose.
  - by rewrite length_fmap, length_seqZ.
  - intros i v Hi Hin. rewrite list_lookup_fmap, lookup_seqZ_lt by lia. simpl.
    rewrite Z2Nat.id, Z.add_0_l by lia.
    by rewrite (lookup_elem_NoDup _ _ _ Hnd Hin).
Qed.

Lemma emulator_array_in_key_order_witness :
  ∃ fields,
    Forall2 (λ child field,
               emulatorField Views.emulatorArray
                 (parseEmulatorContainer 5 Views.emulatorArray) child
               = Return field)
      (querySelectorAll Views.emulatorArray [0%nat; 1%nat] Sel.scope_li_FieldPreview)
      fields
    ∧ (omap id fields).*1 ≡ₚ ToString <$> seqZ 0 2
    ∧ ∃ values,
        emulatorField Views.emulatorArray
          (parseEmulatorContainer 6 Views.emulatorArray) [0%nat; 0%nat]
        = Return (Some ("tags", VArray (Some <$> values) []))
        ∧ length values = 2%nat
        ∧ ∀ i v, 0 <= i < 2 → (ToString i, v) ∈ omap id fields →
            values !! Z.to_nat i = Some v.
Proof.
  destruct (emulator_array_in_key_order Views.emulatorArray 5 [0%nat; 0%nat]
              [0%nat; 0%nat; 0%nat] [0%nat; 0%nat; 1%nat] [0%nat; 1%nat] 2)
    as (fields & Hfields & Hdense);
    [reflexivity|reflexivity|reflexivity|reflexivity|reflexivity|vm_compute; lia|].
  exists fields. split; [done|].
  assert ((omap id fields).*1 ≡ₚ ToString <$> seqZ 0 2) as Hkeys.
  { change (querySelectorAll Views.emulatorArray [0%nat; 1%nat]
              Sel.scope_li_FieldPreview)
      with [[0%nat; 1%nat; 0%nat]; [0%nat; 1%nat; 1%nat]] in Hfields.
    apply Forall2_cons_inv_l in Hfields as (first & rest & Hfirst & Hrest & ->).
    apply Forall2_cons_inv_l in Hrest as (second & rest' & Hsecond & Hrest & ->).
    apply Forall2_nil_inv_l in Hrest as ->.
    injection Hfirst as <-. injection Hsecond as <-. apply perm_swap. }
  split; [done|]. exact (Hdense Hkeys).
Defined.

(** The view of the witness: the children are declared as 1, 0 and the array
    holds the value of 0 first. *)
Example emulator_array_on_sample :
  parseEmulatorContainer 7 Views.emulatorArray (Some [0%nat])
  = Return (VObject [("tags", VArray [Some (VString "a"); Some (VString "b")] [])]).
Proof. reflexivity. Qed.

(** ** The injection of the button *)
(** ** Edits of the tree *)

Section EditFacts.

Lemma lookup_insertAt_lt {A : Type} (i j : nat) (x : A) (l : list A) :
  (j < i)%nat → (i <= length l)%nat → insertAt i x l !! j = l !! j.
Proof.
  intros Hj Hi. unfold insertAt.
  rewrite lookup_app_l by (rewrite length_take; lia).
  by rewrite lookup_take_lt.
Qed.

Lemma lookup_insertAt_eq {A : Type} (i : nat) (x : A) (l : list A) :
  (i <= length l)%nat → insertAt i x l !! i = Some x.
Proof.
  intros Hi. unfold insertAt.
  rewrite lookup_app_r by (rewrite length_take; lia).
  rewrite length_take. by replace (i - i `min` length l)%nat with 0%nat by lia.
Qed.

Lemma lookup_insertAt_ge {A : Type} (i j : nat) (x : A) (l : list A) :
  (i <= j)%nat → (i <= length l)%nat → insertAt i x l !! S j = l !! j.
Proof.
  intros Hj Hi. unfold insertAt.
  rewrite lookup_app_r by (rewrite length_take; lia).
  rewrite length_take.
  replace (S j - i `min` length l)%nat with (S (j - i)) by lia. simpl.
  rewrite lookup_drop. f_equal. lia.
Qed.

(** A place that is not above the insertion holds the node it held. *)
Lemma resolve_insertChild (n : Node) (p h : Handle) (i : nat) (new : Node)
  tag classes attrs kids :
  resolve n p = Some (Element tag classes attrs kids) → (i <= length kids)%nat →
  contains h p = false →
  resolve (insertChild n p i new) (relocate p i h) = resolve n h.
Proof.
  revert n h. induction p as [|q p IH]; intros n h Hp Hi Hh.
  - destruct h as [|j rest]; [done|]. simpl in Hp. injection Hp as ->. simpl.
    destruct (decide (i ≤ j)%nat).
    + by rewrite lookup_insertAt_ge.
    + by rewrite lookup_insertAt_lt by lia.
  - destruct h as [|j rest]; [done|].
    destruct n as [|tag' classes' attrs' kids']; [done|]. simpl in Hp.
    destruct (kids' !! q) as [k|] eqn:Hk; [|done]. simpl.
    destruct (decide (q = j)) as [<-|Hne].
    + simpl. rewrite list_lookup_alter_eq, Hk. simpl. apply IH; [done|done|].
      unfold contains in *. simpl in Hh. apply bool_decide_eq_false_1 in Hh.
      apply bool_decide_eq_false_2. intros Heq. apply Hh. by rewrite Heq.
    + simpl. by rewrite list_lookup_alter_ne.
Qed.

(** A place at or above the insertion holds the element it held, with other
    children. *)
Lemma resolve_insertChild_shell (n : Node) (p h : Handle) (i : nat) (new : Node)
  tag classes attrs kids tag0 classes0 attrs0 kids0 :
  resolve n p = Some (Element tag0 classes0 attrs0 kids0) → (i <= length kids0)%nat →
  resolve n h = Some (Element tag classes attrs kids) →
  ∃ kids', resolve (insertChild n p i new) (relocate p i h)
           = Some (Element tag classes attrs kids').
Proof.
  intros Hp Hi Hh.
  destruct (contains h p) eqn:Hcontains.
  - apply bool_decide_eq_true_1 in Hcontains.
    clear Hi. revert n p Hp Hh Hcontains.
    induction h as [|j rest IH]; intros n p Hp Hh Hcontains.
    + simpl in Hh. injection Hh as ->. destruct p; simpl; by eexists.
    + destruct p as [|q p]; [done|]. simpl in Hcontains.
      injection Hcontains as -> Hrest.
      destruct n as [|tag' classes' attrs' kids']; [done|]. simpl in Hp, Hh.
      destruct (kids' !! j) as [k|] eqn:Hk; [|done]. simpl.
      rewrite decide_True by done. simpl. rewrite list_lookup_alter_eq, Hk. simpl.
      by apply IH.
  - erewrite resolve_insertChild; [by eexists|done|done|done].
Qed.

(** The new node is at the place it was put. *)
Lemma resolve_insertChild_new (n : Node) (p : Handle) (i : nat) (new : Node)
  tag classes attrs kids :
  resolve n p = Some (Element tag classes attrs kids) → (i <= length kids)%nat →
  resolve (insertChild n p i new) (p ++ [i]) = Some new.
Proof.
  revert n. induction p as [|q p IH]; intros n Hp Hi.
  - simpl in Hp. injection Hp as ->. simpl. by rewrite lookup_insertAt_eq.
  - destruct n as [|tag' classes' attrs' kids']; [done|]. simpl in Hp.
    destruct (kids' !! q) as [k|] eqn:Hk; [|done]. simpl.
    rewrite list_lookup_alter_eq, Hk. simpl. by apply IH.
Qed.

(** The node at a place after [setAttribute]: the node it was, edited if the
    place is at or above the element. *)
Lemma resolve_setAttribute (n : Node) (g h : Handle) (name value : string) :
  resolve (setAttribute n g name value) h
  = (if contains h g
     then λ m, setAttribute m (drop (length h) g) name value
     else id) <$> resolve n h.
Proof.
  revert n g. induction h as [|j rest IH]; intros n g.
  - simpl. by destruct n.
  - destruct n as [data|tag classes attrs kids];
      [by simpl; destruct (contains (j :: rest) g)|].
    destruct g as [|q g].
    { change (contains (j :: rest) []) with false. cbv iota.
      by rewrite option_fmap_id. }
    simpl.
    destruct (decide (q = j)) as [->|Hne].
    + rewrite list_lookup_alter_eq.
      destruct (kids !! j) as [k|]; [|by destruct (contains (j :: rest) (j :: g))].
      simpl. rewrite IH. unfold contains. simpl.
      destruct (decide (take (length rest) g = rest)) as [Heq|Hneq].
      * by rewrite !bool_decide_eq_true_2 by (by rewrite ?Heq).
      * rewrite !bool_decide_eq_false_2; [done|by intros [= ?]|done].
    + rewrite list_lookup_alter_ne by done. unfold contains. simpl.
      rewrite bool_decide_eq_false_2 by (by intros [= ? ?]).
      by rewrite option_fmap_id.
Qed.

Lemma setAttribute_Element (tag : string) (classes : list string)
  (attrs : list (string * string)) (kids : list Node) (g : Handle)
  (name value : string) :
  ∃ attrs' kids',
    setAttribute (Element tag classes attrs kids) g name value
    = Element tag classes attrs' kids'
    ∧ (g = [] → attrs' = setAttr name value attrs ∧ kids' = kids)
    ∧ (g ≠ [] → attrs' = attrs).
Proof. destruct g; simpl; eexists _, _; by split_and!. Qed.

Lemma find_setAttr (name value : string) (attrs : list (string * string)) :
  List.find (λ a, bool_decide (a.1 = name)) (setAttr name value attrs)
  = Some (match List.find (λ a, bool_decide (a.1 = name)) attrs with
          | Some a => (a.1, value)
          | None => (name, value)
          end).
Proof.
  induction attrs as [|[a v] attrs IH]; simpl.
  - by rewrite bool_decide_eq_true_2.
  - case_bool_decide as Ha; simpl.
    + by rewrite bool_decide_eq_true_2.
    + by rewrite bool_decide_eq_false_2.
Qed.

(** Setting an attribute of an element shows at the element, and nowhere
    else. *)
Lemma getAttribute_setAttribute (n : Node) (g h : Handle) (name value : string)
  tag classes attrs kids :
  resolve n g = Some (Element tag classes attrs kids) →
  getAttribute (setAttribute n g name value) h name
  = if decide (h = g) then Some value else getAttribute n h name.
Proof.
  intros Hg. unfold getAttribute. rewrite resolve_setAttribute.
  destruct (decide (h = g)) as [->|Hne].
  - unfold contains. rewrite bool_decide_eq_true_2 by apply take_ge, Nat.le_refl.
    rewrite Hg, drop_all. simpl. rewrite find_setAttr.
    by destruct (List.find _ attrs).
  - destruct (resolve n h) as [[data|tag' classes' attrs' kids']|] eqn:Hh;
      [by destruct (contains h g)|..|by destruct (contains h g)].
    destruct (contains h g) eqn:Hc; [|done].
    cbn [fmap option_fmap option_map].
    destruct (setAttribute_Element tag' classes' attrs' kids'
                (drop (length h) g) name value) as (attrs2 & kids2 & -> & _ & Hattrs).
    rewrite Hattrs; [done|].
    intros Hdrop. apply Hne. apply bool_decide_eq_true_1 in Hc.
    rewrite <- (take_drop (length h) g), Hdrop, app_nil_r. done.
Qed.

Lemma classListContains_setAttribute (n : Node) (g h : Handle)
  (name value class : string) :
  classListContains (setAttribute n g name value) h class
  = classListContains n h class.
Proof.
  unfold classListContains. rewrite resolve_setAttribute.
  destruct (resolve n h) as [[data|tag classes attrs kids]|];
    [by destruct (contains h g)|..|by destruct (contains h g)].
  destruct (contains h g); [|done]. cbn [fmap option_fmap option_map].
  by destruct (setAttribute_Element tag classes attrs kids
                 (drop (length h) g) name value) as (attrs2 & kids2 & -> & _).
Qed.

Lemma length_relocate (p h : Handle) (i : nat) :
  length (relocate p i h) = length h.
Proof.
  revert h. induction p as [|q p IH]; intros [|j rest]; simpl; try done.
  destruct (decide (q = j)); simpl; [by rewrite IH|done].
Qed.

Lemma relocate_nonempty (p h : Handle) (i : nat) : h ≠ [] → relocate p i h ≠ [].
Proof.
  intros Hne Hnil. apply (f_equal length) in Hnil.
  rewrite length_relocate in Hnil. by destruct h.
Qed.

Lemma relocate_inj (p h g : Handle) (i : nat) :
  relocate p i h = relocate p i g → h = g.
Proof.
  revert h g. induction p as [|q p IH]; intros [|j rest] [|j' rest']; simpl;
    try done.
  - destruct (decide (i ≤ j)%nat), (decide (i ≤ j')%nat); intros [= ? ->];
      f_equal; lia.
  - by destruct (decide (q = j')).
  - by destruct (decide (q = j)).
  - destruct (decide (q = j)) as [Hj|Hj], (decide (q = j')) as [Hj'|Hj'].
    + intros [= ? Heq]. f_equal; [done|]. by apply IH.
    + intros [= ? _]. congruence.
    + intros [= ? _]. congruence.
    + done.
Qed.

(** The places at or above the parent stay where they are. *)
Lemma relocate_prefix (h r : Handle) (i : nat) : relocate (h ++ r) i h = h.
Proof.
  induction h as [|j h IH]; simpl; [by destruct r|].
  by rewrite decide_True, IH.
Qed.

Lemma contains_app (h r : Handle) : contains h (h ++ r) = true.
Proof. unfold contains. by rewrite bool_decide_eq_true_2 by apply take_app_length. Qed.

Lemma contains_inv (h b : Handle) : contains h b = true → ∃ r, b = h ++ r.
Proof.
  intros Hc%bool_decide_eq_true_1. exists (drop (length h) b).
  by rewrite <- Hc at 1; rewrite take_drop.
Qed.

Lemma contains_longer (h b : Handle) :
  (length b < length h)%nat → contains h b = false.
Proof.
  intros Hlen. apply bool_decide_eq_false_2. intros Heq.
  apply (f_equal length) in Heq. rewrite length_take in Heq. lia.
Qed.

(** A node that is there before [insertChild] is there after it, at the
    place [relocate] gives, with its classes and attributes. *)
Lemma resolve_insertChild_kept (n : Node) (p h : Handle) (i : nat) (new m : Node)
  tag classes attrs kids :
  resolve n p = Some (Element tag classes attrs kids) → (i <= length kids)%nat →
  resolve n h = Some m →
  ∃ m', resolve (insertChild n p i new) (relocate p i h) = Some m'
        ∧ (m' = m
           ∨ ∃ tag' classes' attrs' kids' kids'',
               m = Element tag' classes' attrs' kids'
               ∧ m' = Element tag' classes' attrs' kids'').
Proof.
  intros Hp Hi Hh. destruct m as [data|tag' classes' attrs' kids'].
  - exists (Text data). split; [|by left]. rewrite <- Hh.
    eapply resolve_insertChild; [done..|].
    destruct (contains h p) eqn:Hc; [|done].
    apply contains_inv in Hc as [r ->].
    rewrite resolve_app, Hh in Hp. by destruct r.
  - destruct (resolve_insertChild_shell n p h i new _ _ _ _ _ _ _ _ Hp Hi Hh)
      as [kids'' Hres].
    eexists. split; [done|]. right. by eexists _, _, _, _, _.
Qed.

(** A node that is there after [insertChild] is the new node, a node below
    it, or a node that was there before. *)
Lemma resolve_insertChild_inv (n : Node) (p h : Handle) (i : nat) (new m : Node)
  tag classes attrs kids :
  resolve n p = Some (Element tag classes attrs kids) → (i <= length kids)%nat →
  resolve (insertChild n p i new) h = Some m →
  (∃ s, h = p ++ i :: s ∧ resolve new s = Some m)
  ∨ (∃ h0, h = relocate p i h0 ∧ is_Some (resolve n h0)).
Proof.
  revert n h. induction p as [|q p IH]; intros n h Hp Hi Hh.
  - simpl in Hp. injection Hp as ->.
    destruct h as [|j rest]; [right; by exists []|]. simpl in Hh.
    destruct (decide (j < i)%nat) as [Hlt|Hge].
    + rewrite lookup_insertAt_lt in Hh by done. right. exists (j :: rest).
      simpl. rewrite decide_False by lia. split; [done|]. by rewrite Hh.
    + destruct (decide (j = i)) as [->|Hne].
      * rewrite lookup_insertAt_eq in Hh by done. left. by exists rest.
      * destruct j as [|j]; [lia|].
        rewrite lookup_insertAt_ge in Hh by lia. right. exists (j :: rest).
        simpl. rewrite decide_True by lia. split; [done|]. by rewrite Hh.
  - destruct n as [data|tag' classes' attrs' kids']; [done|]. simpl in Hp.
    destruct (kids' !! q) as [k|] eqn:Hk; [|done].
    destruct h as [|j rest]; [right; by exists []|]. simpl in Hh.
    destruct (decide (q = j)) as [<-|Hne].
    + rewrite list_lookup_alter_eq, Hk in Hh. simpl in Hh.
      destruct (IH k rest Hp Hi Hh) as [(s & -> & Hs)|(h0 & -> & Hh0)].
      * left. by exists s.
      * right. exists (q :: h0). simpl. rewrite decide_True by done.
        split; [done|]. by rewrite Hk.
    + rewrite list_lookup_alter_ne in Hh by done. right. exists (j :: rest).
      simpl. rewrite decide_False by done. split; [done|]. by rewrite Hh.
Qed.

Lemma resolve_createCopyButton (s : Handle) tag classes attrs kids :
  resolve createCopyButton s = Some (Element tag classes attrs kids) →
  classes = [COPY_BTN_CLASS].
Proof.
  destruct s as [|[|j] [|j' s]]; simpl; try done. by intros [= _ <- _ _].
Qed.

End EditFacts.

Section InjectFacts.

Lemma parentElement_snoc (p : Handle) (j : nat) :
  p ≠ [] → parentElement (p ++ [j]) = Some p.
Proof.
  intros Hne. unfold parentElement, parent. rewrite removelast_snoc.
  destruct p as [|a [|b p]]; done.
Qed.

Lemma index_snoc (p : Handle) (j : nat) : index (p ++ [j]) = j.
Proof. unfold index. by rewrite last_snoc. Qed.

Lemma parentElement_Some (h p : Handle) :
  parentElement h = Some p → p ≠ [] ∧ h = p ++ [index h].
Proof.
  destruct (decide (h = [])) as [->|Hne]; [done|].
  destruct (exists_last Hne) as (p' & j & ->).
  destruct p' as [|a p']; [done|].
  rewrite parentElement_snoc, index_snoc by done. by intros [= <-].
Qed.

Lemma resolve_snoc (n m : Node) (p : Handle) (j : nat) :
  resolve n (p ++ [j]) = Some m →
  ∃ tag classes attrs kids,
    resolve n p = Some (Element tag classes attrs kids) ∧ kids !! j = Some m.
Proof.
  rewrite resolve_app.
  destruct (resolve n p) as [[data|tag classes attrs kids]|]; simpl; [done| |done].
  destruct (kids !! j) as [k|] eqn:Hk; [|done]. intros [= <-].
  by exists tag, classes, attrs, kids.
Qed.

Lemma contains_snoc (h p : Handle) (j : nat) :
  contains h (p ++ [j]) = false → contains h p = false.
Proof.
  intros Hc. destruct (contains h p) eqn:Hp; [|done].
  apply contains_inv in Hp as [r ->].
  by rewrite <- app_assoc, contains_app in Hc.
Qed.

(** What the callback of the emulator injection does to a list: nothing when
    the list is flagged; else it throws before any edit, or it puts the
    button among the children of an element that is not in the list and
    flags the list. *)
Lemma injectEmulatorList_cases (doc : Node) (list : Handle) :
  isElement doc list →
  (getAttribute doc list HAS_JSON_BTN = Some "true"
   ∧ injectEmulatorList doc list = Done doc id)
  ∨ (∃ message, injectEmulatorList doc list = Thrown message)
  ∨ (getAttribute doc list HAS_JSON_BTN ≠ Some "true"
     ∧ ∃ p i tag classes attrs kids,
         resolve doc p = Some (Element tag classes attrs kids)
         ∧ (i <= length kids)%nat
         ∧ contains list p = false
         ∧ injectEmulatorList doc list
           = Done (setAttribute (insertChild doc p i createCopyButton)
                     (relocate p i list) HAS_JSON_BTN "true")
               (relocate p i)).
Proof.
  intros (Hne & tag0 & classes0 & attrs0 & kids0 & Hlist).
  unfold injectEmulatorList. case_bool_decide as Hflag; [by left|].
  right. cbv zeta.
  destruct (emulatorTarget doc list) as [targetBtn|] eqn:Htarget.
  - unfold emulatorTarget in Htarget.
    destruct (parentElement list) as [parent|] eqn:Hparent; [|done].
    apply parentElement_Some in Hparent as [Hparent _].
    apply find_some in Htarget as [Hin Hpred].
    apply list_elem_of_In, querySelectorAll_below in Hin
      as (s & Hs & -> & _ & tag & classes & attrs & kids & Hbtn).
    apply andb_true_iff in Hpred as [_ Hout%negb_true_iff].
    destruct (exists_last Hs) as (s' & j & ->).
    rewrite app_assoc in Hbtn, Hout |- *.
    apply resolve_snoc in Hbtn as (tag' & classes' & attrs' & kids' & Hp & Hj).
    apply contains_snoc in Hout.
    unfold after. rewrite parentElement_snoc, index_snoc by by destruct parent.
    right. split; [done|].
    exists (parent ++ s'), (S j), tag', classes', attrs', kids'.
    split_and!; [done| |done|done].
    apply lookup_lt_Some in Hj. lia.
  - destruct (parentElement list) as [parent|] eqn:Hparent;
      [|left; by eexists].
    apply parentElement_Some in Hparent as [Hparent Hsnoc].
    rewrite Hsnoc in Hlist.
    apply resolve_snoc in Hlist as (tag' & classes' & attrs' & kids' & Hp & Hj).
    right. split; [done|].
    exists parent, (index list), tag', classes', attrs', kids'.
    split_and!; [done| | |done].
    + apply lookup_lt_Some in Hj. lia.
    + apply contains_longer. apply (f_equal length) in Hsnoc.
      rewrite length_app in Hsnoc. simpl in Hsnoc. lia.
Qed.

End InjectFacts.

Section StepFacts.
Variables (doc : Node) (p : Handle) (i : nat).
Variables (tag : string) (classes : list string) (attrs : list (string * string)).
Variable kids : list Node.
Hypothesis Hp : resolve doc p = Some (Element tag classes attrs kids).
Hypothesis Hi : (i <= length kids)%nat.

Lemma classListContains_insertChild (new : Node) (h : Handle) (class : string) :
  is_Some (resolve doc h) →
  classListContains (insertChild doc p i new) (relocate p i h) class
  = classListContains doc h class.
Proof.
  intros [m Hm]. unfold classListContains.
  destruct (resolve_insertChild_kept doc p h i new m _ _ _ _ Hp Hi Hm)
    as (m' & -> & [->|(? & ? & ? & ? & ? & -> & ->)]); by rewrite Hm.
Qed.

Lemma getAttribute_insertChild (new : Node) (h : Handle) (name : string) :
  is_Some (resolve doc h) →
  getAttribute (insertChild doc p i new) (relocate p i h) name
  = getAttribute doc h name.
Proof.
  intros [m Hm]. unfold getAttribute.
  destruct (resolve_insertChild_kept doc p h i new m _ _ _ _ Hp Hi Hm)
    as (m' & -> & [->|(? & ? & ? & ? & ? & -> & ->)]); by rewrite Hm.
Qed.

Lemma isElement_insertChild (new : Node) (h : Handle) :
  isElement doc h → isElement (insertChild doc p i new) (relocate p i h).
Proof.
  intros (Hne & tag' & classes' & attrs' & kids' & Hh).
  split; [by apply relocate_nonempty|].
  destruct (resolve_insertChild_shell doc p h i new _ _ _ _ _ _ _ _ Hp Hi Hh)
    as [kids'' Hres].
  by exists tag', classes', attrs', kids''.
Qed.

End StepFacts.

Lemma isElement_setAttribute (doc : Node) (g h : Handle) (name value : string) :
  isElement doc h → isElement (setAttribute doc g name value) h.
Proof.
  intros (Hne & tag & classes & attrs & kids & Hh). split; [done|].
  rewrite resolve_setAttribute, Hh.
  destruct (contains h g); cbn [fmap option_fmap option_map].
  - destruct (setAttribute_Element tag classes attrs kids (drop (length h) g)
                name value) as (attrs' & kids' & -> & _).
    by eexists _, _, _, _.
  - by eexists _, _, _, _.
Qed.

(** The page after the button is put among the children of the element at
    [p] and the list at [g] is flagged. *)
Section FlaggedFacts.
Variables (doc : Node) (p g : Handle) (i : nat).
Variables (tag : string) (classes : list string) (attrs : list (string * string)).
Variable kids : list Node.
Hypothesis Hp : resolve doc p = Some (Element tag classes attrs kids).
Hypothesis Hi : (i <= length kids)%nat.
Hypothesis Hg : isElement doc g.

Local Abbreviation flagged :=
  (setAttribute (insertChild doc p i createCopyButton) (relocate p i g)
     HAS_JSON_BTN "true").

Lemma flagged_isElement (h : Handle) :
  isElement doc h → isElement flagged (relocate p i h).
Proof.
  intros Hh. apply isElement_setAttribute. by eapply isElement_insertChild.
Qed.

(** The field lists of the page are those it had. *)
Lemma flagged_field_lists (h : Handle) :
  h ≠ [] → classListContains flagged h "Firestore-Field-List" = true →
  ∃ h0, h = relocate p i h0 ∧ h0 ≠ []
        ∧ classListContains doc h0 "Firestore-Field-List" = true.
Proof.
  intros Hne. rewrite classListContains_setAttribute. intros Hclass.
  destruct (resolve (insertChild doc p i createCopyButton) h) as [m|] eqn:Hm;
    [|by unfold classListContains in Hclass; rewrite Hm in Hclass].
  destruct (resolve_insertChild_inv doc p h i _ m _ _ _ _ Hp Hi Hm)
    as [(s & -> & Hs)|(h0 & -> & Hh0)].
  - exfalso. unfold classListContains in Hclass. rewrite Hm in Hclass.
    destruct m as [data|tag' classes' attrs' kids']; [done|].
    apply resolve_createCopyButton in Hs as ->.
    apply bool_decide_eq_true_1, list_elem_of_singleton in Hclass. done.
  - exists h0. split; [done|].
    rewrite (classListContains_insertChild doc p i _ _ _ _ Hp Hi) in Hclass by done.
    split; [|done]. intros ->. by destruct p.
Qed.

(** The flags of the page are those it had, and that of the list. *)
Lemma flagged_flags (h : Handle) :
  is_Some (resolve doc h) →
  getAttribute flagged (relocate p i h) HAS_JSON_BTN
  = if decide (h = g) then Some "true" else getAttribute doc h HAS_JSON_BTN.
Proof.
  intros Hh.
  destruct (isElement_insertChild doc p i _ _ _ _ Hp Hi createCopyButton g Hg)
    as (_ & tag' & classes' & attrs' & kids' & Hres).
  rewrite (getAttribute_setAttribute _ _ _ _ _ _ _ _ _ Hres).
  destruct (decide (h = g)) as [->|Hne]; [by rewrite decide_True|].
  rewrite decide_False by (by intros ?%relocate_inj).
  by apply (getAttribute_insertChild doc p i _ _ _ _ Hp Hi).
Qed.

End FlaggedFacts.

(** X17: The injection of the button for a field list of the emulator does not
    change what the button copies: getFirestoreJSON with the list as the scope
    gives the same result in the page that the callback leaves as in the page
    before it. *)
Theorem emulator_injection_keeps_the_copy (doc doc' : Node) (list : Handle)
  (moved : Handle → Handle) (pathname : string) :
  list ∈ querySelectorAll doc [] Sel.Firestore_Field_List →
  injectEmulatorList doc list = Done doc' moved →
  getFirestoreJSON doc' pathname (Some (moved list))
  = getFirestoreJSON doc pathname (Some list).
Proof.
  intros [Helem Hclass]%querySelectorAll_class_elem Hdone.
  destruct (injectEmulatorList_cases doc list Helem)
    as [[_ Hcase]|[[message Hcase]|(_ & p & i & tag & classes & attrs & kids
                                    & Hp & Hi & Hout & Hcase)]];
    rewrite Hcase in Hdone; [by injection Hdone as <- <-|done|].
  injection Hdone as <- <-.
  destruct Helem as (Hne & tag0 & classes0 & attrs0 & kids0 & Hlist).
  unfold classListContains in Hclass. rewrite Hlist in Hclass.
  apply bool_decide_eq_true_1 in Hclass.
  eapply getFirestoreJSON_same_children;
    [by apply relocate_nonempty|done| |done|done|done].
  rewrite resolve_setAttribute.
  rewrite (resolve_insertChild doc p list i _ _ _ _ _ Hp Hi Hout), Hlist.
  unfold contains. rewrite bool_decide_eq_true_2 by apply take_ge, Nat.le_refl.
  simpl. by rewrite drop_all.
Qed.

Lemma emulator_injection_keeps_the_copy_witness :
  getFirestoreJSON (injectEmulatorButton Views.emulatorPage).1 "/doc"
    (Some [0%nat; 1%nat])
  = getFirestoreJSON Views.emulatorPage "/doc" (Some [0%nat; 1%nat]).
Proof.
  apply (emulator_injection_keeps_the_copy Views.emulatorPage _ [0%nat; 1%nat]
           (relocate [0%nat; 0%nat] 1) "/doc"); [|reflexivity].
  apply list_elem_of_here.
Defined.

Section LoopFacts.

Lemma forEachNode_fixed (callback : Node → Handle → Step) (nodes : list Handle)
  (moved : Handle → Handle) (doc : Node) :
  (∀ h, moved h = h) →
  (∀ node, node ∈ nodes → callback doc node = Done doc id) →
  forEachNode callback nodes moved doc = (doc, None).
Proof.
  revert moved. induction nodes as [|node rest IH]; intros moved Hmoved Hdone;
    [done|].
  simpl. rewrite Hmoved, Hdone by apply list_elem_of_here.
  apply IH; [by intros h; simpl|].
  intros node' Hin. by apply Hdone, list_elem_of_further.
Qed.

(** The loop of the emulator injection, when no callback throws, leaves
    every field list flagged that was flagged or was still to come. *)
Lemma forEachNode_injectEmulatorList (nodes : list Handle)
  (moved : Handle → Handle) (doc doc' : Node) :
  (∀ node, node ∈ nodes → isElement doc (moved node)) →
  (∀ h, h ≠ [] → classListContains doc h "Firestore-Field-List" = true →
        h ∈ moved <$> nodes ∨ getAttribute doc h HAS_JSON_BTN = Some "true") →
  forEachNode injectEmulatorList nodes moved doc = (doc', None) →
  ∀ h, h ≠ [] → classListContains doc' h "Firestore-Field-List" = true →
       getAttribute doc' h HAS_JSON_BTN = Some "true".
Proof.
  revert moved doc. induction nodes as [|node rest IH];
    intros moved doc Helems Hlists Hloop.
  { injection Hloop as <-. intros h Hne Hclass.
    by destruct (Hlists h Hne Hclass) as [?%elem_of_nil|?]. }
  simpl in Hloop.
  pose proof (Helems node (list_elem_of_here _ _)) as Hnode.
  destruct (injectEmulatorList_cases doc (moved node) Hnode)
    as [[Hflag Hcase]|[[message Hcase]|(_ & p & i & tag & classes & attrs & kids
                                        & Hp & Hi & _ & Hcase)]];
    rewrite Hcase in Hloop; [|done|].
  - apply (IH (id ∘ moved) doc); [| |exact Hloop].
    + intros node' Hin. by apply Helems, list_elem_of_further.
    + intros h Hne Hclass.
      destruct (Hlists h Hne Hclass) as [Hin|?]; [|by right].
      rewrite fmap_cons in Hin.
      apply elem_of_cons in Hin as [->|Hin]; [by right|]. by left.
  - apply (IH (relocate p i ∘ moved)
              (setAttribute (insertChild doc p i createCopyButton)
                 (relocate p i (moved node)) HAS_JSON_BTN "true"));
      [| |exact Hloop].
    + intros node' Hin. simpl.
      apply (flagged_isElement doc p (moved node) i _ _ _ _ Hp Hi).
      by apply Helems, list_elem_of_further.
    + intros h Hne Hclass.
      destruct (flagged_field_lists doc p (moved node) i _ _ _ _ Hp Hi h Hne Hclass)
        as (h0 & -> & Hne0 & Hclass0).
      assert (is_Some (resolve doc h0)) as Hsome.
      { unfold classListContains in Hclass0. by destruct (resolve doc h0). }
      rewrite (flagged_flags doc p (moved node) i _ _ _ _ Hp Hi Hnode h0 Hsome).
      destruct (decide (h0 = moved node)) as [->|Hother]; [by right|].
      destruct (Hlists h0 Hne0 Hclass0) as [Hin|?]; [|by right].
      rewrite fmap_cons in Hin. apply elem_of_cons in Hin as [->|Hin]; [done|].
      left. apply list_elem_of_fmap in Hin as (node' & -> & Hin).
      apply list_elem_of_fmap. by exists node'.
Qed.

End LoopFacts.

(** X18: A run of injectButton, on any host but that of the console, that ends
    without an exception leaves a page on which the next run changes nothing;
    on the hosts of the emulator every field list of that page is flagged. *)
Theorem emulator_injection_settles (host : string) (doc doc' : Node) :
  host ≠ "console.firebase.google.com" →
  injectButton host doc = (doc', None) →
  injectButton host doc' = (doc', None)
  ∧ (host = "localhost" ∨ host = "127.0.0.1" →
     ∀ list, list ∈ querySelectorAll doc' [] Sel.Firestore_Field_List →
             getAttribute doc' list HAS_JSON_BTN = Some "true").
Proof.
  intros Hhost. unfold injectButton.
  rewrite (bool_decide_eq_false_2 (host = "console.firebase.google.com")) by done.
  destruct (bool_decide (host = "localhost") || bool_decide (host = "127.0.0.1"))
    eqn:Hemulator.
  2: { intros [= <-]. split; [done|]. intros [->| ->]; done. }
  unfold injectEmulatorButton. intros Hloop.
  assert (∀ list, list ∈ querySelectorAll doc' [] Sel.Firestore_Field_List →
                  getAttribute doc' list HAS_JSON_BTN = Some "true") as Hflags.
  { intros list [[Hne _] Hclass]%querySelectorAll_class_elem.
    apply (forEachNode_injectEmulatorList
             (querySelectorAll doc [] Sel.Firestore_Field_List) id doc doc');
      [| |exact Hloop|done|done].
    - by intros node [? _]%querySelectorAll_class_elem.
    - intros h Hh Hhclass. left. rewrite list_fmap_id.
      apply querySelectorAll_elem. exists doc, h.
      assert (is_Some (resolve doc h)) as [m Hm].
      { unfold classListContains in Hhclass. by destruct (resolve doc h). }
      split_and!; [done|by eapply descendants_complete|done|].
      change (matches doc [] Sel.Firestore_Field_List h)
        with (matches doc []
                {| subject := {| isScope := false; typeName := None;
                                 classNames := ["Firestore-Field-List"] |};
                   context := [] |} h).
      rewrite matches_class. by destruct h. }
  split; [|done].
  apply forEachNode_fixed; [done|].
  intros list Hlist. unfold injectEmulatorList.
  by rewrite bool_decide_eq_true_2 by by apply Hflags.
Qed.

Lemma emulator_injection_settles_witness :
  injectButton "localhost" (injectButton "localhost" Views.emulatorPage).1
  = ((injectButton "localhost" Views.emulatorPage).1, None)
  ∧ getAttribute (injectButton "localhost" Views.emulatorPage).1
      [0%nat; 1%nat] HAS_JSON_BTN
    = Some "true".
Proof.
  destruct (emulator_injection_settles "localhost" Views.emulatorPage
              (injectButton "localhost" Views.emulatorPage).1)
    as [Hfixed Hflags]; [done|reflexivity|].
  split; [done|]. apply Hflags; [by left|]. apply list_elem_of_here.
Defined.

(** X19: When the Add field button of a panel is inside the panel, the
    callback of the production injection leaves a page on which it does
    nothing for the panel: the panel then holds a copy button. *)
Theorem production_injection_settles (doc doc' : Node) (panel : Handle)
  (moved : Handle → Handle) :
  isElement doc panel →
  (∀ target, productionTarget doc panel = Some target → below doc panel target) →
  injectProductionPanel doc panel = Done doc' moved →
  injectProductionPanel doc' (moved panel) = Done doc' id.
Proof.
  intros Hpanel Hinside. unfold injectProductionPanel at 1.
  destruct (productionTarget doc panel) as [target|] eqn:Htarget;
    [|intros [= <- <-]; unfold injectProductionPanel, id; by rewrite Htarget].
  destruct (querySelector doc panel Tag.copy_button) as [b|] eqn:Hbutton.
  { intros [= <- <-]. unfold injectProductionPanel, id.
    by rewrite Htarget, Hbutton. }
  destruct (Hinside target eq_refl)
    as (s & Hs & -> & _ & tag & classes & attrs & kids & Hres).
  destruct (exists_last Hs) as (s' & j & ->).
  rewrite app_assoc in Hres |- *.
  apply resolve_snoc in Hres as (tag' & classes' & attrs' & kids' & Hp & Hj).
  assert (S j <= length kids')%nat as Hi by (apply lookup_lt_Some in Hj; lia).
  unfold after. rewrite parentElement_snoc, index_snoc
    by (destruct Hpanel as [Hne _]; by destruct panel).
  intros [= <- <-]. rewrite relocate_prefix.
  set (inserted := insertChild doc (panel ++ s') (S j) createCopyButton).
  set (doc' := setAttribute inserted panel HAS_JSON_BTN "true").
  assert (resolve inserted ((panel ++ s') ++ [S j]) = Some createCopyButton)
    as Hnew by by eapply resolve_insertChild_new.
  assert (((panel ++ s') ++ [S j]) ∈ querySelectorAll doc' panel Tag.copy_button)
    as Hin.
  { assert (isElement doc' panel) as (_ & tag0 & classes0 & attrs0 & kids0 & Hres').
    { apply isElement_setAttribute.
      pose proof (isElement_insertChild doc (panel ++ s') (S j) _ _ _ _ Hp Hi
                    createCopyButton panel Hpanel) as Hkept.
      by rewrite relocate_prefix in Hkept. }
    assert (is_Some (resolve doc' ((panel ++ s') ++ [S j]))) as [m Hm].
    { unfold doc'. rewrite resolve_setAttribute, Hnew.
      by destruct (contains _ panel). }
    apply querySelectorAll_elem. eexists _, (s' ++ [S j]).
    split_and!; [done| |by rewrite app_assoc|].
    - rewrite <- app_assoc, resolve_app, Hres' in Hm.
      eapply descendants_complete; [done|by destruct s'].
    - change (matches doc' panel Tag.copy_button ((panel ++ s') ++ [S j]))
        with (matches doc' panel
                {| subject := {| isScope := false; typeName := None;
                                 classNames := [COPY_BTN_CLASS] |};
                   context := [] |} ((panel ++ s') ++ [S j])).
      rewrite matches_class. unfold doc'.
      rewrite classListContains_setAttribute. unfold classListContains.
      rewrite Hnew. by destruct ((panel ++ s') ++ [S j]) eqn:Hnil;
        [destruct (panel ++ s')|]. }
  unfold injectProductionPanel, querySelector.
  destruct (productionTarget doc' panel); [|done].
  by destruct (querySelectorAll doc' panel Tag.copy_button);
    [apply elem_of_nil in Hin|].
Qed.

Lemma production_injection_settles_witness :
  injectProductionPanel
    (setAttribute
       (insertChild Views.productionPage [0%nat; 0%nat] 2 createCopyButton)
       [0%nat; 0%nat] HAS_JSON_BTN "true")
    [0%nat; 0%nat]
  = Done
      (setAttribute
         (insertChild Views.productionPage [0%nat; 0%nat] 2 createCopyButton)
         [0%nat; 0%nat] HAS_JSON_BTN "true")
      id.
Proof.
  apply (production_injection_settles Views.productionPage _ [0%nat; 0%nat]
           (relocate [0%nat; 0%nat] 2)); [| |reflexivity].
  - split; [done|]. by eexists _, _, _, _.
  - intros target [= <-]. exists [1%nat]. split_and!; [done|done|].
    split; [done|]. by eexists _, _, _, _.
Defined.

(** The button of a panel that is itself the button around Add field is put
    after the panel, not into it: each run puts another one. *)
Example production_injection_repeats :
  let first := (injectProductionButton Views.panelIsButton).1 in
  let second := (injectProductionButton first).1 in
  productionTarget Views.panelIsButton [0%nat; 0%nat] = Some [0%nat; 0%nat]
  ∧ length (querySelectorAll first [] Tag.copy_button) = 1%nat
  ∧ length (querySelectorAll second [] Tag.copy_button) = 2%nat.
Proof. split_and!; reflexivity. Qed.
